(** * A shallow embedding of the portfolio dashboard script

    The script (script.js, and an earlier revision of it) is browser glue:
    it fetches JSON from a platform's REST API, merges and sums it, caches
    the aggregate in localStorage and renders it.  This development embeds
    the parts the specification makes promises about:

    - JavaScript values as they arrive from [JSON.parse], with the
      coercions the script applies to them ([Number], [String], [??],
      [?.], truthiness);
    - insertion-ordered [Map]s keyed by SameValueZero;
    - the effectful code (fetch, retry, pagination) in a state-and-error
      monad over an abstract network;
    - the worker pool [mapWithConcurrency] as a small-step machine whose
      schedule is chosen by the environment.

    Built-ins whose behaviour is fixed by the host and not by the script
    (string-to-number conversion, the JSON codec, Intl formatting, the
    storage quota) are the fields of the class [Host]. *)

From Stdlib Require Import ZArith Lia Ascii String.
From stdpp Require Import base list strings gmap pretty.

Set Warnings "-register-all".

Local Open Scope string_scope.
Local Open Scope list_scope.

(** ** Numbers

    The figures the script handles are ids, ranks, counters and
    millisecond timestamps: integers, far below 2^53, on which the
    arithmetic of doubles is exact.  [NaN] is kept because the script
    produces it whenever it coerces something that is not a number. *)

Inductive number : Type :=
| NaN
| Int (z : Z).

#[global] Instance number_eq_dec : EqDecision number.
Proof. solve_decision. Defined.

Definition num_leb (a b : number) : bool :=
  match a, b with
  | Int x, Int y => (x <=? y)%Z
  | _, _ => false
  end.

Definition num_ltb (a b : number) : bool :=
  match a, b with
  | Int x, Int y => (x <? y)%Z
  | _, _ => false
  end.

(** [a > b] and [a >= b] *)
Definition num_gtb (a b : number) : bool := num_ltb b a.
Definition num_geb (a b : number) : bool := num_leb b a.

Definition num_add (a b : number) : number :=
  match a, b with
  | Int x, Int y => Int (x + y)
  | _, _ => NaN
  end.

Definition num_sub (a b : number) : number :=
  match a, b with
  | Int x, Int y => Int (x - y)
  | _, _ => NaN
  end.

Definition num_mul (a b : number) : number :=
  match a, b with
  | Int x, Int y => Int (x * y)
  | _, _ => NaN
  end.

(** [Number.isFinite] *)
Definition isFinite (a : number) : bool :=
  match a with
  | NaN => false
  | Int _ => true
  end.

(** The key equality of [Map]: like [===], but [NaN] equals itself. *)
Definition sameValueZero (a b : number) : bool :=
  match a, b with
  | NaN, NaN => true
  | Int x, Int y => (x =? y)%Z
  | _, _ => false
  end.

(** ** Values *)

Inductive value : Type :=
| VUndefined
| VNull
| VBool (b : bool)
| VNum (n : number)
| VStr (s : string)
| VArr (items : list value)
| VObj (props : list (string * value)).

(** What the script throws or sees thrown. *)
Inductive error : Type :=
| TypeError (message : string)
(** the [err] of fetchAbsoluteJson: message, [err.status],
    [err.retryAfterMs] *)
| HttpError (message : string) (status : Z) (retryAfterMs : value)
(** a rejected [fetch] (network failure, or the abort after
    FETCH_TIMEOUT_MS) or a rejected [response.json()] *)
| FetchError (message : string)
| Error (message : string).

Inductive result (A : Type) : Type :=
| Ok (a : A)
| Throw (e : error).
Arguments Ok {A} a.
Arguments Throw {A} e.

Definition truthy (v : value) : bool :=
  match v with
  | VUndefined | VNull => false
  | VBool b => b
  | VNum NaN => false
  | VNum (Int z) => negb (z =? 0)%Z
  | VStr s => negb (String.eqb s "")
  | VArr _ | VObj _ => true
  end.

Definition nullish (v : value) : bool :=
  match v with
  | VUndefined | VNull => true
  | _ => false
  end.

(** [a ?? b] *)
Definition coalesce (a b : value) : value := if nullish a then b else a.

Fixpoint lookupProp (k : string) (props : list (string * value)) : value :=
  match props with
  | [] => VUndefined
  | (k', v) :: rest => if String.eqb k' k then v else lookupProp k rest
  end.

(** [v.k], for the data properties the script reads (none of them is a
    built-in property of strings or arrays). *)
Definition getProp (v : value) (k : string) : result value :=
  match v with
  | VUndefined => Throw (TypeError "Cannot read properties of undefined")
  | VNull => Throw (TypeError "Cannot read properties of null")
  | VObj props => Ok (lookupProp k props)
  | _ => Ok VUndefined
  end.

(** [v?.k] *)
Definition optProp (v : value) (k : string) : value :=
  match v with
  | VObj props => lookupProp k props
  | _ => VUndefined
  end.

Definition isArray (v : value) : bool :=
  match v with
  | VArr _ => true
  | _ => false
  end.

(** [Array.isArray(v) ? v : []] *)
Definition arrayOrEmpty (v : value) : list value :=
  match v with
  | VArr items => items
  | _ => []
  end.

Definition numberToString (n : number) : string :=
  match n with
  | NaN => "NaN"
  | Int z => pretty z
  end.

Definition join (sep : string) (parts : list string) : string :=
  String.concat sep parts.

(** [String(v)]; inside an array, [null] and [undefined] print as the
    empty string. *)
Fixpoint ToString (v : value) : string :=
  match v with
  | VUndefined => "undefined"
  | VNull => "null"
  | VBool true => "true"
  | VBool false => "false"
  | VNum n => numberToString n
  | VStr s => s
  | VArr items =>
      join "," (map (fun x => if nullish x then "" else ToString x) items)
  | VObj _ => "[object Object]"
  end.

(** ** The host *)

Class Host : Type := {
  (** [Number(s)] for a string [s] *)
  StringToNumber : string -> number;
  (** [JSON.parse]; [None] when it throws *)
  JSON_parse : string -> option value;
  (** [JSON.stringify]; [None] when it yields [undefined] *)
  JSON_stringify : value -> option string;
  (** [Intl.NumberFormat("en-US").format] *)
  numberFormat : number -> string;
  (** whether [localStorage.setItem(key, text)] succeeds *)
  storageAccepts : string -> string -> bool
}.

Section Coercions.
Context `{Host}.

(** [Number(v)] *)
Definition ToNumber (v : value) : number :=
  match v with
  | VUndefined => NaN
  | VNull => Int 0
  | VBool true => Int 1
  | VBool false => Int 0
  | VNum n => n
  | VStr s => StringToNumber s
  | VArr _ => StringToNumber (ToString v)
  | VObj _ => NaN
  end.

(** [Number(v ?? 0)] *)
Definition numberOr0 (v : value) : number := ToNumber (coalesce v (VNum (Int 0))).

End Coercions.

(** ** Sequencing fallible steps *)

Definition bind {A B : Type} (r : result A) (k : A -> result B) : result B :=
  match r with
  | Ok a => k a
  | Throw e => Throw e
  end.

Notation "'let*' x ':=' r 'in' k" := (bind r (fun x => k))
  (at level 10, x pattern, r at level 100, k at level 200).

(** [items.map(f)] for an [f] that may throw: the first failure wins. *)
Fixpoint mapResult {A B : Type} (f : A -> result B) (items : list A) : result (list B) :=
  match items with
  | [] => Ok []
  | x :: rest =>
      let* y := f x in
      let* ys := mapResult f rest in
      Ok (y :: ys)
  end.

(** ** [Map] with number keys

    A [Map] iterates in insertion order, and [set] on a key that is
    already present replaces the value in place, keeping the position. *)

Section JsMap.
Context {V : Type}.

Definition jsmap : Type := list (number * V).

Fixpoint map_set (k : number) (v : V) (m : jsmap) : jsmap :=
  match m with
  | [] => [(k, v)]
  | (k', v') :: rest =>
      if sameValueZero k' k then (k', v) :: rest
      else (k', v') :: map_set k v rest
  end.

Fixpoint map_get (k : number) (m : jsmap) : option V :=
  match m with
  | [] => None
  | (k', v') :: rest => if sameValueZero k' k then Some v' else map_get k rest
  end.

Definition map_values (m : jsmap) : list V := map snd m.
Definition map_keys (m : jsmap) : list number := map fst m.
Definition map_size (m : jsmap) : nat := length m.

End JsMap.
Arguments jsmap V : clear implicits.

(** ** [Array.prototype.sort]

    The sort is stable.  [after x y] says that the comparator puts [x]
    behind [y] (it returned a positive number). *)

Section Sort.
Context {A : Type} (after : A -> A -> bool).

Fixpoint insertSorted (x : A) (l : list A) : list A :=
  match l with
  | [] => [x]
  | y :: rest => if after x y then y :: insertSorted x rest else x :: l
  end.

Definition sortWith (l : list A) : list A := foldr insertSorted [] l.

End Sort.

(** ** The records the script builds *)

Record game : Type := {
  universeId : number;
  rootPlaceId : number;
  placeVisits : number
}.

Record community : Type := {
  id : number;
  name : value;
  memberCount : number
}.

Record totals : Type := {
  visits : number;
  groupMembers : number;
  playing : number
}.

Section Aggregation.
Context `{Host}.

(** *** collectGames *)

(** One turn of the loop of collectGames. *)
Definition collectGame (m : jsmap game) (g : value) : result (jsmap game) :=
  let* idv := getProp g "id" in
  let universeId := numberOr0 idv in
  let rootPlaceId := numberOr0 (optProp (optProp g "rootPlace") "id") in
  let placeVisits := numberOr0 (optProp g "placeVisits") in
  if num_leb universeId (Int 0) then Ok m
  else Ok (map_set universeId
             {| universeId := universeId;
                rootPlaceId := rootPlaceId;
                placeVisits := placeVisits |} m).

Fixpoint collectLoop (games : list value) (m : jsmap game) : result (jsmap game) :=
  match games with
  | [] => Ok m
  | g :: rest =>
      let* m' := collectGame m g in
      collectLoop rest m'
  end.

Definition collectGames (userGames groupGames : list value) : result (list game) :=
  let* m := collectLoop (userGames ++ groupGames) [] in
  Ok (map_values m).

(** *** getOwnedGroups *)

Definition isOwnedGroup (entry : value) : bool :=
  match optProp (optProp entry "role") "rank" with
  | VNum rank => num_geb rank (Int 255)
  | _ => false
  end.

(** The object literal built for an owned entry. *)
Definition toCommunity (entry : value) : result community :=
  let* group := getProp entry "group" in
  let* gid := getProp group "id" in
  let* gname := getProp group "name" in
  let* gcount := getProp group "memberCount" in
  Ok {| id := ToNumber gid; name := gname; memberCount := numberOr0 gcount |}.

(** [deduped.set(group.id, group)] *)
Definition dedupeStep (m : jsmap community) (g : community) : jsmap community :=
  map_set (id g) g m.

Definition dedupeById (owned : list community) : jsmap community :=
  fold_left dedupeStep owned [].

(** Every record sits under its own id. *)
Definition keyedById (m : jsmap community) : Prop :=
  forall k g, (k, g) ∈ m -> k = id g.

(** The comparator [(a, b) => b.memberCount - a.memberCount] is positive. *)
Definition fewerMembers (a b : community) : bool :=
  num_gtb (num_sub (memberCount b) (memberCount a)) (Int 0).

(** getOwnedGroups from the payload of its request on. *)
Definition ownedGroupsOfPayload (payload : value) : result (list community) :=
  let* data := getProp payload "data" in
  let roles := arrayOrEmpty data in
  let* owned := mapResult toCommunity (filter (fun e => isOwnedGroup e = true) roles) in
  Ok (sortWith fewerMembers (map_values (dedupeById owned))).

End Aggregation.

(** *** buildTotals *)

(** What one game adds to [playing].  The games come from collectGames,
    whose fields are numbers already, so [Number(game.rootPlaceId ?? 0)]
    is the field itself; the values of both maps are numbers too. *)
Definition playingOf (rolimonsPlayersByPlace universePlayingById : jsmap number)
    (g : game) : number :=
  let placeId := rootPlaceId g in
  let rolimonsPlaying :=
    if num_gtb placeId (Int 0) then map_get placeId rolimonsPlayersByPlace else None in
  let fallbackPlaying :=
    match map_get (universeId g) universePlayingById with
    | Some n => n
    | None => Int 0
    end in
  match rolimonsPlaying with
  | Some n => n
  | None => fallbackPlaying
  end.

(** [sumBy(ownedGroups, "memberCount")] *)
Definition sumByMemberCount (items : list community) : number :=
  fold_left (fun total item => num_add total (memberCount item)) items (Int 0).

Definition buildTotals (ownedGroups : list community) (allGames : list game)
    (rolimonsPlayersByPlace universePlayingById : jsmap number) : totals :=
  let '(visits, playing) :=
    fold_left
      (fun '(visits, playing) g =>
         (num_add visits (placeVisits g),
          num_add playing (playingOf rolimonsPlayersByPlace universePlayingById g)))
      allGames (Int 0, Int 0) in
  {| visits := visits;
     groupMembers := sumByMemberCount ownedGroups;
     playing := playing |}.

(** ** The network and the effects of a refresh *)

(** What one call of [fetch] comes to: it rejects, or it resolves with a
    response whose body [response.json()] parses ([Some]) or not. *)
Inductive fetchOutcome : Type :=
| Rejected (message : string)
| Responded (status : Z) (statusText : string) (retryAfter : option string)
    (body : option value).

Inductive event : Type :=
(** fetchJson was called *)
| Request (service path : string)
(** [fetch(url)] was called, with its outcome *)
| Fetched (url : string) (o : fetchOutcome)
(** [delay(ms)] was awaited *)
| Delayed (ms : number).

Definition isRequest (e : event) : option string :=
  match e with
  | Request _ path => Some path
  | _ => None
  end.

Definition isFetched (e : event) : option fetchOutcome :=
  match e with
  | Fetched _ o => Some o
  | _ => None
  end.


(** The paths fetchJson was called with, the outcomes of the calls of
    fetch, and the delays awaited, each in order. *)
Definition requestsOf (log : list event) : list string := omap isRequest log.
Definition fetchesOf (log : list event) : list fetchOutcome := omap isFetched log.

(** [response.ok] *)
Definition responseOk (status : Z) : bool := (200 <=? status)%Z && (status <=? 299)%Z.

(** [error.retryAfterMs] *)
Definition errorRetryAfterMs (e : error) : value :=
  match e with
  | HttpError _ _ retryAfterMs => retryAfterMs
  | _ => VUndefined
  end.

Definition isUnreserved (c : ascii) : bool :=
  let n := nat_of_ascii c in
  (65 <=? n)%nat && (n <=? 90)%nat
  || (97 <=? n)%nat && (n <=? 122)%nat
  || (48 <=? n)%nat && (n <=? 57)%nat
  || bool_decide (c ∈ ["-"; "_"; "."; "!"; "~"; "*"; "'"; "("; ")"]%char).

Definition hexDigit (n : nat) : ascii :=
  nth n (list_ascii_of_string "0123456789ABCDEF") "0"%char.

(** [encodeURIComponent] on the UTF-8 bytes of a string *)
Fixpoint encodeURIComponent (s : string) : string :=
  match s with
  | EmptyString => EmptyString
  | String c rest =>
      if isUnreserved c then String c (encodeURIComponent rest)
      else
        let n := nat_of_ascii c in
        String "%" (String (hexDigit (n / 16)) (String (hexDigit (n mod 16))
          (encodeURIComponent rest)))
  end.

Definition hexValue (c : ascii) : nat :=
  let n := nat_of_ascii c in
  if (n <=? 57)%nat then n - 48 else n - 55.

(** [decodeURIComponent], on what encodeURIComponent produces *)
Fixpoint decodeURIComponent (s : string) : string :=
  match s with
  | EmptyString => EmptyString
  | String c rest =>
      if Ascii.eqb c "%" then
        match rest with
        | String h (String l rest') =>
            String (ascii_of_nat (hexValue h * 16 + hexValue l))
              (decodeURIComponent rest')
        | _ => String c (decodeURIComponent rest)
        end
      else String c (decodeURIComponent rest)
  end.

Definition API_HOSTS (service : string) : option (list string) :=
  if String.eqb service "groups"
  then Some ["https://groups.roproxy.com"; "https://groups.roblox.com"]
  else if String.eqb service "games"
  then Some ["https://games.roproxy.com"; "https://games.roblox.com"]
  else None.

Section Script.
Context `{Host}.
Context {World : Type} (fetch : World -> string -> fetchOutcome * World).

(** The state threaded through a refresh: the outside world and a log of
    what the script did to it. *)
Record state : Type := {
  world : World;
  trace : list event
}.

Definition M (A : Type) : Type := state -> result A * state.

Definition ret {A : Type} (a : A) : M A := fun st => (Ok a, st).
Definition throw {A : Type} (e : error) : M A := fun st => (Throw e, st).
Definition lift {A : Type} (r : result A) : M A := fun st => (r, st).

Definition mbindM {A B : Type} (m : M A) (k : A -> M B) : M B :=
  fun st =>
    match m st with
    | (Ok a, st') => k a st'
    | (Throw e, st') => (Throw e, st')
    end.

(** [try { m } catch (error) { handler }] *)
Definition tryCatch {A : Type} (m : M A) (handler : error -> M A) : M A :=
  fun st =>
    match m st with
    | (Ok a, st') => (Ok a, st')
    | (Throw e, st') => handler e st'
    end.

Definition log (e : event) : M unit :=
  fun st => (Ok tt, {| world := world st; trace := trace st ++ [e] |}).

Definition delay (ms : number) : M unit := log (Delayed ms).

Definition callFetch (url : string) : M fetchOutcome :=
  fun st =>
    let '(o, w) := fetch (world st) url in
    (Ok o, {| world := w; trace := trace st ++ [Fetched url o] |}).

Notation "'do' x '<-' m ';' k" := (mbindM m (fun x => k))
  (at level 10, x pattern, m at level 100, k at level 200).

(** *** fetchAbsoluteJson *)

(** The [try] block of one attempt, from the outcome of [fetch] on. *)
Definition attemptResult (o : fetchOutcome) : result value :=
  match o with
  | Rejected message => Throw (FetchError message)
  | Responded status statusText retryAfter body =>
      if responseOk status then
        match body with
        | Some v => Ok v
        | None => Throw (FetchError "Unexpected token in JSON")
        end
      else
        let header := match retryAfter with Some s => VStr s | None => VNull end in
        let retryAfterRaw := ToNumber header in
        Throw (HttpError (pretty status +:+ " " +:+ statusText) status
                 (if isFinite retryAfterRaw
                  then VNum (num_mul retryAfterRaw (Int 1000))
                  else VNull))
  end.

Definition attemptFetch (url : string) : M value :=
  do o <- callFetch url;
  lift (attemptResult o).

Definition backoffMs (e : error) (attempt : Z) : number :=
  if num_gtb (ToNumber (errorRetryAfterMs e)) (Int 0)
  then ToNumber (errorRetryAfterMs e)
  else Int (300 * attempt * attempt).

(** The [for] loop with [remaining] turns to go, the next one numbered
    [attempt]. *)
Fixpoint fetchAttempts (remaining : nat) (attempt : Z) (lastError : option error)
    (url : string) : M value :=
  match remaining with
  | O =>
      throw (match lastError with
             | Some e => e
             | None => Error ("Request failed for " +:+ url)
             end)
  | S remaining' =>
      tryCatch (attemptFetch url)
        (fun e =>
           do _ <- delay (backoffMs e attempt);
           fetchAttempts remaining' (attempt + 1) (Some e) url)
  end.

Definition fetchAbsoluteJson (url : string) : M value :=
  fetchAttempts 3 1%Z None url.

(** *** fetchJson *)

Fixpoint tryHosts (hosts : list string) (service path : string)
    (lastError : option error) : M value :=
  match hosts with
  | [] =>
      throw (match lastError with
             | Some e => e
             | None => Error ("Request failed for " +:+ service +:+ path)
             end)
  | host :: rest =>
      tryCatch (fetchAbsoluteJson (host +:+ path))
        (fun e => tryHosts rest service path (Some e))
  end.

Definition fetchJson (service path : string) : M value :=
  do _ <- log (Request service path);
  match API_HOSTS service with
  | None => throw (Error ("Unknown API service: " +:+ service))
  | Some hosts => tryHosts hosts service path None
  end.

(** *** getPagedGames

    The [do ... while (cursor)] loop has no bound of its own; [fuel]
    counts the turns it is given, and [None] says they did not suffice. *)

Definition pagePathOf (path : string) (cursor : value) : string :=
  if truthy cursor
  then path +:+ "&cursor=" +:+ encodeURIComponent (ToString cursor)
  else path.

Fixpoint pagedLoop (fuel : nat) (path : string) (cursor : value) (games : list value)
    (st : state) : option (result (list value) * state) :=
  match fuel with
  | O => None
  | S fuel' =>
      let pagePath := pagePathOf path cursor in
      match fetchJson "games" pagePath st with
      | (Throw e, st') => Some (Throw e, st')
      | (Ok payload, st') =>
          match getProp payload "data" with
          | Throw e => Some (Throw e, st')
          | Ok data =>
              let games' := (games ++ arrayOrEmpty data)%list in
              let cursor' := optProp payload "nextPageCursor" in
              if truthy cursor' then pagedLoop fuel' path cursor' games' st'
              else Some (Ok games', st')
          end
      end
  end.

Definition getPagedGames (fuel : nat) (path : string) (st : state)
    : option (result (list value) * state) :=
  pagedLoop fuel path VNull [] st.

Definition getUserGames (fuel : nat) (userId : number) :=
  getPagedGames fuel
    ("/v2/users/" +:+ numberToString userId
       +:+ "/games?accessFilter=Public&limit=50&sortOrder=Asc").

Definition getGroupGames (fuel : nat) (groupId : number) :=
  getPagedGames fuel
    ("/v2/groups/" +:+ numberToString groupId
       +:+ "/games?accessFilter=Public&limit=50&sortOrder=Asc").

Definition getOwnedGroups (userId : number) : M (list community) :=
  do payload <- fetchJson "groups"
                  ("/v2/users/" +:+ numberToString userId +:+ "/groups/roles");
  lift (ownedGroupsOfPayload payload).

(** *** getUniversePlayingById *)

(** [values.slice(from, to)] for [from <= to] *)
Definition slice {A : Type} (values : list A) (from to : nat) : list A :=
  take (to - from) (drop from values).

(** [for (index = ...; index < values.length; index += step)
      chunks.push(values.slice(index, index + step))];
    [None] when [fuel] turns do not finish the loop. *)
Fixpoint sliceLoop {A : Type} (fuel step index : nat) (values : list A)
    : option (list (list A)) :=
  match fuel with
  | O => None
  | S fuel' =>
      if (index <? length values)%nat
      then option_map (cons (slice values index (index + step)))
             (sliceLoop fuel' step (index + step) values)
      else Some []
  end.

(** The chunks of getUniversePlayingById: 100 ids to a request. *)
Definition universeChunks (universeIds : list number) : option (list (list number)) :=
  sliceLoop (S (length universeIds)) 100 0 universeIds.

Definition universePath (chunk : list number) : string :=
  "/v1/games?universeIds=" +:+ join "," (map numberToString chunk).

(** [mapWithConcurrency(items, 1, handler)] for an effectful handler:
    the single worker awaits each call before it takes the next item, and
    the first rejection ends it. *)
Fixpoint mapOneWorker {A B : Type} (handler : A -> M B) (items : list A) : M (list B) :=
  match items with
  | [] => ret []
  | x :: rest =>
      do y <- handler x;
      do ys <- mapOneWorker handler rest;
      ret (y :: ys)
  end.

Fixpoint foldResult {A S : Type} (f : S -> A -> result S) (items : list A) (acc : S)
    : result S :=
  match items with
  | [] => Ok acc
  | x :: rest =>
      let* acc' := f acc x in
      foldResult f rest acc'
  end.

Definition recordPlaying (playingById : jsmap number) (item : value)
    : result (jsmap number) :=
  let* idv := getProp item "id" in
  let universeId := numberOr0 idv in
  if num_leb universeId (Int 0) then Ok playingById
  else Ok (map_set universeId (numberOr0 (optProp item "playing")) playingById).

Definition recordResponse (playingById : jsmap number) (response : value)
    : result (jsmap number) :=
  let* data := getProp response "data" in
  foldResult recordPlaying (arrayOrEmpty data) playingById.

Definition getUniversePlayingById (universeIds : list number) (st : state)
    : option (result (jsmap number) * state) :=
  if (length universeIds =? 0)%nat then Some (Ok [], st)
  else
    match universeChunks universeIds with
    | None => None
    | Some chunks =>
        Some ((do responses <-
                 mapOneWorker (fun chunk => fetchJson "games" (universePath chunk)) chunks;
               lift (foldResult recordResponse responses [])) st)
    end.

(** *** The playing figures of a refresh (loadPortfolioStats, from
    [rolimonsPlayersByPlace] to [totals]) *)

Definition refreshTotals (ownedGroups : list community) (allGames : list game)
    (rolimonsPlayersByPlace : jsmap number) (st : state)
    : option (result totals * state) :=
  let universeIds := map universeId allGames in
  match
    (if (map_size rolimonsPlayersByPlace =? 0)%nat
     then getUniversePlayingById universeIds st
     else Some (Ok [], st))
  with
  | None => None
  | Some (Throw e, st') => Some (Throw e, st')
  | Some (Ok universePlayingById, st') =>
      Some (Ok (buildTotals ownedGroups allGames rolimonsPlayersByPlace
                  universePlayingById), st')
  end.

(** ** The earlier revision of the script

    It has its own fetchJson (two attempts on a single host, a linear
    delay) and fetches the statistics of the universes in chunks of 30. *)

Definition earlier_API_HOSTS (service : string) : option (list string) :=
  if String.eqb service "users" then Some ["https://users.roproxy.com"]
  else if String.eqb service "groups" then Some ["https://groups.roproxy.com"]
  else if String.eqb service "games" then Some ["https://games.roproxy.com"]
  else None.

Definition earlier_attempt (url : string) : M value :=
  do o <- callFetch url;
  match o with
  | Rejected message => throw (FetchError message)
  | Responded status statusText _ body =>
      if responseOk status then
        match body with
        | Some v => ret v
        | None => throw (FetchError "Unexpected token in JSON")
        end
      else throw (Error (pretty status +:+ " " +:+ statusText))
  end.

(** The two attempts on one host; the error of the last one is what the
    loop over the hosts carries on as [lastError]. *)
Fixpoint earlier_attempts (remaining : nat) (attempt : Z) (url : string)
    (lastError : option error) : M value :=
  match remaining with
  | O =>
      throw (match lastError with
             | Some e => e
             | None => Error ("Request failed for " +:+ url)
             end)
  | S remaining' =>
      tryCatch (earlier_attempt url)
        (fun e =>
           do _ <- delay (Int (225 * attempt));
           earlier_attempts remaining' (attempt + 1) url (Some e))
  end.

Fixpoint earlier_tryHosts (hosts : list string) (service path : string)
    (lastError : option error) : M value :=
  match hosts with
  | [] =>
      throw (match lastError with
             | Some e => e
             | None => Error ("Request failed for " +:+ service +:+ path)
             end)
  | host :: rest =>
      tryCatch (earlier_attempts 2 1%Z (host +:+ path) lastError)
        (fun e => earlier_tryHosts rest service path (Some e))
  end.

Definition earlier_fetchJson (service path : string) : M value :=
  do _ <- log (Request service path);
  match earlier_API_HOSTS service with
  | None => throw (Error ("Unknown API service: " +:+ service))
  | Some hosts => earlier_tryHosts hosts service path None
  end.

Definition chunkArray {A : Type} (values : list A) (chunkSize : nat)
    : option (list (list A)) :=
  sliceLoop (S (length values)) chunkSize 0 values.

Definition statsPath (chunk : list value) : string :=
  "/v1/games?universeIds=" +:+ join "," (map ToString chunk).

(** The [for (const chunk of chunks)] loop of getUniverseStats. *)
Fixpoint statsLoop (chunks : list (list value)) (stats : list value) : M (list value) :=
  match chunks with
  | [] => ret stats
  | chunk :: rest =>
      do response <- earlier_fetchJson "games" (statsPath chunk);
      do data <- lift (getProp response "data");
      statsLoop rest (stats ++ arrayOrEmpty data)%list
  end.

Definition getUniverseStats (universeIds : list value) (st : state)
    : option (result (list value) * state) :=
  if (length universeIds =? 0)%nat then Some (Ok [], st)
  else
    match chunkArray universeIds 30 with
    | None => None
    | Some chunks => Some (statsLoop chunks [] st)
    end.

End Script.

(** ** mapWithConcurrency

    The workers are coroutines on one event loop.  A worker runs from the
    top of its [while (true)] to the [await] in one piece: it takes the
    next index, and either returns or calls the handler and waits.  When
    the awaited call settles the worker is resumed: it stores the result
    and goes round the loop again.  Which of the waiting workers is
    resumed next is the environment's choice: a schedule is the list of
    those choices.  The limit [concurrency] is a count of workers (the
    script passes 1 and 2). *)

Section Pool.
Context {A B : Type}.
Context (items : list A) (concurrency : nat) (handler : A -> nat -> result B).

Inductive worker : Type :=
(** suspended at [await handler(items[currentIndex], currentIndex)] *)
| Awaiting (currentIndex : nat)
(** left the loop through [return] *)
| Returned
(** the awaited call rejected, and so did the worker *)
| Failed (e : error).

Record pool : Type := {
  (** the array [results]; [None] is a slot never assigned *)
  results : list (option B);
  nextIndex : nat;
  (** the array [workers] *)
  workers : list worker;
  (** the indices the handler has been called with, in order *)
  calls : list nat;
  (** the first rejection, which is what [Promise.all] rejects with *)
  failure : option error
}.

(** [Math.min(concurrency, items.length)] *)
Definition count : nat := Nat.min concurrency (length items).

Definition newPool : pool :=
  {| results := replicate (length items) None;
     nextIndex := 0;
     workers := [];
     calls := [];
     failure := None |}.

(** From the top of the loop to the [await] or the [return]. *)
Definition takeIndex (p : pool) : worker * pool :=
  let currentIndex := nextIndex p in
  if (length items <=? currentIndex)%nat then
    (Returned,
     {| results := results p; nextIndex := S currentIndex; workers := workers p;
        calls := calls p; failure := failure p |})
  else
    (Awaiting currentIndex,
     {| results := results p; nextIndex := S currentIndex; workers := workers p;
        calls := (calls p ++ [currentIndex])%list; failure := failure p |}).

(** [workers.push(worker())] *)
Definition spawn (p : pool) : pool :=
  let '(w, p') := takeIndex p in
  {| results := results p'; nextIndex := nextIndex p';
     workers := (workers p' ++ [w])%list;
     calls := calls p'; failure := failure p' |}.

(** The [for] loop that starts the workers. *)
Fixpoint spawnAll (n : nat) (p : pool) : pool :=
  match n with
  | O => p
  | S n' => spawnAll n' (spawn p)
  end.

Definition started : pool := spawnAll count newPool.

(** Worker [w] is resumed; [None] if it is not waiting. *)
Definition resume (w : nat) (p : pool) : option pool :=
  match workers p !! w with
  | Some (Awaiting currentIndex) =>
      match items !! currentIndex with
      | None => None
      | Some item =>
          match handler item currentIndex with
          | Ok v =>
              let '(w', p') :=
                takeIndex {| results := <[currentIndex := Some v]> (results p);
                         nextIndex := nextIndex p; workers := workers p;
                         calls := calls p; failure := failure p |} in
              Some {| results := results p'; nextIndex := nextIndex p';
                      workers := <[w := w']> (workers p');
                      calls := calls p'; failure := failure p' |}
          | Throw e =>
              Some {| results := results p; nextIndex := nextIndex p;
                      workers := <[w := Failed e]> (workers p);
                      calls := calls p;
                      failure := match failure p with
                                 | Some e0 => Some e0
                                 | None => Some e
                                 end |}
          end
      end
  | _ => None
  end.

Fixpoint run (schedule : list nat) (p : pool) : option pool :=
  match schedule with
  | [] => Some p
  | w :: rest =>
      match resume w p with
      | Some p' => run rest p'
      | None => None
      end
  end.

Definition isAwaiting (w : worker) : bool :=
  match w with
  | Awaiting _ => true
  | _ => false
  end.

Definition isReturned (w : worker) : bool :=
  match w with
  | Returned => true
  | _ => false
  end.

(** The handler invocations in flight. *)
Definition pending (p : pool) : nat := length (filter (fun w => isAwaiting w = true) (workers p)).

(** [await Promise.all(workers); return results]: settled with the
    array once every worker has returned, with the first rejection as
    soon as there is one, and not yet settled otherwise. *)
Definition settled (p : pool) : option (result (list (option B))) :=
  match failure p with
  | Some e => Some (Throw e)
  | None => if forallb isReturned (workers p) then Some (Ok (results p)) else None
  end.

(** The call under a schedule: [None] when the schedule resumes a worker
    that is not waiting, or stops before the call has settled. *)
Definition mapWithConcurrency (schedule : list nat) : option (result (list (option B))) :=
  match run schedule started with
  | Some p => settled p
  | None => None
  end.

(** Every state the call goes through: the workers are started one after
    the other, and only then is any of them resumed. *)
Inductive reachable : pool -> Prop :=
| reach_new : reachable newPool
| reach_spawn p :
    reachable p -> length (workers p) < count -> reachable (spawn p)
| reach_resume p w p' :
    reachable p -> length (workers p) = count -> resume w p = Some p' ->
    reachable p'.

(** What holds of every state of the call. *)
Record pool_inv (p : pool) : Prop := {
  inv_results : length (results p) = length items;
  (** the handler has been called once with each index taken so far *)
  inv_calls : calls p = seq 0 (Nat.min (nextIndex p) (length items));
  inv_untaken : forall i,
    nextIndex p <= i -> i < length items -> results p !! i = Some None;
  (** an index that was taken is in flight, or its slot holds what the
      handler returned, or its call rejected *)
  inv_taken : forall i item,
    items !! i = Some item -> i < nextIndex p ->
    (exists w, workers p !! w = Some (Awaiting i))
    \/ (exists v, handler item i = Ok v /\ results p !! i = Some (Some v))
    \/ (exists e, handler item i = Throw e /\ failure p <> None);
  inv_awaiting : forall w i,
    workers p !! w = Some (Awaiting i) -> i < nextIndex p /\ i < length items;
  inv_returned : forall w,
    workers p !! w = Some Returned -> length items <= nextIndex p;
  inv_failed : forall w e,
    workers p !! w = Some (Failed e) -> failure p <> None;
  inv_workers : length (workers p) <= count
}.

End Pool.

(** ** The snapshot cache *)

(** [localStorage]: the browser may deny it altogether (every access
    throws), or it holds strings under string keys. *)
Inductive storage : Type :=
| StorageDenied
| Stored (entries : gmap string string).

(** [typeof v === "object"] *)
Definition typeofObject (v : value) : bool :=
  match v with
  | VNull | VArr _ | VObj _ => true
  | _ => false
  end.

Definition CACHE_KEY : string := "mensch_portfolio_snapshot_v2".
Definition CACHE_MAX_AGE_MS : Z := 10 * 60 * 1000.
Definition CACHE_FAILOVER_MAX_AGE_MS : Z := 24 * 60 * 60 * 1000.

Section Snapshot.
Context `{Host}.

(** [now] is what [Date.now()] returns at the read. *)
Definition readSnapshot (ls : storage) (now : Z) (key : string) (maxAgeMs : number)
    : value :=
  match ls with
  | StorageDenied => VNull
  | Stored entries =>
      match entries !! key with
      | None => VNull
      | Some raw =>
          if String.eqb raw "" then VNull
          else
            match JSON_parse raw with
            | None => VNull
            | Some parsed =>
                if negb (truthy parsed) || negb (typeofObject parsed) then VNull
                else
                  let updatedAtMs := numberOr0 (optProp parsed "updatedAtMs") in
                  if num_leb updatedAtMs (Int 0) then VNull
                  else if num_gtb (num_sub (Int now) updatedAtMs) maxAgeMs then VNull
                  else parsed
            end
      end
  end.

Definition writeSnapshot (ls : storage) (key : string) (data : value) : storage :=
  match ls with
  | StorageDenied => ls
  | Stored entries =>
      let text := match JSON_stringify data with
                  | Some s => s
                  | None => "undefined"
                  end in
      if storageAccepts key text then Stored (<[key := text]> entries) else ls
  end.

End Snapshot.

(** ** Rendering the community cards *)

(** The double quote and the line feed, which the markup is full of. *)
Definition dquote : ascii := ascii_of_nat 34.
Definition dq : string := String dquote EmptyString.
Definition nl : string := String (ascii_of_nat 10) EmptyString.
Definition quoted (s : string) : string := dq +:+ s +:+ dq.

(** [s.replaceAll(pattern, replacement)] for a one-character pattern *)
Fixpoint replaceAll (pattern : ascii) (replacement : string) (s : string) : string :=
  match s with
  | EmptyString => EmptyString
  | String c rest =>
      if Ascii.eqb c pattern
      then replacement +:+ replaceAll pattern replacement rest
      else String c (replaceAll pattern replacement rest)
  end.

(** The five [replaceAll] of escapeHtml, on the string [String(value)]. *)
Definition escapeString (s : string) : string :=
  replaceAll "'" "&#39;"
    (replaceAll dquote "&quot;"
       (replaceAll ">" "&gt;"
          (replaceAll "<" "&lt;"
             (replaceAll "&" "&amp;" s)))).

Definition escapeHtml (v : value) : string := escapeString (ToString v).

Definition entities : list string := ["&amp;"; "&lt;"; "&gt;"; "&quot;"; "&#39;"].

Definition spaces (n : nat) : string := string_of_list_ascii (replicate n " "%char).

Section Render.
Context `{Host}.

(** The template literal up to the interpolated name ... *)
Definition cardHead : string :=
  nl +:+ spaces 16 +:+ "<article class=" +:+ quoted "group-card" +:+ ">"
  +:+ nl +:+ spaces 20 +:+ "<p class=" +:+ quoted "group-name" +:+ ">".

(** ... and after it. *)
Definition cardTail (members gid : number) : string :=
  "</p>"
  +:+ nl +:+ spaces 20 +:+ "<p class=" +:+ quoted "group-meta" +:+ ">"
  +:+ numberFormat members +:+ " members</p>"
  +:+ nl +:+ spaces 20 +:+ "<a class=" +:+ quoted "group-link"
  +:+ " href=" +:+ dq +:+ "https://www.roblox.com/communities/"
  +:+ numberToString gid +:+ dq
  +:+ " target=" +:+ quoted "_blank" +:+ " rel=" +:+ quoted "noreferrer"
  +:+ ">Open Group</a>"
  +:+ nl +:+ spaces 16 +:+ "</article>"
  +:+ nl +:+ spaces 12.

Definition renderCard (g : community) : string :=
  cardHead +:+ escapeHtml (name g) +:+ cardTail (memberCount g) (id g).

(** What [groupsGrid.innerHTML] is set to. *)
Definition renderOwnedGroups (groups : list community) : string :=
  match groups with
  | [] => "<p class='empty-groups'>No owned groups were found.</p>"
  | _ => join "" (map renderCard groups)
  end.

End Render.

(** What one character becomes. *)
Definition escapeChar (c : ascii) : string :=
  if Ascii.eqb c "&" then "&amp;"
  else if Ascii.eqb c "<" then "&lt;"
  else if Ascii.eqb c ">" then "&gt;"
  else if Ascii.eqb c dquote then "&quot;"
  else if Ascii.eqb c "'" then "&#39;"
  else String c EmptyString.

(** No character that opens or closes a tag or an attribute value. *)
Definition noMarkupChars (l : list ascii) : Prop :=
  forall c, c ∈ l -> c ∉ ["<"; ">"; dquote; "'"]%char.

(** Every ampersand is the first character of one of the five entities. *)
Definition ampersandsBeginEntities (l : list ascii) : Prop :=
  forall i, l !! i = Some "&"%char ->
    exists e, e ∈ entities /\ list_ascii_of_string e `prefix_of` drop i l.

(** The output of escapeHtml, read from the left: ordinary characters and
    whole entities. *)
Inductive Escaped : list ascii -> Prop :=
| escaped_nil : Escaped []
| escaped_char c rest :
    c ∉ ["&"; "<"; ">"; dquote; "'"]%char -> Escaped rest -> Escaped (c :: rest)
| escaped_entity e rest :
    e ∈ entities -> Escaped rest -> Escaped (list_ascii_of_string e ++ rest)%list.

(** ** A reference host

    An executable instance of [Host] on which the script can be run:
    decimal integer literals for [Number(s)], a JSON codec for the values
    above, grouping by thousands, and a store that takes up to five
    million characters per entry. *)

Module Reference.

Definition code (c : ascii) : nat := nat_of_ascii c.

Definition isDigit (c : ascii) : bool := (48 <=? code c)%nat && (code c <=? 57)%nat.

Definition isSpace (c : ascii) : bool :=
  bool_decide (code c ∈ [32; 9; 10; 13]%nat).

Fixpoint skipSpaces (l : list ascii) : list ascii :=
  match l with
  | c :: rest => if isSpace c then skipSpaces rest else l
  | [] => []
  end.

(** The digits at the head of [l], read onto [acc], and what follows. *)
Fixpoint readDigits (l : list ascii) (acc : Z) : Z * list ascii :=
  match l with
  | c :: rest =>
      if isDigit c then readDigits rest (10 * acc + Z.of_nat (code c - 48))
      else (acc, l)
  | [] => (acc, [])
  end.

Definition startsWithDigit (l : list ascii) : bool :=
  match l with
  | c :: _ => isDigit c
  | [] => false
  end.

(** An optionally signed run of digits. *)
Definition readInteger (l : list ascii) : option (Z * list ascii) :=
  match l with
  | c :: rest =>
      if Ascii.eqb c "-" then
        if startsWithDigit rest
        then let '(n, r) := readDigits rest 0 in Some ((- n)%Z, r)
        else None
      else if Ascii.eqb c "+" then
        if startsWithDigit rest then Some (readDigits rest 0) else None
      else if isDigit c then Some (readDigits l 0)
      else None
  | [] => None
  end.

Definition stringToNumber (s : string) : number :=
  match skipSpaces (list_ascii_of_string s) with
  | [] => Int 0
  | l =>
      match readInteger l with
      | Some (n, rest) =>
          match skipSpaces rest with
          | [] => Int n
          | _ => NaN
          end
      | None => NaN
      end
  end.

Fixpoint stripPrefix (p l : list ascii) : option (list ascii) :=
  match p, l with
  | [], _ => Some l
  | a :: p', b :: l' => if Ascii.eqb a b then stripPrefix p' l' else None
  | _ :: _, [] => None
  end.

Definition keyword (k : string) (l : list ascii) : option (list ascii) :=
  stripPrefix (list_ascii_of_string k) l.

(** The characters of a string literal after its opening quote, and what
    follows the closing one. *)
Fixpoint readString (l : list ascii) : option (list ascii * list ascii) :=
  match l with
  | [] => None
  | c :: rest =>
      if Ascii.eqb c dquote then Some ([], rest)
      else if Ascii.eqb c "\" then
        match rest with
        | e :: rest' =>
            let plain x := option_map (fun '(s, r) => (x :: s, r)) (readString rest') in
            if Ascii.eqb e dquote then plain dquote
            else if Ascii.eqb e "\" then plain "\"%char
            else if Ascii.eqb e "/" then plain "/"%char
            else if Ascii.eqb e "n" then plain (ascii_of_nat 10)
            else if Ascii.eqb e "t" then plain (ascii_of_nat 9)
            else if Ascii.eqb e "r" then plain (ascii_of_nat 13)
            else None
        | [] => None
        end
      else option_map (fun '(s, r) => (c :: s, r)) (readString rest)
  end.

Definition startsWith (c : ascii) (l : list ascii) : option (list ascii) :=
  match l with
  | c' :: rest => if Ascii.eqb c c' then Some rest else None
  | [] => None
  end.

(** A later member with the same key replaces the earlier one. *)
Fixpoint setProp (k : string) (v : value) (props : list (string * value))
    : list (string * value) :=
  match props with
  | [] => [(k, v)]
  | (k', v') :: rest =>
      if String.eqb k' k then (k', v) :: rest else (k', v') :: setProp k v rest
  end.

Fixpoint parseValue (fuel : nat) (l : list ascii) : option (value * list ascii) :=
  match fuel with
  | O => None
  | S fuel' =>
      let l := skipSpaces l in
      match keyword "null" l, keyword "true" l, keyword "false" l with
      | Some r, _, _ => Some (VNull, r)
      | _, Some r, _ => Some (VBool true, r)
      | _, _, Some r => Some (VBool false, r)
      | None, None, None =>
          match startsWith dquote l, startsWith "[" l, startsWith "{" l with
          | Some r, _, _ =>
              option_map (fun '(s, r') => (VStr (string_of_list_ascii s), r'))
                (readString r)
          | _, Some r, _ =>
              match startsWith "]" (skipSpaces r) with
              | Some r' => Some (VArr [], r')
              | None =>
                  option_map (fun '(items, r') => (VArr items, r'))
                    (parseElements fuel' r)
              end
          | _, _, Some r =>
              match startsWith "}" (skipSpaces r) with
              | Some r' => Some (VObj [], r')
              | None =>
                  option_map (fun '(props, r') => (VObj props, r'))
                    (parseMembers fuel' r [])
              end
          | None, None, None =>
              option_map (fun '(n, r) => (VNum (Int n), r)) (readInteger l)
          end
      end
  end
with parseElements (fuel : nat) (l : list ascii) : option (list value * list ascii) :=
  match fuel with
  | O => None
  | S fuel' =>
      match parseValue fuel' l with
      | None => None
      | Some (v, r) =>
          let r := skipSpaces r in
          match startsWith "," r, startsWith "]" r with
          | Some r', _ =>
              option_map (fun '(vs, r'') => (v :: vs, r'')) (parseElements fuel' r')
          | _, Some r' => Some ([v], r')
          | None, None => None
          end
      end
  end
with parseMembers (fuel : nat) (l : list ascii) (props : list (string * value))
    : option (list (string * value) * list ascii) :=
  match fuel with
  | O => None
  | S fuel' =>
      match startsWith dquote (skipSpaces l) with
      | None => None
      | Some r =>
          match readString r with
          | None => None
          | Some (k, r) =>
              match startsWith ":" (skipSpaces r) with
              | None => None
              | Some r =>
                  match parseValue fuel' r with
                  | None => None
                  | Some (v, r) =>
                      let props' := setProp (string_of_list_ascii k) v props in
                      let r := skipSpaces r in
                      match startsWith "," r, startsWith "}" r with
                      | Some r', _ => parseMembers fuel' r' props'
                      | _, Some r' => Some (props', r')
                      | None, None => None
                      end
                  end
              end
          end
      end
  end.

Definition parse (s : string) : option value :=
  let l := list_ascii_of_string s in
  match parseValue (S (length l)) l with
  | Some (v, rest) =>
      match skipSpaces rest with
      | [] => Some v
      | _ => None
      end
  | None => None
  end.

Fixpoint quoteChars (l : list ascii) : list ascii :=
  match l with
  | [] => []
  | c :: rest =>
      if Ascii.eqb c dquote then "\"%char :: dquote :: quoteChars rest
      else if Ascii.eqb c "\" then "\"%char :: "\"%char :: quoteChars rest
      else if Ascii.eqb c (ascii_of_nat 10) then "\"%char :: "n"%char :: quoteChars rest
      else if Ascii.eqb c (ascii_of_nat 9) then "\"%char :: "t"%char :: quoteChars rest
      else if Ascii.eqb c (ascii_of_nat 13) then "\"%char :: "r"%char :: quoteChars rest
      else c :: quoteChars rest
  end.

Definition quoteString (s : string) : string :=
  dq +:+ string_of_list_ascii (quoteChars (list_ascii_of_string s)) +:+ dq.

(** The text of a value; [undefined] has none. *)
Fixpoint printValue (v : value) : option string :=
  match v with
  | VUndefined => None
  | VNull => Some "null"
  | VBool true => Some "true"
  | VBool false => Some "false"
  | VNum NaN => Some "null"
  | VNum (Int z) => Some (pretty z)
  | VStr s => Some (quoteString s)
  | VArr items =>
      Some ("[" +:+ join "," (map (fun x => default "null" (printValue x)) items) +:+ "]")
  | VObj props =>
      Some ("{" +:+ join ","
              (omap (fun '(k, x) =>
                       option_map (fun t => quoteString k +:+ ":" +:+ t) (printValue x))
                 props) +:+ "}")
  end.

(** Digits in groups of three, from the right. *)
Fixpoint groupDigits (l : list ascii) : list ascii :=
  match l with
  | [] => []
  | c :: rest =>
      let tail := groupDigits rest in
      if (0 <? length rest)%nat && (length rest mod 3 =? 0)%nat
      then c :: ","%char :: tail
      else c :: tail
  end.

Definition formatNumber (n : number) : string :=
  match n with
  | NaN => "NaN"
  | Int z =>
      let digits := string_of_list_ascii
                      (groupDigits (list_ascii_of_string (pretty (Z.abs z)))) in
      if (z <? 0)%Z then "-" +:+ digits else digits
  end.

#[local] Instance host : Host := {|
  StringToNumber := stringToNumber;
  JSON_parse := parse;
  JSON_stringify := printValue;
  numberFormat := formatNumber;
  storageAccepts := fun _ text => (N.of_nat (String.length text) <=? 5000000)%N
|}.

(** Text written with ['] where JSON has the double quote. *)
Definition json (s : string) : string := replaceAll "'" dq s.

End Reference.

(** ** Runs of the paginated collector *)

(** [payload.data], as the array the collector appends *)
Definition pageItems (payload : value) : list value :=
  arrayOrEmpty (optProp payload "data").

Definition nextPageCursor (payload : value) : value :=
  optProp payload "nextPageCursor".

Section PagedRuns.
Context `{Host}.
Context {World : Type} (fetch : World -> string -> fetchOutcome * World).

(** [pagesFrom path cursor st payloads st']: asked for the page at
    [cursor] in state [st] and then for the page at each cursor it hands
    out, the server answers with [payloads], one after the other; every
    answer but the last carries a cursor, the last carries none, and the
    exchange leaves the state [st']. *)
Inductive pagesFrom (path : string) : value -> state -> list value -> state -> Prop :=
| pages_last cursor st payload data st' :
    fetchJson fetch "games" (pagePathOf path cursor) st = (Ok payload, st') ->
    getProp payload "data" = Ok data ->
    truthy (nextPageCursor payload) = false ->
    pagesFrom path cursor st [payload] st'
| pages_more cursor st payload data st' payloads st'' :
    fetchJson fetch "games" (pagePathOf path cursor) st = (Ok payload, st') ->
    getProp payload "data" = Ok data ->
    truthy (nextPageCursor payload) = true ->
    pagesFrom path (nextPageCursor payload) st' payloads st'' ->
    pagesFrom path cursor st (payload :: payloads) st''.

End PagedRuns.

(** The path a request for the page after [payload] must have. *)
Definition pathAfter (path : string) (payload : value) : string :=
  path +:+ "&cursor=" +:+ encodeURIComponent (ToString (nextPageCursor payload)).

(** ** Runs of the fetch wrapper *)

Section Attempts.
Context `{Host}.

(** The seconds of a Retry-After header on a failed response, when the
    header reads as a positive number. *)
Definition retryAfterSeconds (o : fetchOutcome) : option Z :=
  match o with
  | Responded status _ (Some header) _ =>
      if responseOk status then None
      else
        match StringToNumber header with
        | Int secs => if (0 <? secs)%Z then Some secs else None
        | NaN => None
        end
  | _ => None
  end.

(** The wait after attempt number [attempt] came to [o] and failed. *)
Definition waitAfter (attempt : Z) (o : fetchOutcome) : number :=
  match retryAfterSeconds o with
  | Some secs => Int (secs * 1000)
  | None => Int (300 * attempt * attempt)
  end.


(** The log of a series of attempts on [url], the first of them numbered
    [attempt]: each call of [fetch], followed by a wait if it failed. *)
Fixpoint attemptsLog (wait : Z -> fetchOutcome -> number) (url : string)
    (attempt : Z) (outcomes : list fetchOutcome) : list event :=
  match outcomes with
  | [] => []
  | o :: rest =>
      Fetched url o
      :: match attemptResult o with
         | Ok _ => []
         | Throw _ => [Delayed (wait attempt o)]
         end
      ++ attemptsLog wait url (attempt + 1) rest
  end.

Definition attemptFailed (o : fetchOutcome) : Prop :=
  exists e, attemptResult o = Throw e.

Context {World : Type} (fetch : World -> string -> fetchOutcome * World).


End Attempts.

(** "the element at index i equals the handler's result for items[i]",
    for every schedule under which the call resolves *)
Definition mapsInOrder {A B : Type} (items : list A) (concurrency : nat)
    (handler : A -> nat -> result B) : Prop :=
  forall schedule rs,
    mapWithConcurrency items concurrency handler schedule = Some (Ok rs) ->
    forall i item, items !! i = Some item ->
      exists v, handler item i = Ok v /\ rs !! i = Some (Some v).

(** "a batch content-stats request for a list of 45 universe ids is
    split into exactly 2 chunks", of the current script *)
Definition splitInTwo (universeIds : list number) : Prop :=
  exists chunk1 chunk2, universeChunks universeIds = Some [chunk1; chunk2].

(** ** Further definitions *)

(** The keys of a map of playing figures: pairwise distinct, none of them
    zero or negative. *)
Definition playingKeys (m : jsmap number) : Prop :=
  NoDup (map_keys m) /\ forall k, k ∈ map_keys m -> num_leb k (Int 0) = false.

Section GameRecords.
Context `{Host}.

(** The record that collectGames builds from an item. *)
Definition gameOf (g : value) : game :=
  {| universeId := numberOr0 (optProp g "id");
     rootPlaceId := numberOr0 (optProp (optProp g "rootPlace") "id");
     placeVisits := numberOr0 (optProp g "placeVisits") |}.

(** The item passes the guard [universeId <= 0]. *)
Definition keepsGame (g : value) : Prop :=
  num_leb (universeId (gameOf g)) (Int 0) = false.

(** The records of the items that pass the guard, in the order of the items. *)
Definition keptRecords (items : list value) : list game :=
  map gameOf (filter keepsGame items).

End GameRecords.

(** A list of groups runs from the most members to the fewest. *)
Definition descendingByMembers (groups : list community) : Prop :=
  forall i j a b, i < j -> groups !! i = Some a -> groups !! j = Some b ->
    num_leb (memberCount b) (memberCount a) = true.


(** The [try] block of one attempt of the earlier fetchJson, from the
    outcome of [fetch] on. *)
Definition earlier_attemptResult (o : fetchOutcome) : result value :=
  match o with
  | Rejected message => Throw (FetchError message)
  | Responded status statusText _ body =>
      if responseOk status then
        match body with
        | Some v => Ok v
        | None => Throw (FetchError "Unexpected token in JSON")
        end
      else Throw (Error (pretty status +:+ " " +:+ statusText))
  end.

Section ScriptMore.
Context `{Host}.
Context {World : Type} (fetch : World -> string -> fetchOutcome * World).

(** [try { return await getGroupGames(groupId) } catch (error) { return [] }];
    the warning on the console is left out. *)
Definition getGroupGamesSafe (fuel : nat) (groupId : number) (st : state)
    : option (result (list value) * state) :=
  match getGroupGames fetch fuel groupId st with
  | Some (Throw _, st') => Some (Ok [], st')
  | other => other
  end.

(** [pagesBefore path cursor st payloads cursor' st']: asked for the page
    at [cursor] in state [st] and then for the page at each cursor it
    hands out, the server answers with [payloads], every one of which
    carries a cursor; the last of these cursors is [cursor'], and the
    exchange leaves the state [st']. *)
Inductive pagesBefore (path : string)
    : value -> state -> list value -> value -> state -> Prop :=
| before_none cursor st :
    pagesBefore path cursor st [] cursor st
| before_more cursor st payload data st' payloads cursor'' st'' :
    fetchJson fetch "games" (pagePathOf path cursor) st = (Ok payload, st') ->
    getProp payload "data" = Ok data ->
    truthy (nextPageCursor payload) = true ->
    pagesBefore path (nextPageCursor payload) st' payloads cursor'' st'' ->
    pagesBefore path cursor st (payload :: payloads) cursor'' st''.

(** The request for the page at [cursor] fails with [e]: fetchJson throws
    it, or the payload is [null] or [undefined] and reading its [data]
    throws it. *)
Definition pageFails (path : string) (cursor : value) (st : state) (e : error)
    (st' : state) : Prop :=
  fetchJson fetch "games" (pagePathOf path cursor) st = (Throw e, st')
  \/ exists payload,
       fetchJson fetch "games" (pagePathOf path cursor) st = (Ok payload, st')
       /\ getProp payload "data" = Throw e.

End ScriptMore.

(** The path getGroupGames asks for. *)
Definition groupGamesPath (groupId : number) : string :=
  "/v2/groups/" +:+ numberToString groupId
    +:+ "/games?accessFilter=Public&limit=50&sortOrder=Asc".

(** The handler called on the items one after the other, each call
    awaited before the next; the first rejection ends the loop. *)
Definition handleInTurn {A B : Type} (handler : A -> nat -> result B) (items : list A)
    : result (list B) :=
  mapResult (fun x => handler x.2 x.1) (zip (seq 0 (length items)) items).

Definition ROLIMONS_CACHE_KEY : string := "mensch_rolimons_gamelist_v1".

(** The characters that escapeHtml rewrites. *)
Definition markupChars : list ascii := ["&"; "<"; ">"; dquote; "'"]%char.

(** *** collectUniverseIds, of the earlier revision *)

(** [set.add(n)] on a [Set] of numbers, in insertion order *)
Definition jsset_add (n : number) (set : list number) : list number :=
  if existsb (sameValueZero n) set then set else set ++ [n].

(** One turn of either loop of collectUniverseIds. *)
Definition collectId (set : list number) (game : value) : result (list number) :=
  let* idv := getProp game "id" in
  match idv with
  | VNum n => Ok (jsset_add n set)
  | _ => Ok set
  end.

Definition collectUniverseIds (userGames groupGames : list value)
    : result (list number) :=
  let* set := foldResult collectId userGames [] in
  foldResult collectId groupGames set.

(** ** Sample data

    Concrete payloads and networks on which the script is run below. *)

Definition sample_game (gid : Z) (place visits : Z) : value :=
  VObj [("id", VNum (Int gid));
        ("rootPlace", VObj [("id", VNum (Int place))]);
        ("placeVisits", VNum (Int visits))].

Definition sample_role (gid : Z) (gname : string) (members rank : Z) : value :=
  VObj [("group", VObj [("id", VNum (Int gid)); ("name", VStr gname);
                        ("memberCount", VNum (Int members))]);
        ("role", VObj [("rank", VNum (Int rank))])].

Definition okResponse (body : value) : fetchOutcome :=
  Responded 200 "OK" None (Some body).

(** A network that serves a fixed table of URLs and rejects the rest. *)
Definition serve (table : list (string * fetchOutcome)) (w : unit) (url : string)
    : fetchOutcome * unit :=
  match list_find (fun entry => entry.1 = url) table with
  | Some (_, (_, o)) => (o, w)
  | None => (Rejected "Failed to fetch", w)
  end.

(** A network that plays a fixed sequence of outcomes, whatever is asked. *)
Definition replay (w : list fetchOutcome) (url : string)
    : fetchOutcome * list fetchOutcome :=
  match w with
  | o :: rest => (o, rest)
  | [] => (Rejected "Failed to fetch", [])
  end.

Definition sample_roles : value :=
  VObj [("data", VArr [sample_role 1 "alpha" 500 255;
                       sample_role 2 "beta" 1500 255;
                       sample_role 3 "gamma" 900 254;
                       sample_role 1 "alpha again" 700 255])].

Definition sample_roles_net :=
  serve [("https://groups.roproxy.com/v2/users/295052682/groups/roles",
          okResponse sample_roles)].

(** The state in which a refresh starts on the world [w]. *)
Definition fresh {World : Type} (w : World) : state (World := World) :=
  {| world := w; trace := [] |}.

Definition sample_owned_run :=
  getOwnedGroups (H := Reference.host) sample_roles_net (Int 295052682) (fresh tt).

Definition sample_owned : list community :=
  [{| id := Int 2; name := VStr "beta"; memberCount := Int 1500 |};
   {| id := Int 1; name := VStr "alpha again"; memberCount := Int 700 |}].

(** ** The statements of the specification that the script departs from

    Each is written down as the specification words it, to be compared
    with what the script does. *)

(** "the secondary provider's per-place figure for the item's root place
    when that figure is available, and otherwise the primary provider's
    per-universe figure for the item's universe id" *)
Definition statedPlayingOf (secondary primary : jsmap number) (g : game) : number :=
  match map_get (rootPlaceId g) secondary with
  | Some figure => figure
  | None => default (Int 0) (map_get (universeId g) primary)
  end.

Definition sumNumbers (l : list number) : number := fold_left num_add l (Int 0).

Section Stated.
Context `{Host}.
Context {World : Type} (fetch : World -> string -> fetchOutcome * World).

(** The playing total of a refresh is the sum of the stated figures,
    [primary] being what the primary provider answers for these games. *)
Definition playingAsStated (ownedGroups : list community) (allGames : list game)
    (rolimonsPlayersByPlace : jsmap number) (st : state) : Prop :=
  forall t st' primary st1,
    refreshTotals fetch ownedGroups allGames rolimonsPlayersByPlace st = Some (Ok t, st') ->
    getUniversePlayingById fetch (map universeId allGames) st = Some (Ok primary, st1) ->
    playing t = sumNumbers (map (statedPlayingOf rolimonsPlayersByPlace primary) allGames).

End Stated.

(** A refresh in which the secondary provider knows place 10 only, while
    the one game has root place 20 and the primary provider reports 7
    players for its universe. *)
Definition sample_playing_net :=
  serve [("https://games.roproxy.com/v1/games?universeIds=1",
          okResponse (VObj [("data", VArr [VObj [("id", VNum (Int 1));
                                                 ("playing", VNum (Int 7))]])]))].

Definition sample_rolimons : jsmap number := [(Int 10, Int 5)].

Definition sample_games : list game :=
  [{| universeId := Int 1; rootPlaceId := Int 20; placeVisits := Int 300 |}].

Definition sample_path : string :=
  "/v2/users/295052682/games?accessFilter=Public&limit=50&sortOrder=Asc".

Definition sample_page1 : value :=
  VObj [("data", VArr [sample_game 1 11 100; sample_game 2 22 200]);
        ("nextPageCursor", VStr "page 2")].

Definition sample_page2 : value :=
  VObj [("data", VArr [sample_game 3 33 300]); ("nextPageCursor", VNull)].

Definition sample_pages_net :=
  serve [("https://games.roproxy.com" +:+ sample_path, okResponse sample_page1);
         ("https://games.roproxy.com" +:+ sample_path +:+ "&cursor=page%202",
          okResponse sample_page2)].

(** A server that answers 429 with [Retry-After: 0] and then 200. *)
Definition sample_throttled : list fetchOutcome :=
  [Responded 429 "Too Many Requests" (Some "0") None;
   okResponse (VObj [("data", VArr [])])].



(** A handler that returns the item plus its index. *)
Definition sample_handler (item index : nat) : result nat := Ok (item + index).

(** The universe ids 1 to 45. *)
Definition sample_ids : list number := map (fun n => Int (Z.of_nat n)) (seq 1 45).

(** A stored snapshot whose timestamp is a date string, not a number of
    milliseconds. *)
Definition sample_stale_text : string :=
  Reference.json
    ("{'totals':{'visits':1,'groupMembers':2,'playing':3},"
     +:+ "'ownedGroups':[],'universeCount':1,"
     +:+ "'updatedAtMs':'2024-05-01T10:00:00Z'}").

Definition sample_stale : value :=
  VObj [("totals", VObj [("visits", VNum (Int 1)); ("groupMembers", VNum (Int 2));
                         ("playing", VNum (Int 3))]);
        ("ownedGroups", VArr []);
        ("universeCount", VNum (Int 1));
        ("updatedAtMs", VStr "2024-05-01T10:00:00Z")].

(** A snapshot as loadPortfolioStats writes it. *)
Definition sample_snapshot : value :=
  VObj [("totals", VObj [("visits", VNum (Int 1200)); ("groupMembers", VNum (Int 2000));
                         ("playing", VNum (Int 35))]);
        ("ownedGroups",
         VArr [VObj [("id", VNum (Int 2)); ("name", VStr "beta");
                     ("memberCount", VNum (Int 1500))]]);
        ("universeCount", VNum (Int 3));
        ("updatedAtMs", VNum (Int 1790000000000))].



(** A server whose every page hands out a cursor. *)
Definition sample_endless_net (w : unit) (url : string) : fetchOutcome * unit :=
  (okResponse (VObj [("data", VArr [sample_game 1 11 100]);
                     ("nextPageCursor", VStr "next")]), w).

(** A server that serves the first page of [sample_pages_net] and then
    nothing. *)
Definition sample_broken_net :=
  serve [("https://games.roproxy.com/v2/groups/7/games?accessFilter=Public&limit=50&sortOrder=Asc",
          okResponse sample_page1)].

(** Three dropped connections and then an answer. *)
Definition sample_failover : list fetchOutcome :=
  [Rejected "Failed to fetch"; Rejected "Failed to fetch"; Rejected "Failed to fetch";
   okResponse (VObj [("data", VArr [])])].

(** A handler that rejects the item 20. *)
Definition sample_rejecting (item index : nat) : result nat :=
  if (item =? 20)%nat then Throw (Error "no such item") else Ok (item + index).

(** * Properties *)

(** ** Numbers and maps *)

Lemma sameValueZero_refl a : sameValueZero a a = true.
Proof. destruct a as [|z]; simpl; [reflexivity | apply Z.eqb_refl]. Qed.

Lemma sameValueZero_eq a b : sameValueZero a b = true <-> a = b.
Proof.
  destruct a as [|x], b as [|y]; simpl; split; intros E;
    try reflexivity; try discriminate.
  - apply Z.eqb_eq in E. now subst.
  - injection E as ->. apply Z.eqb_refl.
Qed.

Lemma sameValueZero_neq a b : sameValueZero a b = false <-> a <> b.
Proof.
  split.
  - intros E ->. rewrite sameValueZero_refl in E. discriminate.
  - intros Hne. destruct (sameValueZero a b) eqn:E; [|reflexivity].
    apply sameValueZero_eq in E. contradiction.
Qed.

Section JsMapFacts.
Context {V : Type}.
Implicit Types (m : jsmap V) (k : number) (v : V).

Lemma map_get_set_eq m k v : map_get k (map_set k v m) = Some v.
Proof.
  induction m as [|[k' v'] m IH]; simpl.
  - now rewrite sameValueZero_refl.
  - destruct (sameValueZero k' k) eqn:E; simpl; rewrite E; [reflexivity | exact IH].
Qed.

Lemma map_get_set_ne m k k' v : k <> k' -> map_get k' (map_set k v m) = map_get k' m.
Proof.
  intros Hne. induction m as [|[k0 v0] m IH]; simpl.
  - apply sameValueZero_neq in Hne. now rewrite Hne.
  - destruct (sameValueZero k0 k) eqn:E; simpl.
    + apply sameValueZero_eq in E. subst k0.
      apply sameValueZero_neq in Hne. now rewrite Hne.
    + now rewrite IH.
Qed.

Lemma map_keys_set_in m k v : k ∈ map_keys m -> map_keys (map_set k v m) = map_keys m.
Proof.
  induction m as [|[k0 v0] m IH]; simpl; intros Hin.
  - now apply elem_of_nil in Hin.
  - destruct (sameValueZero k0 k) eqn:E; simpl; [reflexivity |].
    f_equal. apply IH. apply elem_of_cons in Hin as [->|Hin]; [|exact Hin].
    now rewrite sameValueZero_refl in E.
Qed.

Lemma map_keys_set_notin m k v :
  k ∉ map_keys m -> map_keys (map_set k v m) = map_keys m ++ [k].
Proof.
  induction m as [|[k0 v0] m IH]; simpl; intros Hin; [reflexivity |].
  apply not_elem_of_cons in Hin as [Hne Hin].
  destruct (sameValueZero k0 k) eqn:E; simpl.
  - apply sameValueZero_eq in E. congruence.
  - f_equal. now apply IH.
Qed.

Lemma map_set_NoDup m k v : NoDup (map_keys m) -> NoDup (map_keys (map_set k v m)).
Proof.
  intros Hnd. destruct (decide (k ∈ map_keys m)) as [Hin|Hin].
  - now rewrite map_keys_set_in.
  - rewrite map_keys_set_notin by exact Hin.
    apply NoDup_app. repeat split; [exact Hnd | | apply NoDup_singleton].
    intros x Hx Hx'. apply list_elem_of_singleton in Hx'. now subst.
Qed.

Lemma map_get_None m k : map_get k m = None <-> k ∉ map_keys m.
Proof.
  induction m as [|[k0 v0] m IH]; simpl.
  - split; [intros _; apply not_elem_of_nil | reflexivity].
  - destruct (sameValueZero k0 k) eqn:E.
    + apply sameValueZero_eq in E. subst. split; [discriminate |].
      intros Hn. exfalso. apply Hn. left.
    + apply sameValueZero_neq in E. rewrite IH, not_elem_of_cons.
      split; [intros Hn; split; [congruence | exact Hn] | intros [_ Hn]; exact Hn].
Qed.

Lemma map_get_elem m k v : NoDup (map_keys m) -> (k, v) ∈ m <-> map_get k m = Some v.
Proof.
  induction m as [|[k0 v0] m IH]; simpl; intros Hnd.
  - split; [intros Hin; now apply elem_of_nil in Hin | discriminate].
  - apply NoDup_cons in Hnd as [Hk0 Hnd]. rewrite elem_of_cons, (IH Hnd).
    destruct (sameValueZero k0 k) eqn:E.
    + apply sameValueZero_eq in E. subst k0. split.
      * intros [[= ->]|Hget]; [reflexivity |].
        exfalso. apply Hk0. destruct (decide (k ∈ map_keys m)) as [?|Hn]; [assumption |].
        apply map_get_None in Hn. congruence.
      * intros [= ->]. now left.
    + apply sameValueZero_neq in E. split; [|now right].
      intros [[= -> ->]|Hget]; [congruence | exact Hget].
Qed.

Lemma map_values_elem m v : v ∈ map_values m <-> exists k, (k, v) ∈ m.
Proof.
  unfold map_values. rewrite list_elem_of_fmap. split.
  - intros [[k v'] [-> Hin]]. now exists k.
  - intros [k Hin]. now exists (k, v).
Qed.

End JsMapFacts.

(** ** Fallible maps and folds *)

Lemma mapResult_Ok {A B} (f : A -> result B) items ys :
  mapResult f items = Ok ys <-> Forall2 (fun x y => f x = Ok y) items ys.
Proof.
  revert ys. induction items as [|x items IH]; intros ys; simpl.
  - split; [intros [= <-]; constructor | intros E; now inversion E].
  - destruct (f x) as [y|e] eqn:Ex; simpl.
    + destruct (mapResult f items) as [ys'|e] eqn:Er; simpl.
      * split.
        -- intros [= <-]. constructor; [exact Ex | now apply IH].
        -- intros E. inversion E as [|? y' ? ys'' Hy Hys]; subst.
           apply IH in Hys. congruence.
      * split; [discriminate |]. intros E. inversion E as [|? y' ? ys'' Hy Hys]; subst.
        apply IH in Hys. discriminate.
    + split; [discriminate |]. intros E. inversion E; subst. congruence.
Qed.

(** ** collectGames *)

Section CollectFacts.
Context `{Host}.

Lemma collectGame_positive m g z :
  getProp g "id" = Ok (VNum (Int z)) -> (0 < z)%Z ->
  collectGame m g =
    Ok (map_set (Int z)
          {| universeId := Int z;
             rootPlaceId := numberOr0 (optProp (optProp g "rootPlace") "id");
             placeVisits := numberOr0 (optProp g "placeVisits") |} m).
Proof.
  intros Hid Hz. unfold collectGame. rewrite Hid. simpl.
  destruct (z <=? 0)%Z eqn:E; [apply Z.leb_le in E; lia | reflexivity].
Qed.

(** C8: when items with the universe ids 1, 2, 2, 3 reach collectGames,
    however they are split between the account's games and the
    communities' games, the list it returns has exactly three entries, for
    the ids 1, 2 and 3 in this order, and the entry for id 2 is the record
    built from the later of the two items. *)
Theorem collectGames_merges_1223 (g1 g2 g2' g3 : value)
    (userGames groupGames : list value) :
  userGames ++ groupGames = [g1; g2; g2'; g3] ->
  getProp g1 "id" = Ok (VNum (Int 1)) ->
  getProp g2 "id" = Ok (VNum (Int 2)) ->
  getProp g2' "id" = Ok (VNum (Int 2)) ->
  getProp g3 "id" = Ok (VNum (Int 3)) ->
  exists r1 r2 r3,
    collectGames userGames groupGames = Ok [r1; r2; r3]
    /\ length [r1; r2; r3] = 3
    /\ universeId r1 = Int 1
    /\ r2 = {| universeId := Int 2;
               rootPlaceId := numberOr0 (optProp (optProp g2' "rootPlace") "id");
               placeVisits := numberOr0 (optProp g2' "placeVisits") |}
    /\ universeId r3 = Int 3.
Proof.
  intros Hsplit H1 H2 H2' H3. unfold collectGames. rewrite Hsplit. simpl.
  rewrite (collectGame_positive _ _ 1 H1) by lia. simpl.
  rewrite (collectGame_positive _ _ 2 H2) by lia. simpl.
  rewrite (collectGame_positive _ _ 2 H2') by lia. simpl.
  rewrite (collectGame_positive _ _ 3 H3) by lia. simpl.
  eexists _, _, _. repeat split; reflexivity.
Qed.

End CollectFacts.

Lemma collectGames_merges_1223_witness :
  exists r1 r2 r3,
    collectGames (H := Reference.host)
      [sample_game 1 11 100; sample_game 2 22 200]
      [sample_game 2 23 250; sample_game 3 33 300] = Ok [r1; r2; r3]
    /\ length [r1; r2; r3] = 3
    /\ universeId r1 = Int 1
    /\ r2 = {| universeId := Int 2; rootPlaceId := Int 23; placeVisits := Int 250 |}
    /\ universeId r3 = Int 3.
Proof.
  exact (collectGames_merges_1223 (H := Reference.host)
           (sample_game 1 11 100) (sample_game 2 22 200)
           (sample_game 2 23 250) (sample_game 3 33 300)
           [sample_game 1 11 100; sample_game 2 22 200]
           [sample_game 2 23 250; sample_game 3 33 300]
           eq_refl eq_refl eq_refl eq_refl eq_refl).
Defined.

(** ** getOwnedGroups *)

Lemma insertSorted_Permutation {A} (after : A -> A -> bool) x l :
  insertSorted after x l ≡ₚ x :: l.
Proof.
  induction l as [|y l IH]; simpl; [reflexivity |].
  destruct (after x y); [|reflexivity].
  rewrite IH. apply Permutation_swap.
Qed.

Lemma sortWith_Permutation {A} (after : A -> A -> bool) l : sortWith after l ≡ₚ l.
Proof.
  induction l as [|x l IH]; simpl; [reflexivity |].
  rewrite insertSorted_Permutation. now rewrite IH.
Qed.

Lemma filter_split {A} (P : A -> Prop) `{!forall x, Decision (P x)} l l1 x l2 :
  filter P l = l1 ++ x :: l2 ->
  exists k1 k2, l = k1 ++ x :: k2 /\ filter P k1 = l1 /\ filter P k2 = l2 /\ P x.
Proof.
  revert l1. induction l as [|y l IH]; intros l1 E.
  - destruct l1; discriminate.
  - rewrite filter_cons in E. destruct (decide (P y)) as [Py|Py].
    + destruct l1 as [|z l1]; simpl in E.
      * injection E as -> E. exists [], l. rewrite filter_nil. auto.
      * injection E as -> E. destruct (IH _ E) as (k1 & k2 & -> & E1 & E2 & Px).
        exists (z :: k1), k2. rewrite filter_cons, decide_True by exact Py.
        rewrite E1. auto.
    + destruct (IH _ E) as (k1 & k2 & -> & E1 & E2 & Px).
      exists (y :: k1), k2. rewrite filter_cons, decide_False by exact Py. auto.
Qed.

Section DedupeFacts.

Lemma elem_of_map_set {V} (m : jsmap V) k v k' v' :
  (k', v') ∈ map_set k v m -> (k', v') ∈ m \/ (k' = k /\ v' = v).
Proof.
  induction m as [|[k0 v0] m IH]; simpl.
  - intros Hin. apply list_elem_of_singleton in Hin as [= -> ->]. now right.
  - destruct (sameValueZero k0 k) eqn:E.
    + apply sameValueZero_eq in E. subst k0.
      intros [[= -> ->]|Hin]%elem_of_cons; [now right | left; now right].
    + intros [[= -> ->]|Hin]%elem_of_cons; [left; left |].
      destruct (IH Hin) as [?|?]; [left; now right | now right].
Qed.

Lemma dedupe_invariant owned m :
  NoDup (map_keys m) -> keyedById m ->
  NoDup (map_keys (fold_left dedupeStep owned m))
  /\ keyedById (fold_left dedupeStep owned m).
Proof.
  revert m. induction owned as [|g owned IH]; intros m Hnd Hk; simpl; [auto |].
  apply IH.
  - now apply map_set_NoDup.
  - intros k g' [Hin|[-> ->]]%elem_of_map_set; [now apply Hk | reflexivity].
Qed.

Lemma dedupe_get_last pre g post m :
  (forall g', g' ∈ post -> id g' <> id g) ->
  map_get (id g) (fold_left dedupeStep (pre ++ g :: post) m) = Some g.
Proof.
  intros Hpost. rewrite fold_left_app. simpl.
  generalize (fold_left dedupeStep pre m). intros m1.
  assert (Hget : map_get (id g) (dedupeStep m1 g) = Some g) by apply map_get_set_eq.
  revert Hget. generalize (dedupeStep m1 g). clear m1.
  induction post as [|x post IH]; intros m1 Hget; simpl; [exact Hget |].
  apply IH.
  - intros g' Hin. apply Hpost. now right.
  - unfold dedupeStep. rewrite map_get_set_ne; [exact Hget |].
    apply Hpost. left.
Qed.

Lemma dedupe_get_inv owned m k g :
  map_get k (fold_left dedupeStep owned m) = Some g ->
  (exists pre post, owned = pre ++ g :: post /\ id g = k
                    /\ forall g', g' ∈ post -> id g' <> k)
  \/ (map_get k m = Some g /\ forall g', g' ∈ owned -> id g' <> k).
Proof.
  induction owned as [|x owned IH] using rev_ind; simpl.
  - intros Hget. right. split; [exact Hget |]. intros g' Hin. now apply elem_of_nil in Hin.
  - rewrite fold_left_app. simpl. unfold dedupeStep at 1.
    destruct (decide (id x = k)) as [<-|Hne].
    + rewrite map_get_set_eq. intros [= ->]. left. exists owned, [].
      repeat split. intros g' Hin. now apply elem_of_nil in Hin.
    + rewrite map_get_set_ne by exact Hne. intros Hget.
      destruct (IH Hget) as [(pre & post & -> & Hid & Hpost)|[Hm Hall]].
      * left. exists pre, (post ++ [x]). rewrite <- app_assoc. repeat split; [exact Hid |].
        intros g' [Hin|Hin]%elem_of_app; [now apply Hpost |].
        apply list_elem_of_singleton in Hin. now subst.
      * right. split; [exact Hm |].
        intros g' [Hin|Hin]%elem_of_app; [now apply Hall |].
        apply list_elem_of_singleton in Hin. now subst.
Qed.

Lemma dedupeById_fold owned : dedupeById owned = fold_left dedupeStep owned [].
Proof. reflexivity. Qed.

Lemma dedupeById_NoDup owned : NoDup (map id (map_values (dedupeById owned))).
Proof.
  rewrite dedupeById_fold.
  destruct (dedupe_invariant owned []) as [Hnd Hk].
  - apply NoDup_nil_2.
  - intros k g Hin. now apply elem_of_nil in Hin.
  - revert Hnd Hk. generalize (fold_left dedupeStep owned []). intros m Hnd Hk.
    assert (E : map id (map_values m) = map_keys m); [|now rewrite E].
    unfold map_values, map_keys. rewrite map_map.
    apply map_ext_in. intros [k g] Hin. simpl. symmetry. apply Hk.
    now apply list_elem_of_In.
Qed.

Lemma dedupeById_elem owned g :
  g ∈ map_values (dedupeById owned) <->
  exists pre post, owned = pre ++ g :: post /\ forall g', g' ∈ post -> id g' <> id g.
Proof.
  rewrite dedupeById_fold.
  destruct (dedupe_invariant owned []) as [Hnd Hk].
  { apply NoDup_nil_2. }
  { intros k g' Hin. now apply elem_of_nil in Hin. }
  split.
  - intros [k Hin]%map_values_elem. pose proof (Hk _ _ Hin) as ->.
    apply (map_get_elem _ _ _ Hnd) in Hin.
    destruct (dedupe_get_inv _ _ _ _ Hin) as [(pre & post & -> & _ & Hpost)|[Hm _]];
      [eauto | discriminate].
  - intros (pre & post & -> & Hpost). apply map_values_elem. exists (id g).
    apply (map_get_elem _ _ _ Hnd). now apply dedupe_get_last.
Qed.

End DedupeFacts.

Section OwnedGroupsFacts.
Context `{Host}.

Lemma isOwnedGroup_iff entry :
  isOwnedGroup entry = true <->
  exists z, optProp (optProp entry "role") "rank" = VNum (Int z) /\ (255 <= z)%Z.
Proof.
  unfold isOwnedGroup.
  destruct (optProp (optProp entry "role") "rank") as [| | |[|z]| | |]; simpl;
    try (split; [discriminate | intros (z' & E & _); discriminate]).
  rewrite Z.leb_le. split.
  - intros Hz. now exists z.
  - intros (z' & [= <-] & Hz). exact Hz.
Qed.

Lemma ownedGroupsOfPayload_elem payload data groups :
  getProp payload "data" = Ok data ->
  ownedGroupsOfPayload payload = Ok groups ->
  NoDup (map id groups)
  /\ forall g, g ∈ groups <->
       exists before entry after,
         arrayOrEmpty data = before ++ entry :: after
         /\ isOwnedGroup entry = true
         /\ toCommunity entry = Ok g
         /\ forall e' g', e' ∈ after -> isOwnedGroup e' = true ->
              toCommunity e' = Ok g' -> id g' <> id g.
Proof.
  intros Hdata. unfold ownedGroupsOfPayload. rewrite Hdata. simpl.
  set (roles := arrayOrEmpty data).
  destruct (mapResult toCommunity (filter (fun e => isOwnedGroup e = true) roles))
    as [owned|e] eqn:Emap; simpl; [|discriminate].
  intros [= <-]. apply mapResult_Ok in Emap.
  pose proof (sortWith_Permutation fewerMembers (map_values (dedupeById owned))) as Hperm.
  split.
  - rewrite Hperm. apply dedupeById_NoDup.
  - intros g. rewrite Hperm, dedupeById_elem. split.
    + intros (pre & post & -> & Hpost).
      apply Forall2_app_inv_r in Emap as (fpre & frest & Hpre & Hrest & Efilter).
      apply Forall2_cons_inv_r in Hrest as (entry & fpost & Hentry & Hfpost & ->).
      apply filter_split in Efilter as (before & after & Eroles & _ & Eafter & Howned).
      exists before, entry, after. repeat split; try assumption.
      intros e' g' Hin Ho Hc. apply Hpost.
      assert (Hin' : e' ∈ fpost).
      { rewrite <- Eafter. apply list_elem_of_filter. auto. }
      apply list_elem_of_lookup in Hin' as [i Hi].
      destruct (Forall2_lookup_l _ _ _ _ _ Hfpost Hi) as (g'' & Hg'' & Hc'').
      rewrite Hc in Hc''. injection Hc'' as <-.
      apply list_elem_of_lookup. eauto.
    + intros (before & entry & after & Eroles & Howned & Hc & Hafter).
      rewrite Eroles, filter_app, filter_cons, decide_True in Emap by exact Howned.
      apply Forall2_app_inv_l in Emap as (pre & rest & Hpre & Hrest & ->).
      apply Forall2_cons_inv_l in Hrest as (g0 & post & Hg0 & Hpost & ->).
      rewrite Hc in Hg0. injection Hg0 as <-.
      exists pre, post. split; [reflexivity |].
      intros g' Hin. apply list_elem_of_lookup in Hin as [i Hi].
      destruct (Forall2_lookup_r _ _ _ _ _ Hpost Hi) as (e' & He' & Hc').
      assert (Hin : e' ∈ filter (fun e => isOwnedGroup e = true) after).
      { apply list_elem_of_lookup. eauto. }
      apply list_elem_of_filter in Hin as [Ho Hin]. eauto.
Qed.

Context {World : Type} (fetch : World -> string -> fetchOutcome * World).

(** C5: getOwnedGroups counts an entry of the role list as owned exactly
    when its role rank is a number that is at least 255; the list it
    returns holds at most one record per group id; and its records are
    exactly those built from an owned entry that no later owned entry
    with the same group id follows (the last record for an id wins). *)
Theorem getOwnedGroups_owned_last_wins (userId : number) (st st' : state)
    (groups : list community) :
  getOwnedGroups fetch userId st = (Ok groups, st') ->
  exists payload data,
    fetchJson fetch "groups"
      ("/v2/users/" +:+ numberToString userId +:+ "/groups/roles") st = (Ok payload, st')
    /\ getProp payload "data" = Ok data
    /\ (forall entry, isOwnedGroup entry = true <->
          exists z, optProp (optProp entry "role") "rank" = VNum (Int z) /\ (255 <= z)%Z)
    /\ NoDup (map id groups)
    /\ forall g, g ∈ groups <->
         exists before entry after,
           arrayOrEmpty data = before ++ entry :: after
           /\ isOwnedGroup entry = true
           /\ toCommunity entry = Ok g
           /\ forall e' g', e' ∈ after -> isOwnedGroup e' = true ->
                toCommunity e' = Ok g' -> id g' <> id g.
Proof.
  unfold getOwnedGroups, mbindM, lift.
  destruct (fetchJson fetch "groups" _ st) as [[payload|e] st1] eqn:Efetch;
    [|discriminate].
  intros [= Hgroups <-].
  assert (Hdata : exists data, getProp payload "data" = Ok data).
  { unfold ownedGroupsOfPayload in Hgroups.
    destruct (getProp payload "data") as [data|e]; [eauto | discriminate]. }
  destruct Hdata as [data Hdata].
  exists payload, data. split; [reflexivity |]. split; [exact Hdata |].
  split; [exact isOwnedGroup_iff |].
  exact (ownedGroupsOfPayload_elem _ _ _ Hdata Hgroups).
Qed.

End OwnedGroupsFacts.

Lemma getOwnedGroups_owned_last_wins_witness :
  sample_owned_run.1 = Ok sample_owned /\ NoDup (map id sample_owned).
Proof.
  split; [vm_compute; reflexivity |].
  destruct (getOwnedGroups_owned_last_wins (H := Reference.host) sample_roles_net
              (Int 295052682) (fresh tt) (sample_owned_run.2) sample_owned)
    as (payload & data & _ & _ & _ & Hnd & _).
  - vm_compute. reflexivity.
  - exact Hnd.
Defined.

(** ** buildTotals and the playing figures of a refresh *)

Lemma buildTotals_playing ownedGroups allGames rolimons universe :
  playing (buildTotals ownedGroups allGames rolimons universe)
  = sumNumbers (map (playingOf rolimons universe) allGames).
Proof.
  unfold buildTotals, sumNumbers.
  assert (Hfold : forall games v p,
             (fold_left
                (fun '(visits, playing) g =>
                   (num_add visits (placeVisits g),
                    num_add playing (playingOf rolimons universe g)))
                games (v, p)).2
             = fold_left num_add (map (playingOf rolimons universe) games) p).
  { induction games as [|g games IH]; intros v p; simpl; [reflexivity | apply IH]. }
  specialize (Hfold allGames (Int 0) (Int 0)).
  destruct (fold_left _ allGames (Int 0, Int 0)) as [v p]. exact Hfold.
Qed.

Lemma playingOf_cases rolimons universe g :
  playingOf rolimons universe g =
    match (if num_gtb (rootPlaceId g) (Int 0)
           then map_get (rootPlaceId g) rolimons else None) with
    | Some figure => figure
    | None => default (Int 0) (map_get (universeId g) universe)
    end.
Proof.
  unfold playingOf.
  destruct (if num_gtb (rootPlaceId g) (Int 0) then _ else _); [reflexivity |].
  now destruct (map_get (universeId g) universe).
Qed.

Section RefreshFacts.
Context `{Host}.
Context {World : Type} (fetch : World -> string -> fetchOutcome * World).

(** C4, as the script has it: the playing total of a refresh is the sum
    over the merged games of one figure each.  That figure is the
    secondary provider's figure for the root place of the game when the
    root place id is positive and the provider has one.  Otherwise it is
    the primary provider's figure for the universe of the game (0 when it
    has none) if the secondary provider returned no figures at all, and 0
    if it returned any: the primary provider is asked only when the
    secondary one came back empty. *)
Theorem refreshTotals_playing (ownedGroups : list community) (allGames : list game)
    (rolimons : jsmap number) (st st' : state) (t : totals) :
  refreshTotals fetch ownedGroups allGames rolimons st = Some (Ok t, st') ->
  exists universePlayingById,
    (if (map_size rolimons =? 0)%nat
     then getUniversePlayingById fetch (map universeId allGames) st
          = Some (Ok universePlayingById, st')
     else universePlayingById = [] /\ st' = st)
    /\ playing t = sumNumbers (map (playingOf rolimons universePlayingById) allGames)
    /\ forall g, g ∈ allGames ->
         playingOf rolimons universePlayingById g =
           match (if num_gtb (rootPlaceId g) (Int 0)
                  then map_get (rootPlaceId g) rolimons else None) with
           | Some figure => figure
           | None =>
               if (map_size rolimons =? 0)%nat
               then default (Int 0) (map_get (universeId g) universePlayingById)
               else Int 0
           end.
Proof.
  unfold refreshTotals. intros Hrun.
  destruct (map_size rolimons =? 0)%nat eqn:Esize.
  - destruct (getUniversePlayingById fetch (map universeId allGames) st)
      as [[[universe|e] st1]|] eqn:Eprimary; try discriminate.
    injection Hrun as <- <-. exists universe.
    split; [reflexivity |]. split; [apply buildTotals_playing |].
    intros g _. apply playingOf_cases.
  - injection Hrun as <- <-. exists [].
    split; [auto |]. split; [apply buildTotals_playing |].
    intros g _. rewrite playingOf_cases. reflexivity.
Qed.

End RefreshFacts.

Lemma refreshTotals_playing_witness :
  exists universePlayingById,
    (universePlayingById = [] /\ fresh tt = fresh tt)
    /\ Int 0 = sumNumbers (map (playingOf sample_rolimons universePlayingById) sample_games)
    /\ forall g, g ∈ sample_games ->
         playingOf sample_rolimons universePlayingById g =
           match (if num_gtb (rootPlaceId g) (Int 0)
                  then map_get (rootPlaceId g) sample_rolimons else None) with
           | Some figure => figure
           | None => Int 0
           end.
Proof.
  exact (refreshTotals_playing (H := Reference.host) sample_playing_net []
           sample_games sample_rolimons (fresh tt) (fresh tt)
           {| visits := Int 300; groupMembers := Int 0; playing := Int 0 |} eq_refl).
Defined.

(** The statement of C4 fails on the sample refresh: the secondary
    provider has no figure for place 20 and the primary provider reports
    7 players for universe 1, yet the game adds 0, because the primary
    provider is not asked when the secondary one returned figures. *)
Lemma refreshTotals_playing_not_as_stated :
  ~ playingAsStated (H := Reference.host) sample_playing_net [] sample_games
      sample_rolimons (fresh tt).
Proof.
  intros Hstated.
  specialize (Hstated {| visits := Int 300; groupMembers := Int 0; playing := Int 0 |}
                (fresh tt) [(Int 1, Int 7)]).
  vm_compute in Hstated.
  specialize (Hstated _ eq_refl eq_refl). discriminate.
Qed.

(** ** What the fetch layers add to the log *)

(** Push [requestsOf] through the events appended to a trace. *)
Ltac requests_of_trace :=
  unfold requestsOf; rewrite ?omap_app; simpl; rewrite ?app_nil_r.

Section TraceFacts.
Context `{Host}.
Context {World : Type} (fetch : World -> string -> fetchOutcome * World).

Lemma attemptFetch_run url st :
  attemptFetch fetch url st =
    (attemptResult (fetch (world st) url).1,
     {| world := (fetch (world st) url).2;
        trace := trace st ++ [Fetched url (fetch (world st) url).1] |}).
Proof.
  unfold attemptFetch, mbindM, callFetch, lift.
  destruct (fetch (world st) url) as [o w]. reflexivity.
Qed.

Lemma fetchAttempts_requests remaining attempt lastError url st r st' :
  fetchAttempts fetch remaining attempt lastError url st = (r, st') ->
  requestsOf (trace st') = requestsOf (trace st).
Proof.
  revert attempt lastError st.
  induction remaining as [|remaining IH]; intros attempt lastError st; simpl.
  - unfold throw. now intros [= _ <-].
  - unfold tryCatch. rewrite attemptFetch_run.
    destruct (attemptResult _) as [v|e].
    + intros [= _ <-]. simpl. now requests_of_trace.
    + unfold mbindM, delay, log. simpl. intros Hrest. apply IH in Hrest.
      rewrite Hrest. simpl. now requests_of_trace.
Qed.

Lemma tryHosts_requests hosts service path lastError st r st' :
  tryHosts fetch hosts service path lastError st = (r, st') ->
  requestsOf (trace st') = requestsOf (trace st).
Proof.
  revert lastError st. induction hosts as [|host hosts IH]; intros lastError st; simpl.
  - unfold throw. now intros [= _ <-].
  - unfold tryCatch, fetchAbsoluteJson.
    destruct (fetchAttempts fetch 3 1 None (host +:+ path) st) as [[v|e] st1] eqn:E;
      apply fetchAttempts_requests in E.
    + now intros [= _ <-].
    + intros Hrest. apply IH in Hrest. congruence.
Qed.

(** fetchJson logs its own call, once, and nothing else like it. *)
Lemma fetchJson_requests service path st r st' :
  fetchJson fetch service path st = (r, st') ->
  requestsOf (trace st') = requestsOf (trace st) ++ [path].
Proof.
  unfold fetchJson, mbindM, log. simpl.
  assert (E0 : requestsOf (trace st ++ [Request service path])
               = requestsOf (trace st) ++ [path]).
  { unfold requestsOf. now rewrite omap_app. }
  destruct (API_HOSTS service) as [hosts|].
  - intros Hrun. apply tryHosts_requests in Hrun. simpl in Hrun. congruence.
  - unfold throw. intros [= _ <-]. exact E0.
Qed.

End TraceFacts.

(** ** getPagedGames *)

Lemma getProp_optProp v k x : getProp v k = Ok x -> optProp v k = x.
Proof. destruct v; simpl; intros E; try discriminate; now injection E. Qed.

Lemma hex_byte c :
  ascii_of_nat (hexValue (hexDigit (nat_of_ascii c / 16)) * 16
                + hexValue (hexDigit (nat_of_ascii c mod 16))) = c.
Proof.
  destruct c as [[|] [|] [|] [|] [|] [|] [|] [|]]; vm_compute; reflexivity.
Qed.

(** The cursor can be read back from the request that carries it. *)
Lemma decode_encodeURIComponent s : decodeURIComponent (encodeURIComponent s) = s.
Proof.
  induction s as [|c s IH]; [reflexivity |].
  cbn [encodeURIComponent]. destruct (isUnreserved c) eqn:Ec.
  - cbn [decodeURIComponent]. destruct (Ascii.eqb c "%") eqn:E.
    + apply Ascii.eqb_eq in E. subst c. discriminate Ec.
    + now rewrite IH.
  - cbn [decodeURIComponent]. change (Ascii.eqb "%" "%") with true. cbv iota.
    now rewrite hex_byte, IH.
Qed.

Section PagedFacts.
Context `{Host}.
Context {World : Type} (fetch : World -> string -> fetchOutcome * World).

Lemma pagesFrom_nonempty path cursor st payloads st' :
  pagesFrom fetch path cursor st payloads st' -> payloads <> [].
Proof. intros Hrun. destruct Hrun; discriminate. Qed.

Lemma pagedLoop_collects path cursor st payloads st' :
  pagesFrom fetch path cursor st payloads st' ->
  forall games fuel, length payloads <= fuel ->
    pagedLoop fetch fuel path cursor games st
    = Some (Ok (games ++ concat (map pageItems payloads)), st').
Proof.
  induction 1 as [cursor st payload data st' Hfetch Hdata Hstop
                 |cursor st payload data st' payloads st'' Hfetch Hdata Hgo Hrest IH];
    intros games fuel Hfuel; (destruct fuel as [|fuel]; [simpl in Hfuel; lia |]);
    simpl; rewrite Hfetch, Hdata; fold (nextPageCursor payload);
    unfold pageItems at 1; rewrite (getProp_optProp _ _ _ Hdata).
  - rewrite Hstop, app_nil_r. reflexivity.
  - rewrite Hgo, IH by (simpl in Hfuel; lia). now rewrite <- app_assoc.
Qed.

Lemma pagesFrom_requests path cursor st payloads st' :
  pagesFrom fetch path cursor st payloads st' ->
  requestsOf (trace st')
  = requestsOf (trace st)
    ++ pagePathOf path cursor :: map (pathAfter path) (removelast payloads).
Proof.
  induction 1 as [cursor st payload data st' Hfetch Hdata Hstop
                 |cursor st payload data st' payloads st'' Hfetch Hdata Hgo Hrest IH].
  - simpl. now apply fetchJson_requests in Hfetch.
  - apply fetchJson_requests in Hfetch. rewrite IH, Hfetch, <- app_assoc. simpl.
    pose proof (pagesFrom_nonempty _ _ _ _ _ Hrest) as Hne.
    destruct payloads as [|p payloads]; [contradiction |].
    unfold pagePathOf at 2. rewrite Hgo. reflexivity.
Qed.

(** C1: take a run in which the server answers the collector's requests
    with [payloads], the last of them (and none before it) without a
    next-page cursor.  Then getPagedGames terminates (every fuel from the
    number of pages on suffices), it returns the item arrays of all the
    pages concatenated in order, and the requests it made are [path]
    first and then, for every page but the last, [path] with the cursor
    of that page, percent-encoded so that it can be read back, as its
    [cursor] parameter. *)
Theorem getPagedGames_collects_all_pages (path : string) (st st' : state)
    (payloads : list value) :
  pagesFrom fetch path VNull st payloads st' ->
  (forall fuel, length payloads <= fuel ->
     getPagedGames fetch fuel path st
     = Some (Ok (concat (map pageItems payloads)), st'))
  /\ requestsOf (trace st')
     = requestsOf (trace st) ++ path :: map (pathAfter path) (removelast payloads)
  /\ (forall payload,
        pathAfter path payload
        = path +:+ "&cursor=" +:+ encodeURIComponent (ToString (nextPageCursor payload))
        /\ decodeURIComponent (encodeURIComponent (ToString (nextPageCursor payload)))
           = ToString (nextPageCursor payload)).
Proof.
  intros Hrun. split; [|split].
  - intros fuel Hfuel. unfold getPagedGames.
    now rewrite (pagedLoop_collects _ _ _ _ _ Hrun [] fuel Hfuel).
  - exact (pagesFrom_requests _ _ _ _ _ Hrun).
  - intros payload. split; [reflexivity | apply decode_encodeURIComponent].
Qed.

End PagedFacts.

Lemma getPagedGames_collects_all_pages_witness :
  getPagedGames (H := Reference.host) sample_pages_net 2 sample_path (fresh tt)
  = Some (Ok [sample_game 1 11 100; sample_game 2 22 200; sample_game 3 33 300],
          (fetchJson (H := Reference.host) sample_pages_net "games"
             (sample_path +:+ "&cursor=page%202")
             (fetchJson (H := Reference.host) sample_pages_net "games" sample_path
                (fresh tt)).2).2).
Proof.
  refine (proj1 (getPagedGames_collects_all_pages (H := Reference.host)
                   sample_pages_net sample_path (fresh tt) _
                   [sample_page1; sample_page2] _)
            2 (le_n 2)).
  eapply pages_more with (data := VArr [sample_game 1 11 100; sample_game 2 22 200]).
  - vm_compute. reflexivity.
  - reflexivity.
  - reflexivity.
  - eapply pages_last with (data := VArr [sample_game 3 33 300]).
    + vm_compute. reflexivity.
    + reflexivity.
    + reflexivity.
Defined.

(** ** fetchAbsoluteJson *)

Section RetryFacts.
Context `{Host}.
Context {World : Type} (fetch : World -> string -> fetchOutcome * World).



Lemma backoffMs_waitAfter o e attempt :
  attemptResult o = Throw e -> backoffMs e attempt = waitAfter attempt o.
Proof.
  unfold backoffMs, waitAfter, retryAfterSeconds.
  destruct o as [message|status statusText retryAfter body]; simpl.
  - intros [= <-]. reflexivity.
  - destruct (responseOk status).
    + destruct body; [discriminate |]. intros [= <-]. simpl.
      now destruct retryAfter.
    + intros [= <-]. destruct retryAfter as [header|]; simpl; [|reflexivity].
      destruct (StringToNumber header) as [|secs]; simpl; [reflexivity |].
      unfold num_gtb. simpl.
      destruct (0 <? secs)%Z eqn:E, (0 <? secs * 1000)%Z eqn:E';
        try reflexivity; apply Z.ltb_lt in E || apply Z.ltb_ge in E;
        apply Z.ltb_lt in E' || apply Z.ltb_ge in E'; lia.
Qed.

Lemma fetchAttempts_log remaining attempt lastError url st r st' :
  fetchAttempts fetch remaining attempt lastError url st = (r, st') ->
  exists outcomes,
    length outcomes <= remaining
    /\ trace st' = trace st ++ attemptsLog waitAfter url attempt outcomes
    /\ Forall attemptFailed (removelast outcomes)
    /\ match last outcomes with
       | None =>
           remaining = 0
           /\ r = Throw (default (Error ("Request failed for " +:+ url)) lastError)
       | Some o =>
           match attemptResult o with
           | Ok v => r = Ok v
           | Throw e => length outcomes = remaining /\ r = Throw e
           end
       end.
Proof.
  revert attempt lastError st.
  induction remaining as [|remaining IH]; intros attempt lastError st; simpl.
  - unfold throw. intros [= <- <-]. exists []. simpl.
    rewrite app_nil_r. split; [lia |]. split; [reflexivity |].
    split; [constructor |]. split; [reflexivity | now destruct lastError].
  - unfold tryCatch. rewrite attemptFetch_run.
    set (o := (fetch (world st) url).1).
    destruct (attemptResult o) as [v|e] eqn:Eo.
    + intros [= <- <-]. exists [o]. simpl. rewrite Eo.
      split; [lia |]. split; [reflexivity |]. split; [constructor | reflexivity].
    + unfold mbindM, delay, log. simpl. intros Hrest.
      destruct (IH _ _ _ Hrest) as (outcomes & Hlen & Htrace & Hfailed & Hlast).
      simpl in Htrace. exists (o :: outcomes). simpl. rewrite Eo.
      split; [lia |]. split.
      { rewrite Htrace, (backoffMs_waitAfter _ _ _ Eo), <- !app_assoc. reflexivity. }
      destruct outcomes as [|o' outcomes].
      * simpl in Hlast. destruct Hlast as [-> ->]. simpl. rewrite Eo.
        split; [constructor | auto].
      * split.
        -- constructor; [now exists e | exact Hfailed].
        -- rewrite last_cons. destruct (last (o' :: outcomes)) as [ol|] eqn:El.
           ++ destruct (attemptResult ol); [exact Hlast |].
              destruct Hlast as [Hl ->]. simpl in Hl. auto.
           ++ apply last_None in El. discriminate.
Qed.


End RetryFacts.



(** ** mapWithConcurrency *)

Lemma filter_length_insert {X} (P : X -> bool) (l : list X) (w : nat) (old new : X) :
  l !! w = Some old ->
  length (filter (fun x => P x = true) (<[w := new]> l)) + (if P old then 1 else 0)
  = length (filter (fun x => P x = true) l) + (if P new then 1 else 0).
Proof.
  revert w. induction l as [|x l IH]; intros w Hw; [discriminate |].
  destruct w as [|w]; simpl in *.
  - injection Hw as ->. rewrite !filter_cons.
    destruct (P old) eqn:Eo, (P new) eqn:En;
      repeat (rewrite decide_True by congruence);
      repeat (rewrite decide_False by congruence); simpl; lia.
  - specialize (IH w Hw). rewrite !filter_cons.
    destruct (decide (P x = true)); simpl; lia.
Qed.

Section PoolFacts.
Context {A B : Type}.
Context (items : list A) (concurrency : nat) (handler : A -> nat -> result B).


Lemma takeIndex_cases (p : pool (B := B)) :
  (nextIndex p < length items
   /\ takeIndex items p = (Awaiting (nextIndex p),
                 {| results := results p; nextIndex := S (nextIndex p);
                    workers := workers p; calls := calls p ++ [nextIndex p];
                    failure := failure p |}))
  \/ (length items <= nextIndex p
      /\ takeIndex items p = (Returned,
                    {| results := results p; nextIndex := S (nextIndex p);
                       workers := workers p; calls := calls p;
                       failure := failure p |})).
Proof.
  unfold takeIndex.
  destruct (length items <=? nextIndex p)%nat eqn:E.
  - right. apply Nat.leb_le in E. auto.
  - left. apply Nat.leb_gt in E. auto.
Qed.

(** The worker [w'] that [takeIndex p] yields is put among the workers,
    giving [ws']: at the end, or in the place of a worker whose call has
    been stored. *)
Lemma pool_inv_install (p : pool (B := B)) (ws' : list worker) :
  pool_inv items concurrency handler p ->
  (forall pos x, ws' !! pos = Some x ->
     x = (takeIndex items p).1 \/ workers p !! pos = Some x) ->
  (forall pos j, workers p !! pos = Some (Awaiting j) ->
     (exists pos', ws' !! pos' = Some (Awaiting j))
     \/ (exists item v, items !! j = Some item /\ handler item j = Ok v
                        /\ results p !! j = Some (Some v))) ->
  (exists pos, ws' !! pos = Some (takeIndex items p).1) ->
  length ws' <= count items concurrency ->
  pool_inv items concurrency handler
    {| results := results (takeIndex items p).2;
       nextIndex := nextIndex (takeIndex items p).2;
       workers := ws'; calls := calls (takeIndex items p).2;
       failure := failure (takeIndex items p).2 |}.
Proof.
  intros Hinv Hold Hkeep Hnew Hlen.
  destruct Hinv as [I1 I2 I3 I4 I5 I6 I7 I8].
  destruct (takeIndex_cases p) as [[Hlt Ec]|[Hge Ec]]; rewrite Ec in *; clear Ec;
    cbn [fst snd results nextIndex workers calls failure] in *.
  - constructor; cbn [results nextIndex workers calls failure].
    + exact I1.
    + rewrite I2, !Nat.min_l by lia. now rewrite seq_S.
    + intros i Hi Hn. apply I3; lia.
    + intros i item Hitem Hi.
      destruct (decide (i = nextIndex p)) as [->|Hne]; [left; exact Hnew |].
      destruct (I4 i item Hitem ltac:(lia)) as [[w Hw]|[Hdone|Hfail]]; [|auto|auto].
      destruct (Hkeep _ _ Hw) as [?|(item' & v & Hitem' & Hv & Hres)]; [auto |].
      right. left. exists v. split; [congruence | exact Hres].
    + intros w i Hw. destruct (Hold _ _ Hw) as [[= ->]|Hw']; [lia |].
      apply I5 in Hw'. lia.
    + intros w Hw. destruct (Hold _ _ Hw) as [?|Hw']; [discriminate |].
      apply I6 in Hw'. lia.
    + intros w e Hw. destruct (Hold _ _ Hw) as [?|Hw']; [discriminate |].
      now apply I7 in Hw'.
    + exact Hlen.
  - constructor; cbn [results nextIndex workers calls failure].
    + exact I1.
    + rewrite I2, !Nat.min_r by lia. reflexivity.
    + intros i Hi Hn. lia.
    + intros i item Hitem Hi.
      assert (Hin : i < length items) by (apply lookup_lt_Some in Hitem; exact Hitem).
      destruct (I4 i item Hitem ltac:(lia)) as [[w Hw]|[Hdone|Hfail]]; [|auto|auto].
      destruct (Hkeep _ _ Hw) as [?|(item' & v & Hitem' & Hv & Hres)]; [auto |].
      right. left. exists v. split; [congruence | exact Hres].
    + intros w i Hw. destruct (Hold _ _ Hw) as [?|Hw']; [discriminate |].
      apply I5 in Hw'. lia.
    + intros w Hw. lia.
    + intros w e Hw. destruct (Hold _ _ Hw) as [?|Hw']; [discriminate |].
      now apply I7 in Hw'.
    + exact Hlen.
Qed.

Lemma pool_inv_new : pool_inv items concurrency handler (newPool (B := B) items).
Proof.
  constructor; simpl.
  - apply length_replicate.
  - reflexivity.
  - intros i _ Hi. now apply lookup_replicate_2.
  - intros i item _ Hi. lia.
  - intros w i Hw. now rewrite lookup_nil in Hw.
  - intros w Hw. now rewrite lookup_nil in Hw.
  - intros w e Hw. now rewrite lookup_nil in Hw.
  - lia.
Qed.

Lemma pool_inv_spawn (p : pool (B := B)) :
  pool_inv items concurrency handler p ->
  length (workers p) < count items concurrency ->
  pool_inv items concurrency handler (spawn items p).
Proof.
  intros Hinv Hlen. unfold spawn.
  assert (Hws : workers (takeIndex items p).2 = workers p).
  { destruct (takeIndex_cases p) as [[_ ->]|[_ ->]]; reflexivity. }
  destruct (takeIndex items p) as [w' p'] eqn:Etake. simpl in Hws. rewrite Hws.
  replace w' with (takeIndex items p).1 by now rewrite Etake.
  replace p' with (takeIndex items p).2 by now rewrite Etake.
  apply pool_inv_install; try assumption.
  - intros pos x Hx. apply lookup_app_Some in Hx as [Hx|[_ Hx]]; [now right |].
    left. apply list_lookup_singleton_Some in Hx as [_ <-]. reflexivity.
  - intros pos j Hj. left. exists pos. now apply lookup_app_l_Some.
  - exists (length (workers p)). rewrite lookup_app_r by lia.
    now rewrite Nat.sub_diag.
  - rewrite length_app. simpl. lia.
Qed.

Lemma resume_cases (w : nat) (p p' : pool (B := B)) :
  resume items handler w p = Some p' ->
  exists i item,
    workers p !! w = Some (Awaiting i) /\ items !! i = Some item
    /\ ((exists v, handler item i = Ok v
           /\ let p1 := {| results := <[i := Some v]> (results p);
                           nextIndex := nextIndex p; workers := workers p;
                           calls := calls p; failure := failure p |} in
              p' = {| results := results (takeIndex items p1).2;
                      nextIndex := nextIndex (takeIndex items p1).2;
                      workers := <[w := (takeIndex items p1).1]> (workers p);
                      calls := calls (takeIndex items p1).2;
                      failure := failure (takeIndex items p1).2 |})
        \/ (exists e, handler item i = Throw e
              /\ p' = {| results := results p; nextIndex := nextIndex p;
                         workers := <[w := Failed e]> (workers p);
                         calls := calls p;
                         failure := match failure p with
                                    | Some e0 => Some e0
                                    | None => Some e
                                    end |})).
Proof.
  unfold resume.
  destruct (workers p !! w) as [[i| |e]|] eqn:Ew; try discriminate.
  destruct (items !! i) as [item|] eqn:Ei; [|discriminate].
  destruct (handler item i) as [v|e] eqn:Eh.
  - set (p1 := {| results := <[i := Some v]> (results p) |}).
    intros Hp'. exists i, item. split; [reflexivity |]. split; [exact Ei |].
    left. exists v. split; [exact Eh |]. simpl. fold p1.
    assert (Hws : workers (takeIndex items p1).2 = workers p).
    { destruct (takeIndex_cases p1) as [[_ ->]|[_ ->]]; reflexivity. }
    destruct (takeIndex items p1) as [w' p2]. simpl in *. injection Hp' as <-. now rewrite Hws.
  - intros [= <-]. exists i, item. split; [reflexivity |]. split; [exact Ei |].
    right. now exists e.
Qed.

Lemma pool_inv_resume (w : nat) (p p' : pool (B := B)) :
  pool_inv items concurrency handler p ->
  resume items handler w p = Some p' ->
  pool_inv items concurrency handler p'.
Proof.
  intros Hinv Hres.
  destruct (resume_cases _ _ _ Hres)
    as (i & item & Hw & Hitem & [(v & Hv & ->)|(e & He & ->)]).
  - pose proof Hinv as [I1 I2 I3 I4 I5 I6 I7 I8].
    destruct (I5 _ _ Hw) as [Hi Hn].
    set (p1 := {| results := <[i := Some v]> (results p) |}).
    assert (Hinv1 : pool_inv items concurrency handler p1).
    { constructor; simpl; try assumption.
      - now rewrite length_insert.
      - intros j Hj Hjn. rewrite list_lookup_insert_ne by lia. now apply I3.
      - intros j item' Hitem' Hj.
        destruct (decide (j = i)) as [->|Hne].
        + right. left. exists v. split; [congruence |].
          apply list_lookup_insert_eq. lia.
        + rewrite list_lookup_insert_ne by congruence. now apply I4. }
    apply (pool_inv_install p1); simpl; try assumption.
    + intros pos x Hx. apply list_lookup_insert_Some in Hx as [(-> & <- & _)|[_ Hx]]; auto.
    + intros pos j Hj. destruct (decide (pos = w)) as [->|Hne].
      * right. rewrite Hw in Hj. injection Hj as <-. exists item, v.
        repeat split; try assumption. apply list_lookup_insert_eq. lia.
      * left. exists pos. now rewrite list_lookup_insert_ne by congruence.
    + exists w. apply list_lookup_insert_eq. now apply lookup_lt_Some in Hw.
    + now rewrite length_insert.
  - destruct Hinv as [I1 I2 I3 I4 I5 I6 I7 I8].
    assert (Hfail : match failure p with Some e0 => Some e0 | None => Some e end <> None).
    { now destruct (failure p). }
    constructor; simpl; try assumption.
    + intros j item' Hitem' Hj.
      destruct (decide (j = i)) as [->|Hne].
      * right. right. exists e. split; [congruence | exact Hfail].
      * destruct (I4 j item' Hitem' Hj) as [[pos Hpos]|[Hdone|(e' & He' & _)]]; [|auto|].
        -- left. exists pos. rewrite list_lookup_insert_ne; [exact Hpos |].
           intros ->. congruence.
        -- right. right. eauto.
    + intros pos j Hpos.
      apply list_lookup_insert_Some in Hpos as [(_ & ? & _)|[_ Hpos]]; [discriminate |].
      now apply I5 in Hpos.
    + intros pos Hpos.
      apply list_lookup_insert_Some in Hpos as [(_ & ? & _)|[_ Hpos]]; [discriminate |].
      now apply I6 in Hpos.
    + intros pos e' _. exact Hfail.
    + now rewrite length_insert.
Qed.

Lemma reachable_inv (p : pool (B := B)) :
  reachable items concurrency handler p -> pool_inv items concurrency handler p.
Proof.
  induction 1 as [|p Hp IH Hlen|p w p' Hp IH Hlen Hres].
  - apply pool_inv_new.
  - now apply pool_inv_spawn.
  - now apply (pool_inv_resume w p).
Qed.

Lemma spawn_workers (p : pool (B := B)) :
  length (workers (spawn items p)) = S (length (workers p)).
Proof.
  unfold spawn. destruct (takeIndex_cases p) as [[_ ->]|[_ ->]]; simpl;
    rewrite length_app; simpl; lia.
Qed.

Lemma resume_workers (w : nat) (p p' : pool (B := B)) :
  resume items handler w p = Some p' -> length (workers p') = length (workers p).
Proof.
  intros Hres.
  destruct (resume_cases _ _ _ Hres)
    as (i & item & _ & _ & [(v & _ & ->)|(e & _ & ->)]);
    simpl; apply length_insert.
Qed.

Lemma spawnAll_reachable (k : nat) (p : pool (B := B)) :
  reachable items concurrency handler p ->
  length (workers p) + k <= count items concurrency ->
  reachable items concurrency handler (spawnAll items k p)
  /\ length (workers (spawnAll items k p)) = length (workers p) + k.
Proof.
  revert p. induction k as [|k IH]; intros p Hp Hlen; simpl.
  - split; [exact Hp | lia].
  - destruct (IH (spawn items p)) as [Hr Hl].
    + apply reach_spawn; [exact Hp | lia].
    + rewrite spawn_workers. lia.
    + split; [exact Hr |]. rewrite Hl, spawn_workers. lia.
Qed.

Lemma started_reachable :
  reachable items concurrency handler (started (B := B) items concurrency)
  /\ length (workers (started (B := B) items concurrency)) = count items concurrency.
Proof.
  destruct (spawnAll_reachable (count items concurrency) (newPool (B := B) items)) as [Hr Hl].
  - constructor.
  - simpl. lia.
  - split; [exact Hr | exact Hl].
Qed.

Lemma run_reachable (schedule : list nat) (p p' : pool (B := B)) :
  reachable items concurrency handler p ->
  length (workers p) = count items concurrency ->
  run items handler schedule p = Some p' ->
  reachable items concurrency handler p'
  /\ length (workers p') = count items concurrency.
Proof.
  revert p. induction schedule as [|w schedule IH]; intros p Hp Hlen; simpl.
  - intros [= <-]. auto.
  - destruct (resume items handler w p) as [p1|] eqn:Hres; [|discriminate].
    apply IH.
    + now apply (reach_resume _ _ _ p w).
    + now rewrite (resume_workers _ _ _ Hres).
Qed.

(** Calls made, calls in flight and resumptions are in balance. *)
Lemma spawn_balance (p : pool (B := B)) :
  length (calls (spawn items p)) + pending p
  = length (calls p) + pending (spawn items p).
Proof.
  unfold spawn, pending.
  destruct (takeIndex_cases p) as [[_ ->]|[_ ->]]; simpl;
    rewrite filter_app, !length_app, filter_cons; simpl; lia.
Qed.

Lemma spawnAll_balance (k : nat) (p : pool (B := B)) :
  length (calls (spawnAll items k p)) + pending p
  = length (calls p) + pending (spawnAll items k p).
Proof.
  revert p. induction k as [|k IH]; intros p; simpl; [lia |].
  pose proof (IH (spawn items p)). pose proof (spawn_balance p). lia.
Qed.

Lemma resume_balance (w : nat) (p p' : pool (B := B)) :
  resume items handler w p = Some p' ->
  length (calls p') + pending p = length (calls p) + pending p' + 1.
Proof.
  intros Hres.
  destruct (resume_cases _ _ _ Hres)
    as (i & item & Hw & _ & [(v & _ & ->)|(e & _ & ->)]).
  - cbv zeta. unfold pending.
    match goal with |- context [takeIndex items ?q] => set (p1 := q) end.
    destruct (takeIndex_cases p1) as [[_ Ec]|[_ Ec]]; rewrite Ec;
      cbn [fst snd results nextIndex workers calls failure];
      pose proof (filter_length_insert isAwaiting (workers p) w (Awaiting i)) as Hf.
    + specialize (Hf (Awaiting (nextIndex p)) Hw). simpl in Hf.
      rewrite length_app. simpl. lia.
    + specialize (Hf Returned Hw). simpl in Hf. simpl. lia.
  - unfold pending. simpl.
    pose proof (filter_length_insert isAwaiting (workers p) w (Awaiting i) (Failed e) Hw)
      as Hf.
    simpl in Hf. lia.
Qed.

Lemma run_balance (schedule : list nat) (p p' : pool (B := B)) :
  run items handler schedule p = Some p' ->
  length (calls p') + pending p = length (calls p) + pending p' + length schedule.
Proof.
  revert p. induction schedule as [|w schedule IH]; intros p; simpl.
  - intros [= <-]. lia.
  - destruct (resume items handler w p) as [p1|] eqn:Hres; [|discriminate].
    intros Hrun. pose proof (IH _ Hrun). pose proof (resume_balance _ _ _ Hres). lia.
Qed.

(** A schedule resumes the workers at most once per item. *)
Lemma run_bounded (schedule : list nat) (p' : pool (B := B)) :
  run items handler schedule (started (B := B) items concurrency) = Some p' ->
  length schedule <= length items.
Proof.
  intros Hrun.
  destruct started_reachable as [Hr Hl].
  destruct (run_reachable _ _ _ Hr Hl Hrun) as [Hr' _].
  apply reachable_inv in Hr'. destruct Hr' as [_ I2 _ _ _ _ _ _].
  pose proof (run_balance _ _ _ Hrun) as Hb.
  pose proof (spawnAll_balance (count items concurrency) (newPool (B := B) items)) as Hs.
  fold (started (B := B) items concurrency) in Hs. simpl in Hs.
  assert (Hcalls : length (calls p') <= length items).
  { rewrite I2, length_seq. lia. }
  unfold pending in *. simpl in Hs. lia.
Qed.

(** A call that has not settled has a worker that can be resumed. *)
Lemma unsettled_progress (p : pool (B := B)) :
  pool_inv items concurrency handler p ->
  settled p = None ->
  exists w p', resume items handler w p = Some p'.
Proof.
  intros [I1 I2 I3 I4 I5 I6 I7 I8]. unfold settled.
  destruct (failure p) as [e|] eqn:Ef; [discriminate |].
  destruct (forallb isReturned (workers p)) eqn:Eall; [discriminate |]. intros _.
  assert (Hex : exists w x, workers p !! w = Some x /\ isReturned x = false).
  { clear -Eall. induction (workers p) as [|x ws IH]; [discriminate |].
    simpl in Eall. destruct (isReturned x) eqn:Ex.
    - destruct (IH Eall) as (w & y & Hw & Hy). now exists (S w), y.
    - now exists 0, x. }
  destruct Hex as (w & x & Hw & Hx).
  destruct x as [i| |e].
  - destruct (I5 _ _ Hw) as [_ Hi].
    destruct (lookup_lt_is_Some_2 items i Hi) as [item Hitem].
    exists w. unfold resume. rewrite Hw, Hitem.
    destruct (handler item i); [|eauto].
    destruct (takeIndex items _). eauto.
  - discriminate.
  - now apply I7 in Hw.
Qed.

(** Once every worker has returned, every slot holds what the handler
    returned for its item. *)
Lemma settled_results (p : pool (B := B)) (rs : list (option B)) :
  pool_inv items concurrency handler p ->
  length (workers p) = count items concurrency ->
  0 < concurrency ->
  settled p = Some (Ok rs) ->
  length rs = length items
  /\ forall i item, items !! i = Some item ->
       exists v, handler item i = Ok v /\ rs !! i = Some (Some v).
Proof.
  intros [I1 I2 I3 I4 I5 I6 I7 I8] Hlen Hpos. unfold settled.
  destruct (failure p) as [e|] eqn:Ef; [discriminate |].
  destruct (forallb isReturned (workers p)) eqn:Eall; [|discriminate].
  intros [= <-]. split; [exact I1 |].
  assert (Hall : forall w x, workers p !! w = Some x -> x = Returned).
  { intros w x Hw. rewrite forallb_forall in Eall.
    assert (Hx : isReturned x = true).
    { apply Eall. apply list_elem_of_In. apply list_elem_of_lookup. eauto. }
    now destruct x. }
  intros i item Hitem.
  assert (Hi : i < length items) by (now apply lookup_lt_Some in Hitem).
  assert (Hw0 : exists x, workers p !! 0 = Some x).
  { apply lookup_lt_is_Some_2. rewrite Hlen. unfold count. lia. }
  destruct Hw0 as [x Hw0]. pose proof (Hall _ _ Hw0) as ->.
  apply I6 in Hw0.
  destruct (I4 i item Hitem ltac:(lia)) as [[w Hw]|[Hdone|(e & _ & Hf)]].
  - apply Hall in Hw. discriminate.
  - exact Hdone.
  - congruence.
Qed.

Lemma run_app (s1 s2 : list nat) (p : pool (B := B)) :
  run items handler (s1 ++ s2) p
  = match run items handler s1 p with
    | Some p1 => run items handler s2 p1
    | None => None
    end.
Proof.
  revert p. induction s1 as [|w s1 IH]; intros p; simpl; [reflexivity |].
  destruct (resume items handler w p); [apply IH | reflexivity].
Qed.

Lemma resume_failure (w : nat) (p p' : pool (B := B)) :
  (forall i item, items !! i = Some item -> exists v, handler item i = Ok v) ->
  resume items handler w p = Some p' -> failure p' = failure p.
Proof.
  intros Hok Hres.
  destruct (resume_cases _ _ _ Hres)
    as (i & item & _ & Hitem & [(v & _ & ->)|(e & He & _)]).
  - cbv zeta. match goal with |- context [takeIndex items ?q] => set (p1 := q) end.
    destruct (takeIndex_cases p1) as [[_ ->]|[_ ->]]; reflexivity.
  - destruct (Hok _ _ Hitem) as [v Hv]. congruence.
Qed.

(** With a handler that never rejects, any schedule so far can be
    carried on until the call resolves. *)
Lemma run_completes (m : nat) (schedule : list nat) (p : pool (B := B)) :
  (forall i item, items !! i = Some item -> exists v, handler item i = Ok v) ->
  run items handler schedule (started (B := B) items concurrency) = Some p ->
  failure p = None ->
  length items < length schedule + m ->
  exists rest rs,
    mapWithConcurrency items concurrency handler (schedule ++ rest) = Some (Ok rs).
Proof.
  intros Hok. revert schedule p.
  induction m as [|m IH]; intros schedule p Hrun Hfail Hm.
  - pose proof (run_bounded _ _ Hrun). lia.
  - destruct (settled p) as [r|] eqn:Es.
    + exists [], (results p). rewrite app_nil_r. unfold mapWithConcurrency.
      rewrite Hrun. unfold settled in *. rewrite Hfail in *.
      destruct (forallb isReturned (workers p)); [reflexivity | discriminate].
    + destruct started_reachable as [Hr Hl].
      destruct (run_reachable _ _ _ Hr Hl Hrun) as [Hr' _].
      apply reachable_inv in Hr'.
      destruct (unsettled_progress _ Hr' Es) as (w & p1 & Hres).
      destruct (IH (schedule ++ [w]) p1) as (rest & rs & Hdone).
      * rewrite run_app, Hrun. simpl. now rewrite Hres.
      * rewrite (resume_failure _ _ _ Hok Hres). exact Hfail.
      * rewrite length_app. simpl. lia.
      * exists (w :: rest), rs. now rewrite <- app_assoc in Hdone.
Qed.

Lemma started_failure : failure (started (B := B) items concurrency) = None.
Proof.
  unfold started. generalize (count items concurrency).
  assert (Hnew : failure (newPool (B := B) items) = None) by reflexivity.
  revert Hnew. generalize (newPool (B := B) items).
  intros p Hp n. revert p Hp. induction n as [|n IH]; intros p Hp; simpl; [exact Hp |].
  apply IH. unfold spawn.
  destruct (takeIndex_cases p) as [[_ ->]|[_ ->]]; exact Hp.
Qed.

(** C2, as the script has it: with a concurrency limit of at least 1,
    whatever the order in which the handler calls complete, the array
    that mapWithConcurrency resolves with has the length of [items] and
    holds at every index [i] what the handler returned for [items[i]]
    (and [i]).  The call does settle: a schedule resumes workers at most
    once per item, as long as the call has not settled some worker can
    be resumed, and when the handler rejects no item every schedule can
    be carried on to one under which the call resolves. *)
Theorem mapWithConcurrency_in_input_order (schedule : list nat) :
  0 < concurrency ->
  (forall rs,
     mapWithConcurrency items concurrency handler schedule = Some (Ok rs) ->
     length rs = length items
     /\ forall i item, items !! i = Some item ->
          exists v, handler item i = Ok v /\ rs !! i = Some (Some v))
  /\ (forall p,
        run items handler schedule (started (B := B) items concurrency) = Some p ->
        length schedule <= length items
        /\ (settled p = None -> exists w p', resume items handler w p = Some p')
        /\ ((forall i item, items !! i = Some item -> exists v, handler item i = Ok v) ->
            exists rest rs,
              mapWithConcurrency items concurrency handler (schedule ++ rest)
              = Some (Ok rs))).
Proof.
  intros Hpos. destruct started_reachable as [Hr Hl]. split.
  - intros rs. unfold mapWithConcurrency.
    destruct (run items handler schedule (started (B := B) items concurrency)) as [p|] eqn:Hrun;
      [|discriminate].
    destruct (run_reachable _ _ _ Hr Hl Hrun) as [Hr' Hl'].
    apply settled_results; [now apply reachable_inv | exact Hl' | exact Hpos].
  - intros p Hrun. split; [exact (run_bounded _ _ Hrun) |]. split.
    + destruct (run_reachable _ _ _ Hr Hl Hrun) as [Hr' _].
      apply unsettled_progress. now apply reachable_inv.
    + intros Hok. apply (run_completes (S (length items)) schedule p Hok Hrun); [|lia].
      clear -Hok Hrun. pose proof started_failure as Hstart.
      revert Hrun Hstart. generalize (started (B := B) items concurrency).
      induction schedule as [|w schedule IH]; intros p0 Hrun Hp0; simpl in Hrun.
      * now injection Hrun as <-.
      * destruct (resume items handler w p0) as [p1|] eqn:Hres; [|discriminate].
        apply (IH p1 Hrun). now rewrite (resume_failure _ _ _ Hok Hres).
Qed.


End PoolFacts.

Lemma mapWithConcurrency_in_input_order_witness :
  mapWithConcurrency [10; 20; 30] 2 sample_handler [1; 0; 1]
  = Some (Ok [Some 10; Some 21; Some 32])
  /\ length [Some 10; Some 21; Some 32] = length [10; 20; 30]
  /\ forall i item, [10; 20; 30] !! i = Some item ->
       exists v, sample_handler item i = Ok v
                 /\ [Some 10; Some 21; Some 32] !! i = Some (Some v).
Proof.
  split; [reflexivity |].
  apply (proj1 (mapWithConcurrency_in_input_order [10; 20; 30] 2 sample_handler
                  [1; 0; 1] ltac:(lia))).
  reflexivity.
Defined.

(** The statement of C2 fails for the limit 0: no worker is started, the
    call resolves at once, and the slot of the one item was never
    assigned. *)
Lemma mapWithConcurrency_limit_0_not_mapped : ~ mapsInOrder [10] 0 sample_handler.
Proof.
  intros Hmaps.
  destruct (Hmaps [] [None] eq_refl 0 10 eq_refl) as (v & _ & Hslot).
  discriminate.
Qed.


(** ** Chunking the universe ids *)

Lemma sliceLoop_done {A} fuel step index (values : list A) :
  0 < fuel -> length values <= index -> sliceLoop fuel step index values = Some [].
Proof.
  intros Hfuel Hindex. destruct fuel as [|fuel]; [lia |]. cbn [sliceLoop].
  destruct (index <? length values)%nat eqn:E; [|reflexivity].
  apply Nat.ltb_lt in E. lia.
Qed.

Lemma sliceLoop_more {A} fuel step index (values : list A) :
  0 < fuel -> index < length values ->
  sliceLoop fuel step index values
  = option_map (cons (slice values index (index + step)))
      (sliceLoop (pred fuel) step (index + step) values).
Proof.
  intros Hfuel Hindex. destruct fuel as [|fuel]; [lia |]. cbn [sliceLoop pred].
  destruct (index <? length values)%nat eqn:E; [reflexivity |].
  apply Nat.ltb_ge in E. lia.
Qed.

Lemma chunks_of_45_by_100 {A} (values : list A) :
  length values = 45 -> sliceLoop (S (length values)) 100 0 values = Some [values].
Proof.
  intros Hlen.
  rewrite sliceLoop_more by lia.
  rewrite sliceLoop_done by (cbn [pred]; lia).
  cbn [option_map]. unfold slice.
  rewrite drop_0, take_ge by lia. reflexivity.
Qed.

Lemma chunks_of_45_by_30 {A} (values : list A) :
  length values = 45 ->
  sliceLoop (S (length values)) 30 0 values = Some [take 30 values; drop 30 values].
Proof.
  intros Hlen.
  rewrite sliceLoop_more by lia.
  rewrite sliceLoop_more by (cbn [pred]; lia).
  rewrite sliceLoop_done by (cbn [pred]; lia).
  cbn [option_map]. unfold slice. rewrite drop_0.
  replace (0 + 30 - 0) with 30 by lia. replace (0 + 30 + 30 - (0 + 30)) with 30 by lia.
  replace (0 + 30) with 30 by lia.
  rewrite (take_ge (drop 30 values)) by (rewrite length_drop; lia).
  reflexivity.
Qed.

Section ChunkFacts.
Context `{Host}.
Context {World : Type} (fetch : World -> string -> fetchOutcome * World).

Lemma earlier_attempts_requests remaining attempt url lastError st r st' :
  earlier_attempts fetch remaining attempt url lastError st = (r, st') ->
  requestsOf (trace st') = requestsOf (trace st).
Proof.
  revert attempt lastError st.
  induction remaining as [|remaining IH]; intros attempt lastError st; simpl.
  - unfold throw. now intros [= _ <-].
  - unfold tryCatch, earlier_attempt, mbindM, callFetch.
    destruct (fetch (world st) url) as [o w].
    destruct o as [message|status statusText retryAfter [v|]]; simpl;
      try destruct (responseOk status); unfold ret, throw, delay, log; simpl;
      try (intros [= _ <-]; simpl; now requests_of_trace);
      intros Hrest; apply IH in Hrest; rewrite Hrest; simpl; now requests_of_trace.
Qed.

Lemma earlier_tryHosts_requests hosts service path lastError st r st' :
  earlier_tryHosts fetch hosts service path lastError st = (r, st') ->
  requestsOf (trace st') = requestsOf (trace st).
Proof.
  revert lastError st. induction hosts as [|host hosts IH]; intros lastError st;
    cbn [earlier_tryHosts].
  - unfold throw. now intros [= _ <-].
  - unfold tryCatch.
    destruct (earlier_attempts fetch 2 1 (host +:+ path) lastError st)
      as [[v|e] st1] eqn:E; apply earlier_attempts_requests in E.
    + now intros [= _ <-].
    + intros Hrest. apply IH in Hrest. congruence.
Qed.

Lemma earlier_fetchJson_requests service path st r st' :
  earlier_fetchJson fetch service path st = (r, st') ->
  requestsOf (trace st') = requestsOf (trace st) ++ [path].
Proof.
  unfold earlier_fetchJson, mbindM, log. simpl.
  assert (E0 : requestsOf (trace st ++ [Request service path])
               = requestsOf (trace st) ++ [path]).
  { unfold requestsOf. now rewrite omap_app. }
  destruct (earlier_API_HOSTS service) as [hosts|].
  - intros Hrun. apply earlier_tryHosts_requests in Hrun. simpl in Hrun. congruence.
  - unfold throw. intros [= _ <-]. exact E0.
Qed.

(** A run of the loop of getUniverseStats that succeeds has asked for
    every chunk, once, in order. *)
Lemma statsLoop_requests chunks stats st result st' :
  statsLoop fetch chunks stats st = (Ok result, st') ->
  requestsOf (trace st') = requestsOf (trace st) ++ map statsPath chunks.
Proof.
  revert stats st. induction chunks as [|chunk chunks IH]; intros stats st; simpl.
  - unfold ret. intros [= _ <-]. now rewrite app_nil_r.
  - unfold mbindM at 1.
    destruct (earlier_fetchJson fetch "games" (statsPath chunk) st)
      as [[response|e] st1] eqn:Efetch; [|discriminate].
    apply earlier_fetchJson_requests in Efetch.
    unfold mbindM, lift. destruct (getProp response "data") as [data|e]; [|discriminate].
    intros Hrest. apply IH in Hrest. rewrite Hrest, Efetch, <- app_assoc. reflexivity.
Qed.

(** C3, as the two revisions of the script have it: the current script
    sends 100 universe ids per request, so 45 ids make exactly one chunk
    and getUniversePlayingById issues exactly one request, for all of
    them; the earlier revision sends 30 per request, so its
    getUniverseStats splits 45 ids into exactly two chunks, the first 30
    and the remaining 15, and a successful run issues exactly one request
    for each, in this order. *)
Theorem universe_ids_45_chunks (universeIds : list number) :
  length universeIds = 45 ->
  universeChunks universeIds = Some [universeIds]
  /\ (forall st, exists r st',
        getUniversePlayingById fetch universeIds st = Some (r, st')
        /\ requestsOf (trace st') = requestsOf (trace st) ++ [universePath universeIds])
  /\ chunkArray (map VNum universeIds) 30
     = Some [take 30 (map VNum universeIds); drop 30 (map VNum universeIds)]
  /\ (forall st, exists run,
        getUniverseStats fetch (map VNum universeIds) st = Some run
        /\ forall stats st', run = (Ok stats, st') ->
             requestsOf (trace st')
             = requestsOf (trace st)
               ++ [statsPath (take 30 (map VNum universeIds));
                   statsPath (drop 30 (map VNum universeIds))]).
Proof.
  intros Hlen.
  assert (Hlen' : length (map VNum universeIds) = 45) by now rewrite length_map.
  pose proof (chunks_of_45_by_100 universeIds Hlen) as H100.
  pose proof (chunks_of_45_by_30 (map VNum universeIds) Hlen') as H30.
  split; [exact H100 |]. split; [|split; [exact H30 |]].
  - intros st. unfold getUniversePlayingById, universeChunks.
    rewrite H100, Hlen. simpl Nat.eqb. cbv iota. simpl mapOneWorker.
    unfold mbindM at 1 2.
    destruct (fetchJson fetch "games" (universePath universeIds) st)
      as [[response|e] st1] eqn:Efetch; apply fetchJson_requests in Efetch.
    + unfold ret, mbindM, lift. eexists _, _. split; [reflexivity | exact Efetch].
    + eexists _, _. split; [reflexivity | exact Efetch].
  - intros st. unfold getUniverseStats, chunkArray.
    rewrite H30, Hlen'. simpl Nat.eqb. cbv iota.
    eexists. split; [reflexivity |].
    intros stats st' Hrun. now apply statsLoop_requests in Hrun.
Qed.

End ChunkFacts.

Lemma universe_ids_45_chunks_witness :
  universeChunks sample_ids = Some [sample_ids]
  /\ chunkArray (map VNum sample_ids) 30
     = Some [take 30 (map VNum sample_ids); drop 30 (map VNum sample_ids)].
Proof.
  destruct (universe_ids_45_chunks (H := Reference.host) replay sample_ids eq_refl)
    as (H100 & _ & H30 & _).
  split; [exact H100 | exact H30].
Defined.

(** The statement of C3 fails on the current script: the ids 1 to 45 go
    out in one chunk, not two. *)
Lemma universe_ids_45_not_split_in_two : ~ splitInTwo sample_ids.
Proof.
  intros (chunk1 & chunk2 & Hchunks).
  vm_compute in Hchunks. discriminate.
Qed.

(** ** escapeHtml and the community cards *)

Lemma append_cons x (a b : string) : String x a +:+ b = String x (a +:+ b).
Proof. reflexivity. Qed.

Lemma string_app_assoc (a b c : string) : (a +:+ b) +:+ c = a +:+ (b +:+ c).
Proof.
  induction a as [|x a IH]; [reflexivity |].
  rewrite !append_cons. f_equal. exact IH.
Qed.

Lemma replaceAll_app c r s1 s2 :
  replaceAll c r (s1 +:+ s2) = replaceAll c r s1 +:+ replaceAll c r s2.
Proof.
  induction s1 as [|x s1 IH]; [reflexivity |].
  rewrite append_cons. cbn [replaceAll].
  destruct (Ascii.eqb x c); rewrite IH.
  - symmetry. apply string_app_assoc.
  - now rewrite append_cons.
Qed.

Lemma chars_app (a b : string) :
  list_ascii_of_string (a +:+ b) = list_ascii_of_string a ++ list_ascii_of_string b.
Proof.
  induction a as [|x a IH]; [reflexivity |].
  rewrite append_cons. cbn [list_ascii_of_string app]. f_equal. exact IH.
Qed.

(** The five passes amount to one pass that rewrites each character on
    its own: no pass touches what an earlier pass has written. *)
Lemma escapeString_cons c s :
  escapeString (String c s) = escapeChar c +:+ escapeString s.
Proof.
  unfold escapeString, escapeChar. cbn [replaceAll].
  destruct (Ascii.eqb c "&") eqn:E1; [rewrite !replaceAll_app; reflexivity |].
  cbn [replaceAll].
  destruct (Ascii.eqb c "<") eqn:E2; [rewrite !replaceAll_app; reflexivity |].
  cbn [replaceAll].
  destruct (Ascii.eqb c ">") eqn:E3; [rewrite !replaceAll_app; reflexivity |].
  cbn [replaceAll].
  destruct (Ascii.eqb c dquote) eqn:E4; [rewrite !replaceAll_app; reflexivity |].
  cbn [replaceAll].
  destruct (Ascii.eqb c "'") eqn:E5; reflexivity.
Qed.

Lemma escapeString_Escaped s : Escaped (list_ascii_of_string (escapeString s)).
Proof.
  induction s as [|c s IH]; [constructor |].
  rewrite escapeString_cons, chars_app. unfold escapeChar.
  destruct (Ascii.eqb c "&") eqn:E1;
    [apply escaped_entity; [apply list_elem_of_In; simpl; tauto | exact IH] |].
  destruct (Ascii.eqb c "<") eqn:E2;
    [apply escaped_entity; [apply list_elem_of_In; simpl; tauto | exact IH] |].
  destruct (Ascii.eqb c ">") eqn:E3;
    [apply escaped_entity; [apply list_elem_of_In; simpl; tauto | exact IH] |].
  destruct (Ascii.eqb c dquote) eqn:E4;
    [apply escaped_entity; [apply list_elem_of_In; simpl; tauto | exact IH] |].
  destruct (Ascii.eqb c "'") eqn:E5;
    [apply escaped_entity; [apply list_elem_of_In; simpl; tauto | exact IH] |].
  simpl. apply escaped_char; [|exact IH].
  apply Ascii.eqb_neq in E1, E2, E3, E4, E5.
  intros Hin. apply list_elem_of_In in Hin. simpl in Hin. intuition congruence.
Qed.

Lemma entity_cases e :
  e ∈ entities ->
  e = "&amp;" \/ e = "&lt;" \/ e = "&gt;" \/ e = "&quot;" \/ e = "&#39;".
Proof. intros Hin. apply list_elem_of_In in Hin. simpl in Hin. intuition auto. Qed.

Lemma Escaped_noMarkupChars l : Escaped l -> noMarkupChars l.
Proof.
  induction 1 as [|c rest Hc _ IH|e rest He _ IH]; intros x Hx.
  - now apply elem_of_nil in Hx.
  - apply elem_of_cons in Hx as [->|Hx]; [|now apply IH].
    intros Hin. apply Hc. now right.
  - apply elem_of_app in Hx as [Hx|Hx]; [|now apply IH].
    assert (Hall : Forall (fun c => c ∉ ["<"; ">"; dquote; "'"]%char)
                     (list_ascii_of_string e)).
    { destruct (entity_cases e He) as [-> | [-> | [-> | [-> | ->]]]];
        apply (bool_decide_unpack _); vm_compute; exact I. }
    rewrite Forall_forall in Hall. now apply Hall.
Qed.

Lemma entity_ampersand e i :
  e ∈ entities -> list_ascii_of_string e !! i = Some "&"%char -> i = 0.
Proof.
  intros He Hi.
  destruct (entity_cases e He) as [-> | [-> | [-> | [-> | ->]]]];
    do 6 (destruct i as [|i]; [first [reflexivity | discriminate Hi] |]);
    discriminate Hi.
Qed.

Lemma Escaped_ampersands l : Escaped l -> ampersandsBeginEntities l.
Proof.
  induction 1 as [|c rest Hc _ IH|e rest He Hrest IH]; intros i Hi.
  - now rewrite lookup_nil in Hi.
  - destruct i as [|i]; simpl in Hi.
    + injection Hi as ->. exfalso. apply Hc. left.
    + destruct (IH i Hi) as (e & He & Hpre). now exists e.
  - destruct (decide (i < length (list_ascii_of_string e))) as [Hlt|Hge].
    + rewrite lookup_app_l in Hi by exact Hlt.
      apply entity_ampersand in Hi; [|exact He]. subst i.
      exists e. split; [exact He |]. rewrite drop_0. now apply prefix_app_r.
    + rewrite lookup_app_r in Hi by lia.
      destruct (IH _ Hi) as (e' & He' & Hpre). exists e'. split; [exact He' |].
      now rewrite drop_app_ge by lia.
Qed.

Section RenderFacts.
Context `{Host}.

(** C10: for every input (turned into a string as escapeHtml does), the
    output of escapeHtml has no ['<'], ['>'], double quote or ['''], and
    every ['&'] in it starts one of the five entities; and the markup of
    a community card is a fixed head, then the escaped name, then a tail
    computed from the member count and the id only, the grid being the
    cards one after the other. *)
Theorem escapeHtml_escapes_markup :
  (forall v : value,
     noMarkupChars (list_ascii_of_string (escapeHtml v))
     /\ ampersandsBeginEntities (list_ascii_of_string (escapeHtml v)))
  /\ (forall g : community,
        renderCard g
        = cardHead +:+ escapeHtml (name g) +:+ cardTail (memberCount g) (id g))
  /\ (forall g groups,
        renderOwnedGroups (g :: groups) = join "" (map renderCard (g :: groups))).
Proof.
  split; [|split; reflexivity].
  intros v. unfold escapeHtml.
  pose proof (escapeString_Escaped (ToString v)) as He.
  split; [now apply Escaped_noMarkupChars | now apply Escaped_ampersands].
Qed.

End RenderFacts.

Example escapeHtml_sample :
  escapeHtml (VStr "<b>Tom & 'Jerry'</b>")
  = "&lt;b&gt;Tom &amp; &#39;Jerry&#39;&lt;/b&gt;".
Proof. vm_compute. reflexivity. Qed.

Lemma escapeHtml_escapes_markup_witness :
  noMarkupChars (list_ascii_of_string (escapeHtml (VStr "<b>Tom & 'Jerry'</b>")))
  /\ ampersandsBeginEntities
       (list_ascii_of_string (escapeHtml (VStr "<b>Tom & 'Jerry'</b>"))).
Proof.
  exact (proj1 (escapeHtml_escapes_markup (H := Reference.host))
           (VStr "<b>Tom & 'Jerry'</b>")).
Defined.

(** ** The snapshot cache *)

Section SnapshotFacts.
Context `{Host}.

(** What readSnapshot does reject. *)
Lemma readSnapshot_null (ls : storage) (now : Z) (key : string) (maxAgeMs : Z) :
  (ls = StorageDenied
   \/ (exists entries, ls = Stored entries /\
       (entries !! key = None
        \/ exists raw, entries !! key = Some raw /\
           (JSON_parse raw = None
            \/ exists parsed, JSON_parse raw = Some parsed /\
               (typeofObject parsed = false
                \/ parsed = VNull
                \/ (exists t, numberOr0 (optProp parsed "updatedAtMs") = Int t
                              /\ (t <= 0 \/ maxAgeMs < now - t))%Z))))) ->
  readSnapshot ls now key (Int maxAgeMs) = VNull.
Proof.
  intros [->|(entries & -> & Hcase)]; [reflexivity |]. unfold readSnapshot.
  destruct Hcase as [->|(raw & -> & Hraw)]; [reflexivity |].
  destruct (String.eqb raw ""); [reflexivity |].
  destruct Hraw as [->|(parsed & -> & Hparsed)]; [reflexivity |].
  destruct (negb (truthy parsed) || negb (typeofObject parsed)) eqn:Echeck;
    [reflexivity |].
  apply orb_false_elim in Echeck as [Etruthy Eobject].
  apply negb_false_iff in Etruthy, Eobject.
  destruct Hparsed as [Hobject|[->|(t & -> & Ht)]]; [congruence | discriminate |].
  simpl. destruct (t <=? 0)%Z eqn:Et; [reflexivity |].
  apply Z.leb_gt in Et. destruct Ht as [Ht|Ht]; [lia |].
  unfold num_gtb. simpl.
  destruct (maxAgeMs <? now - t)%Z eqn:Eage; [reflexivity |].
  apply Z.ltb_ge in Eage. lia.
Qed.

(** What it does not: a timestamp that does not read as a number passes
    both comparisons, whatever the age limit and the time of the read. *)
Lemma readSnapshot_NaN (entries : gmap string string) (now : Z) (key raw : string)
    (maxAgeMs : number) (props : list (string * value)) :
  entries !! key = Some raw ->
  raw <> "" ->
  JSON_parse raw = Some (VObj props) ->
  numberOr0 (lookupProp "updatedAtMs" props) = NaN ->
  readSnapshot (Stored entries) now key maxAgeMs = VObj props.
Proof.
  intros Hraw Hne Hparse Hnan. unfold readSnapshot. rewrite Hraw.
  apply String.eqb_neq in Hne. rewrite Hne, Hparse. simpl.
  rewrite Hnan. unfold num_gtb, num_ltb. simpl. now destruct maxAgeMs.
Qed.

(** A snapshot with a positive timestamp that survives the JSON codec is
    read back as written, as long as the store takes it and the read
    comes within the age limit. *)
Lemma readSnapshot_after_write (entries : gmap string string) (now : Z) (key text : string)
    (maxAgeMs updated : Z) (props : list (string * value)) :
  JSON_stringify (VObj props) = Some text ->
  text <> "" ->
  JSON_parse text = Some (VObj props) ->
  storageAccepts key text = true ->
  numberOr0 (lookupProp "updatedAtMs" props) = Int updated ->
  (0 < updated)%Z ->
  (now - updated <= maxAgeMs)%Z ->
  readSnapshot (writeSnapshot (Stored entries) key (VObj props)) now key (Int maxAgeMs)
  = VObj props.
Proof.
  intros Hprint Hne Hparse Haccept Hupdated Hpos Hage.
  unfold writeSnapshot. rewrite Hprint, Haccept. unfold readSnapshot.
  rewrite lookup_insert_eq.
  apply String.eqb_neq in Hne. rewrite Hne, Hparse. simpl. rewrite Hupdated. simpl.
  destruct (updated <=? 0)%Z eqn:E; [apply Z.leb_le in E; lia |].
  unfold num_gtb. simpl.
  destruct (maxAgeMs <? now - updated)%Z eqn:E'; [apply Z.ltb_lt in E'; lia |].
  reflexivity.
Qed.

End SnapshotFacts.

Example readSnapshot_after_write_sample :
  readSnapshot (H := Reference.host)
    (writeSnapshot (H := Reference.host) (Stored ∅) CACHE_KEY sample_snapshot)
    1790000300000 CACHE_KEY (Int CACHE_MAX_AGE_MS)
  = sample_snapshot.
Proof. vm_compute. reflexivity. Qed.

Example readSnapshot_too_old_sample :
  readSnapshot (H := Reference.host)
    (writeSnapshot (H := Reference.host) (Stored ∅) CACHE_KEY sample_snapshot)
    1790000600001 CACHE_KEY (Int CACHE_MAX_AGE_MS)
  = VNull.
Proof. vm_compute. reflexivity. Qed.

(** C6, where the script falls short of it: the stored entry parses to an
    object whose [updatedAtMs] is a date string, which is no positive
    number ([Number] makes it [NaN]); readSnapshot nevertheless returns
    the entry instead of [null], under the ten-minute limit and under the
    one-day limit alike, and at any time of reading. *)
Theorem readSnapshot_returns_entry_without_timestamp (now : Z) :
  JSON_parse (Host := Reference.host) sample_stale_text = Some sample_stale
  /\ ToNumber (H := Reference.host) (optProp sample_stale "updatedAtMs") = NaN
  /\ readSnapshot (H := Reference.host) (Stored {[ CACHE_KEY := sample_stale_text ]})
       now CACHE_KEY (Int CACHE_MAX_AGE_MS) = sample_stale
  /\ readSnapshot (H := Reference.host) (Stored {[ CACHE_KEY := sample_stale_text ]})
       now CACHE_KEY (Int CACHE_FAILOVER_MAX_AGE_MS) = sample_stale
  /\ sample_stale <> VNull.
Proof.
  assert (Hparse : JSON_parse (Host := Reference.host) sample_stale_text = Some sample_stale)
    by (vm_compute; reflexivity).
  assert (Hnan : ToNumber (H := Reference.host) (optProp sample_stale "updatedAtMs") = NaN)
    by (vm_compute; reflexivity).
  split; [exact Hparse |]. split; [exact Hnan |].
  split; [|split; [|discriminate]];
    apply (readSnapshot_NaN (H := Reference.host)) with (raw := sample_stale_text);
    try exact Hparse; try exact Hnan;
    try (apply lookup_singleton_eq); try (vm_compute; discriminate).
Qed.

(** * Further properties *)

(** ** The chunk loop *)

Lemma sliceLoop_partition {A} (step fuel index : nat) (values : list A) :
  0 < step ->
  length values - index < fuel ->
  exists chunks,
    sliceLoop fuel step index values = Some chunks
    /\ concat chunks = drop index values
    /\ Forall (fun chunk => 1 <= length chunk <= step) chunks
    /\ (forall i chunk, chunks !! i = Some chunk -> S i < length chunks ->
          length chunk = step)
    /\ length values - index <= length chunks * step
    /\ length chunks * step < length values - index + step.
Proof.
  intros Hstep. revert index.
  induction fuel as [|fuel IH]; intros index Hfuel; [lia |].
  cbn [sliceLoop]. destruct (index <? length values)%nat eqn:E.
  - apply Nat.ltb_lt in E.
    destruct (IH (index + step)) as (rest & -> & Hcat & Hall & Hfull & Hlo & Hhi);
      [lia |].
    exists (slice values index (index + step) :: rest).
    assert (Hslice : slice values index (index + step) = take step (drop index values)).
    { unfold slice. f_equal. lia. }
    assert (Hlen : length (slice values index (index + step))
                   = Nat.min step (length values - index)).
    { rewrite Hslice, length_take, length_drop. reflexivity. }
    cbn [option_map concat length]. split; [reflexivity |]. split; [|split; [|split]].
    + rewrite Hcat, Hslice, <- drop_drop. apply take_drop.
    + constructor; [lia | exact Hall].
    + intros [|i] chunk Hi Hmore; cbn in Hi.
      * injection Hi as <-. rewrite Hlen.
        destruct rest as [|c rest]; [simpl in Hmore; lia |].
        simpl in Hlo, Hhi. lia.
      * apply (Hfull i chunk Hi). simpl in Hmore. lia.
    + cbn [Nat.mul].
      destruct (decide (step <= length values - index)) as [Hbig|Hsmall]; [lia |].
      assert (Hnone : length rest = 0).
      { destruct (length rest) as [|k]; [reflexivity | simpl in Hhi; lia]. }
      rewrite Hnone. simpl. lia.
  - apply Nat.ltb_ge in E. exists []. cbn.
    rewrite drop_ge by exact E. repeat split; try constructor; try lia.
Qed.

Lemma sliceLoop_zero_step {A} (fuel index : nat) (values : list A) :
  index < length values -> sliceLoop fuel 0 index values = None.
Proof.
  revert index. induction fuel as [|fuel IH]; intros index Hindex; [reflexivity |].
  cbn [sliceLoop]. apply Nat.ltb_lt in Hindex as E. rewrite E.
  rewrite IH by lia. reflexivity.
Qed.

(** X1: whatever the list of universe ids, the chunks of
    getUniversePlayingById are formed after finitely many turns, put
    together they are the list again, each holds at least one and at most
    100 ids, all but the last hold exactly 100, and there are as many of
    them as it takes: the least count whose hundredfold covers the list. *)
Theorem universeChunks_partition (universeIds : list number) :
  exists chunks,
    universeChunks universeIds = Some chunks
    /\ concat chunks = universeIds
    /\ Forall (fun chunk => 1 <= length chunk <= 100) chunks
    /\ (forall i chunk, chunks !! i = Some chunk -> S i < length chunks ->
          length chunk = 100)
    /\ length universeIds <= length chunks * 100
    /\ length chunks * 100 < length universeIds + 100.
Proof.
  unfold universeChunks.
  destruct (sliceLoop_partition 100 (S (length universeIds)) 0 universeIds)
    as (chunks & Hchunks & Hcat & Hall & Hfull & Hlo & Hhi); [lia | lia |].
  exists chunks. rewrite drop_0 in Hcat. rewrite Nat.sub_0_r in Hlo, Hhi. auto 10.
Qed.

(** X2: chunkArray of the earlier revision, for a chunk size of at least
    1: it returns, the chunks put together are the input, each chunk has
    between 1 and [chunkSize] elements, all but the last have exactly
    [chunkSize], and their number is the least that covers the input. *)
Theorem chunkArray_partition {A} (values : list A) (chunkSize : nat) :
  0 < chunkSize ->
  exists chunks,
    chunkArray values chunkSize = Some chunks
    /\ concat chunks = values
    /\ Forall (fun chunk => 1 <= length chunk <= chunkSize) chunks
    /\ (forall i chunk, chunks !! i = Some chunk -> S i < length chunks ->
          length chunk = chunkSize)
    /\ length values <= length chunks * chunkSize
    /\ length chunks * chunkSize < length values + chunkSize.
Proof.
  intros Hsize. unfold chunkArray.
  destruct (sliceLoop_partition chunkSize (S (length values)) 0 values Hsize)
    as (chunks & Hchunks & Hcat & Hall & Hfull & Hlo & Hhi); [lia |].
  exists chunks. rewrite drop_0 in Hcat. rewrite Nat.sub_0_r in Hlo, Hhi. auto 10.
Qed.

Lemma chunkArray_partition_witness :
  exists chunks,
    chunkArray [1; 2; 3; 4; 5; 6; 7] 3 = Some chunks
    /\ concat chunks = [1; 2; 3; 4; 5; 6; 7]
    /\ Forall (fun chunk => 1 <= length chunk <= 3) chunks
    /\ (forall i chunk, chunks !! i = Some chunk -> S i < length chunks ->
          length chunk = 3)
    /\ length [1; 2; 3; 4; 5; 6; 7] <= length chunks * 3
    /\ length chunks * 3 < length [1; 2; 3; 4; 5; 6; 7] + 3.
Proof.
  apply (chunkArray_partition [1; 2; 3; 4; 5; 6; 7] 3). lia.
Defined.

(** X3: with a chunk size of 0 the loop of chunkArray never ends on a
    non-empty input: the index stays at 0, below the length, however many
    turns the loop is given. *)
Theorem chunkArray_zero_never_returns {A} (values : list A) :
  values <> [] ->
  (forall fuel, sliceLoop fuel 0 0 values = None)
  /\ chunkArray values 0 = None.
Proof.
  intros Hne.
  assert (Hlen : 0 < length values) by (destruct values; [contradiction | simpl; lia]).
  split; [intros fuel |]; now apply sliceLoop_zero_step.
Qed.

Lemma chunkArray_zero_never_returns_witness :
  (forall fuel, sliceLoop fuel 0 0 [7; 8] = None) /\ chunkArray [7; 8] 0 = None.
Proof.
  apply (chunkArray_zero_never_returns [7; 8]). discriminate.
Defined.

(** ** getUniversePlayingById *)

Lemma foldResult_invariant {A S} (P : S -> Prop) (f : S -> A -> result S)
    (items : list A) (acc r : S) :
  (forall acc x acc', P acc -> f acc x = Ok acc' -> P acc') ->
  P acc -> foldResult f items acc = Ok r -> P r.
Proof.
  intros Hstep. revert acc. induction items as [|x items IH]; intros acc Hacc; simpl.
  - now intros [= <-].
  - destruct (f acc x) as [acc'|e] eqn:Ef; simpl; [|discriminate].
    apply IH. now apply (Hstep acc x).
Qed.

Section UniverseFacts.
Context `{Host}.
Context {World : Type} (fetch : World -> string -> fetchOutcome * World).

Lemma recordPlaying_keys m item m' :
  playingKeys m -> recordPlaying m item = Ok m' -> playingKeys m'.
Proof.
  intros [Hnd Hpos]. unfold recordPlaying.
  destruct (getProp item "id") as [idv|e]; simpl; [|discriminate].
  destruct (num_leb (numberOr0 idv) (Int 0)) eqn:Eid; intros [= <-]; [now split |].
  split; [now apply map_set_NoDup |].
  intros k Hk. destruct (decide (numberOr0 idv ∈ map_keys m)) as [Hin|Hin].
  - rewrite map_keys_set_in in Hk by exact Hin. now apply Hpos.
  - rewrite map_keys_set_notin in Hk by exact Hin.
    apply elem_of_app in Hk as [Hk|Hk]; [now apply Hpos |].
    apply list_elem_of_singleton in Hk. now subst.
Qed.

Lemma recordResponse_keys m response m' :
  playingKeys m -> recordResponse m response = Ok m' -> playingKeys m'.
Proof.
  intros Hm. unfold recordResponse.
  destruct (getProp response "data") as [data|e]; simpl; [|discriminate].
  intros Hfold.
  exact (foldResult_invariant playingKeys _ _ _ _
           (fun acc x acc' => recordPlaying_keys acc x acc') Hm Hfold).
Qed.

Lemma mapOneWorker_requests (chunks : list (list number)) (st st' : state)
    (r : result (list value)) :
  mapOneWorker (fun chunk => fetchJson fetch "games" (universePath chunk)) chunks st
  = (r, st') ->
  exists k,
    k <= length chunks
    /\ requestsOf (trace st')
       = requestsOf (trace st) ++ map universePath (take k chunks)
    /\ (chunks <> [] -> 0 < k)
    /\ (forall responses, r = Ok responses -> k = length chunks).
Proof.
  revert st st' r. induction chunks as [|chunk chunks IH]; intros st st' r; simpl.
  - unfold ret. intros [= <- <-]. exists 0. simpl. rewrite app_nil_r.
    repeat split; [lia | congruence].
  - unfold mbindM at 1.
    destruct (fetchJson fetch "games" (universePath chunk) st)
      as [[response|e] st1] eqn:Efetch; apply fetchJson_requests in Efetch.
    + unfold mbindM at 1.
      destruct (mapOneWorker _ chunks st1) as [[responses|e] st2] eqn:Erest;
        destruct (IH _ _ _ Erest) as (k & Hk & Hreq & _ & Hall).
      * unfold ret. intros [= <- <-]. exists (S k). simpl.
        rewrite Hreq, Efetch, <- app_assoc. simpl.
        repeat split; [lia | lia |]. intros _ _. now rewrite (Hall responses).
      * intros [= <- <-]. exists (S k). simpl.
        rewrite Hreq, Efetch, <- app_assoc. simpl.
        repeat split; [lia | lia | discriminate].
    + intros [= <- <-]. exists 1. simpl. rewrite ?take_0, Efetch.
      repeat split; [lia | lia | discriminate].
Qed.

(** X4: getUniversePlayingById always returns.  It asks for the chunks
    of the id list in order, each at most once, and stops at the first
    request that fails: the requests it made are those for a first part
    of the chunks, for all of them when it succeeds, for none when the
    list is empty, and for at least one otherwise. *)
Theorem getUniversePlayingById_requests (universeIds : list number) (st : state) :
  exists chunks k r st',
    universeChunks universeIds = Some chunks
    /\ getUniversePlayingById fetch universeIds st = Some (r, st')
    /\ k <= length chunks
    /\ requestsOf (trace st')
       = requestsOf (trace st) ++ map universePath (take k chunks)
    /\ (forall playingById, r = Ok playingById -> k = length chunks)
    /\ (universeIds = [] <-> k = 0).
Proof.
  destruct (sliceLoop_partition 100 (S (length universeIds)) 0 universeIds)
    as (chunks & Hchunks & Hcat & Hall & _ & Hlo & Hhi); [lia | lia |].
  rewrite Nat.sub_0_r in Hlo, Hhi. fold (universeChunks universeIds) in Hchunks.
  unfold getUniversePlayingById. rewrite Hchunks.
  destruct universeIds as [|universeId universeIds].
  - exists chunks, 0, (Ok []), st. simpl. rewrite app_nil_r.
    repeat split; try reflexivity; try lia.
    intros m _. simpl in Hhi. destruct chunks; [reflexivity | simpl in Hhi; lia].
  - cbn [length Nat.eqb]. unfold mbindM at 1.
    destruct (mapOneWorker _ chunks st) as [[responses|e] st1] eqn:Emap;
      destruct (mapOneWorker_requests _ _ _ _ Emap) as (k & Hk & Hreq & Hpos & Hdone).
    + unfold lift. exists chunks, k. eexists _, _.
      split; [reflexivity |]. split; [reflexivity |]. split; [exact Hk |].
      split; [exact Hreq |]. split; [intros m _; now apply (Hdone responses) |].
      split; [discriminate |]. intros ->. exfalso.
      assert (chunks <> []) by (intros ->; simpl in Hlo; lia).
      specialize (Hpos ltac:(assumption)). lia.
    + exists chunks, k. eexists _, _.
      split; [reflexivity |]. split; [reflexivity |]. split; [exact Hk |].
      split; [exact Hreq |]. split; [discriminate |].
      split; [discriminate |]. intros ->. exfalso.
      assert (chunks <> []) by (intros ->; simpl in Hlo; lia).
      specialize (Hpos ltac:(assumption)). lia.
Qed.

(** X5: in the map that getUniversePlayingById returns no universe id
    occurs twice and none is zero or negative (an id that is not a number
    passes the guard and is kept under NaN). *)
Theorem getUniversePlayingById_keys (universeIds : list number) (st st' : state)
    (playingById : jsmap number) :
  getUniversePlayingById fetch universeIds st = Some (Ok playingById, st') ->
  NoDup (map_keys playingById)
  /\ forall k, k ∈ map_keys playingById -> num_leb k (Int 0) = false.
Proof.
  assert (Hempty : playingKeys ([] : jsmap number)).
  { split; [apply NoDup_nil_2 | intros k Hk; now apply elem_of_nil in Hk]. }
  unfold getUniversePlayingById.
  destruct (length universeIds =? 0)%nat; [intros [= <- <-]; exact Hempty |].
  destruct (universeChunks universeIds) as [chunks|]; [|discriminate].
  unfold mbindM. destruct (mapOneWorker _ chunks st) as [[responses|e] st1];
    [|discriminate].
  unfold lift. intros [= Hfold <-].
  exact (foldResult_invariant playingKeys _ _ _ _
           (fun acc x acc' => recordResponse_keys acc x acc') Hempty Hfold).
Qed.

End UniverseFacts.

Lemma getUniversePlayingById_keys_witness :
  NoDup (map_keys [(Int 1, Int 7)])
  /\ forall k, k ∈ map_keys [(Int 1, Int 7)] -> num_leb k (Int 0) = false.
Proof.
  eapply (getUniversePlayingById_keys (H := Reference.host) sample_playing_net
            [Int 1] (fresh tt)).
  vm_compute. reflexivity.
Defined.

(** ** Maps filled by a loop of [set]: the last value for a key wins *)

Section LastWins.
Context {X : Type} (key : X -> number).

Lemma fold_set_invariant (xs : list X) (m : jsmap X) :
  NoDup (map_keys m) -> (forall k x, (k, x) ∈ m -> k = key x) ->
  NoDup (map_keys (fold_left (fun m x => map_set (key x) x m) xs m))
  /\ (forall k x, (k, x) ∈ fold_left (fun m x => map_set (key x) x m) xs m -> k = key x).
Proof.
  revert m. induction xs as [|x xs IH]; intros m Hnd Hk; simpl; [auto |].
  apply IH.
  - now apply map_set_NoDup.
  - intros k x' [Hin|[-> ->]]%elem_of_map_set; [now apply Hk | reflexivity].
Qed.

Lemma fold_set_get_last (pre : list X) (x : X) (post : list X) (m : jsmap X) :
  (forall x', x' ∈ post -> key x' <> key x) ->
  map_get (key x) (fold_left (fun m x => map_set (key x) x m) (pre ++ x :: post) m)
  = Some x.
Proof.
  intros Hpost. rewrite fold_left_app. simpl.
  generalize (fold_left (fun m x => map_set (key x) x m) pre m). intros m1.
  assert (Hget : map_get (key x) (map_set (key x) x m1) = Some x)
    by apply map_get_set_eq.
  revert Hget. generalize (map_set (key x) x m1). clear m1.
  induction post as [|y post IH]; intros m1 Hget; simpl; [exact Hget |].
  apply IH.
  - intros x' Hin. apply Hpost. now right.
  - rewrite map_get_set_ne; [exact Hget |]. apply Hpost. left.
Qed.

Lemma fold_set_get_inv (xs : list X) (m : jsmap X) (k : number) (x : X) :
  map_get k (fold_left (fun m x => map_set (key x) x m) xs m) = Some x ->
  (exists pre post, xs = pre ++ x :: post /\ key x = k
                    /\ forall x', x' ∈ post -> key x' <> k)
  \/ (map_get k m = Some x /\ forall x', x' ∈ xs -> key x' <> k).
Proof.
  induction xs as [|y xs IH] using rev_ind; simpl.
  - intros Hget. right. split; [exact Hget |].
    intros x' Hin. now apply elem_of_nil in Hin.
  - rewrite fold_left_app. simpl.
    destruct (decide (key y = k)) as [<-|Hne].
    + rewrite map_get_set_eq. intros [= ->]. left. exists xs, [].
      repeat split. intros x' Hin. now apply elem_of_nil in Hin.
    + rewrite map_get_set_ne by exact Hne. intros Hget.
      destruct (IH Hget) as [(pre & post & -> & Hid & Hpost)|[Hm Hall]].
      * left. exists pre, (post ++ [y]). rewrite <- app_assoc.
        repeat split; [exact Hid |].
        intros x' [Hin|Hin]%elem_of_app; [now apply Hpost |].
        apply list_elem_of_singleton in Hin. now subst.
      * right. split; [exact Hm |].
        intros x' [Hin|Hin]%elem_of_app; [now apply Hall |].
        apply list_elem_of_singleton in Hin. now subst.
Qed.

Lemma fold_set_values (xs : list X) :
  let m := fold_left (fun m x => map_set (key x) x m) xs [] in
  NoDup (map key (map_values m))
  /\ (forall x, x ∈ map_values m <->
        exists pre post, xs = pre ++ x :: post
                         /\ forall x', x' ∈ post -> key x' <> key x)
  /\ length (map_values m) <= length xs.
Proof.
  intros m.
  destruct (fold_set_invariant xs []) as [Hnd Hk].
  { apply NoDup_nil_2. }
  { intros k x Hin. now apply elem_of_nil in Hin. }
  fold m in Hnd, Hk. split; [|split].
  - assert (E : map key (map_values m) = map_keys m); [|now rewrite E].
    unfold map_values, map_keys. rewrite map_map.
    apply map_ext_in. intros [k x] Hin. simpl. symmetry. apply Hk.
    now apply list_elem_of_In.
  - intros x. split.
    + intros [k Hin]%map_values_elem. pose proof (Hk _ _ Hin) as ->.
      apply (map_get_elem _ _ _ Hnd) in Hin.
      destruct (fold_set_get_inv _ _ _ _ Hin) as [(pre & post & -> & _ & Hpost)|[Hm _]];
        [eauto | discriminate].
    + intros (pre & post & -> & Hpost). apply map_values_elem. exists (key x).
      apply (map_get_elem _ _ _ Hnd). now apply fold_set_get_last.
  - unfold map_values. rewrite length_map. subst m.
    assert (Hlen : forall ys (m0 : jsmap X),
               length (fold_left (fun m x => map_set (key x) x m) ys m0)
               <= length m0 + length ys).
    { induction ys as [|y ys IH]; intros m0; simpl; [lia |].
      specialize (IH (map_set (key y) y m0)).
      assert (length (map_set (key y) y m0) <= S (length m0)); [|lia].
      clear. induction m0 as [|[k v] m0 IH]; simpl; [lia |].
      destruct (sameValueZero k (key y)); simpl; lia. }
    apply (Hlen xs []).
Qed.

End LastWins.

(** ** collectGames *)

Section CollectMore.
Context `{Host}.

Lemma collectGame_cases m g :
  (nullish g = true /\ exists e, collectGame m g = Throw e)
  \/ (nullish g = false
      /\ collectGame m g
         = Ok (if num_leb (universeId (gameOf g)) (Int 0) then m
               else map_set (universeId (gameOf g)) (gameOf g) m)).
Proof.
  unfold collectGame, gameOf.
  destruct g; cbn [getProp optProp nullish bind universeId];
    try (left; split; [reflexivity | eauto]);
    right; (split; [reflexivity |]);
    match goal with |- context [num_leb ?n (Int 0)] => destruct (num_leb n (Int 0)) end;
    reflexivity.
Qed.

Lemma collectLoop_cases items m :
  (Exists (fun g => nullish g = true) items /\ exists e, collectLoop items m = Throw e)
  \/ (Forall (fun g => nullish g = false) items
      /\ collectLoop items m
         = Ok (fold_left (fun m r => map_set (universeId r) r m) (keptRecords items) m)).
Proof.
  revert m. induction items as [|g items IH]; intros m.
  - right. split; [constructor | reflexivity].
  - cbn [collectLoop].
    destruct (collectGame_cases m g) as [[Hg [e ->]]|[Hg ->]].
    + left. split; [now left | now exists e].
    + cbn [bind].
      match goal with |- context [collectLoop items ?m1] =>
        destruct (IH m1) as [[Hex [e ->]]|[Hall ->]] end.
      * left. split; [now right | now exists e].
      * right. split; [now constructor |]. f_equal.
        unfold keptRecords, keepsGame. rewrite filter_cons.
        destruct (num_leb (universeId (gameOf g)) (Int 0)) eqn:Eg.
        -- rewrite decide_False by congruence. reflexivity.
        -- rewrite decide_True by reflexivity. reflexivity.
Qed.

(** X6: when collectGames returns a list, no universe id occurs twice in
    it and none is zero or negative; its records are exactly the records
    of the items that pass the guard and are not followed by another such
    item with the same universe id (the last record for an id wins); and
    it has at most as many records as there are items. *)
Theorem collectGames_unique_last_wins (userGames groupGames : list value)
    (games : list game) :
  collectGames userGames groupGames = Ok games ->
  NoDup (map universeId games)
  /\ (forall r, r ∈ games -> num_leb (universeId r) (Int 0) = false)
  /\ (forall r, r ∈ games <->
        exists before after,
          keptRecords (userGames ++ groupGames) = before ++ r :: after
          /\ forall r', r' ∈ after -> universeId r' <> universeId r)
  /\ length games <= length (userGames ++ groupGames).
Proof.
  unfold collectGames.
  destruct (collectLoop_cases (userGames ++ groupGames) []) as [[_ [e ->]]|[_ ->]];
    [discriminate |].
  cbn [bind]. intros [= <-].
  destruct (fold_set_values universeId (keptRecords (userGames ++ groupGames)))
    as (Hnd & Helem & Hlen).
  split; [exact Hnd |]. split; [|split; [exact Helem |]].
  - intros r Hr. apply Helem in Hr as (before & after & Hkept & _).
    assert (Hin : r ∈ keptRecords (userGames ++ groupGames)).
    { rewrite Hkept. apply elem_of_app. right. left. }
    unfold keptRecords in Hin. apply list_elem_of_fmap in Hin as (g & -> & Hg).
    now apply list_elem_of_filter in Hg as [Hg _].
  - etransitivity; [exact Hlen |]. unfold keptRecords.
    rewrite length_map. apply length_filter.
Qed.


End CollectMore.

Lemma collectGames_unique_last_wins_witness :
  NoDup (map universeId
           [gameOf (H := Reference.host) (sample_game 1 11 100);
            gameOf (H := Reference.host) (sample_game 2 23 250)])
  /\ length [gameOf (H := Reference.host) (sample_game 1 11 100);
             gameOf (H := Reference.host) (sample_game 2 23 250)]
     <= length ([sample_game 1 11 100; sample_game 2 22 200; sample_game 0 5 5]
                ++ [sample_game 2 23 250]).
Proof.
  destruct (collectGames_unique_last_wins (H := Reference.host)
              [sample_game 1 11 100; sample_game 2 22 200; sample_game 0 5 5]
              [sample_game 2 23 250]
              [gameOf (H := Reference.host) (sample_game 1 11 100);
               gameOf (H := Reference.host) (sample_game 2 23 250)] eq_refl)
    as (Hnd & _ & _ & Hlen).
  split; [exact Hnd | exact Hlen].
Defined.

(** ** getOwnedGroups: order and errors *)

Lemma descending_cons x l :
  descendingByMembers (x :: l)
  <-> (forall y, y ∈ l -> num_leb (memberCount y) (memberCount x) = true)
      /\ descendingByMembers l.
Proof.
  unfold descendingByMembers. split.
  - intros Hd. split.
    + intros y [j Hj]%list_elem_of_lookup. apply (Hd 0 (S j) x y); [lia | reflexivity | exact Hj].
    + intros i j a b Hij Hi Hj. apply (Hd (S i) (S j) a b); [lia | exact Hi | exact Hj].
  - intros [Hx Hl] i j a b Hij Hi Hj. destruct j as [|j]; [lia |].
    destruct i as [|i]; simpl in Hi, Hj.
    + injection Hi as <-. apply Hx. apply list_elem_of_lookup. eauto.
    + apply (Hl i j a b); [lia | exact Hi | exact Hj].
Qed.

Lemma insertSorted_descending x l :
  memberCount x <> NaN -> Forall (fun g => memberCount g <> NaN) l ->
  descendingByMembers l -> descendingByMembers (insertSorted fewerMembers x l).
Proof.
  intros Hx. induction l as [|y l IH]; intros Hl Hd; simpl.
  - apply descending_cons. split; [|intros i j a b _ Hi; discriminate].
    intros z Hz. now apply elem_of_nil in Hz.
  - apply Forall_cons in Hl as [Hy Hl].
    apply descending_cons in Hd as [Hyl Hd].
    unfold fewerMembers at 1, num_gtb, num_ltb, num_sub.
    destruct (memberCount x) as [|cx] eqn:Ex; [congruence |].
    destruct (memberCount y) as [|cy] eqn:Ey; [congruence |].
    destruct (0 <? cy - cx)%Z eqn:Ecmp.
    + apply descending_cons. split; [|now apply IH].
      intros z Hz. rewrite ?Ey.
      assert (Hz' : z ∈ x :: l).
      { rewrite <- (insertSorted_Permutation fewerMembers x l). exact Hz. }
      apply elem_of_cons in Hz' as [->|Hz'].
      * rewrite ?Ex. simpl. lia.
      * specialize (Hyl z Hz'). rewrite ?Ey in Hyl. exact Hyl.
    + apply descending_cons. split.
      * intros z [->|Hz]%elem_of_cons.
        -- rewrite ?Ex, ?Ey. simpl. lia.
        -- specialize (Hyl z Hz). rewrite ?Ey in Hyl. rewrite ?Ex.
           destruct (memberCount z) as [|cz]; simpl in *; [discriminate | lia].
      * apply descending_cons. split; [|exact Hd].
        intros z Hz. specialize (Hyl z Hz). rewrite ?Ey. exact Hyl.
Qed.

Lemma sortWith_descending l :
  Forall (fun g => memberCount g <> NaN) l ->
  descendingByMembers (sortWith fewerMembers l).
Proof.
  induction l as [|x l IH]; intros Hl; simpl.
  - intros i j a b _ Hi. discriminate.
  - apply Forall_cons in Hl as [Hx Hl]. apply insertSorted_descending.
    + exact Hx.
    + apply Forall_forall. intros g Hg. rewrite Forall_forall in Hl. apply Hl.
      now rewrite <- (sortWith_Permutation fewerMembers l).
    + now apply IH.
Qed.


Section OwnedGroupsMore.
Context `{Host}.





Context {World : Type} (fetch : World -> string -> fetchOutcome * World).

(** X8: the groups that getOwnedGroups returns are in descending order of
    member count, provided no member count is NaN (with a NaN count the
    comparator is not an order). *)
Theorem getOwnedGroups_descending (userId : number) (st st' : state)
    (groups : list community) :
  getOwnedGroups fetch userId st = (Ok groups, st') ->
  (forall g, g ∈ groups -> memberCount g <> NaN) ->
  descendingByMembers groups.
Proof.
  unfold getOwnedGroups, mbindM, lift.
  destruct (fetchJson fetch "groups" _ st) as [[payload|e] st1]; [|discriminate].
  intros [= Hgroups _]. unfold ownedGroupsOfPayload in Hgroups.
  destruct (getProp payload "data") as [data|e]; [|discriminate].
  cbn [bind] in Hgroups.
  destruct (mapResult toCommunity _) as [owned|e]; [|discriminate].
  cbn [bind] in Hgroups. injection Hgroups as <-.
  intros Hnum. apply sortWith_descending. apply Forall_forall. intros g Hg.
  apply Hnum. now rewrite (sortWith_Permutation fewerMembers).
Qed.


End OwnedGroupsMore.

Lemma getOwnedGroups_descending_witness : descendingByMembers sample_owned.
Proof.
  apply (getOwnedGroups_descending (H := Reference.host) sample_roles_net
           (Int 295052682) (fresh tt) sample_owned_run.2 sample_owned).
  - vm_compute. reflexivity.
  - intros g Hg. apply list_elem_of_In in Hg. simpl in Hg.
    destruct Hg as [<-|[<-|[]]]; discriminate.
Defined.


(** ** buildTotals *)












(** ** fetchJson: the second host *)

Section FallbackFacts.
Context `{Host}.
Context {World : Type} (fetch : World -> string -> fetchOutcome * World).

Lemma attemptFailed_all outcomes o e :
  Forall attemptFailed (removelast outcomes) -> last outcomes = Some o ->
  attemptResult o = Throw e -> Forall attemptFailed outcomes.
Proof.
  intros Hinit [l ->]%last_Some Ho. rewrite removelast_last in Hinit.
  apply Forall_app. split; [exact Hinit |]. constructor; [now exists e | constructor].
Qed.

(** X12: fetchJson on a service with two hosts asks the first host, up to
    three times, and turns to the second host only when three attempts on
    the first have failed.  The first attempt that succeeds ends the call
    with its body; the call throws only when three attempts on each host
    have failed, and then with the error of the last of them. *)
Theorem fetchJson_falls_back (service host1 host2 path : string) (st st' : state)
    (r : result value) :
  API_HOSTS service = Some [host1; host2] ->
  fetchJson fetch service path st = (r, st') ->
  exists first second last_outcome,
    trace st'
    = trace st ++ Request service path
        :: (attemptsLog waitAfter (host1 +:+ path) 1 first
            ++ attemptsLog waitAfter (host2 +:+ path) 1 second)
    /\ 1 <= length first <= 3 /\ length second <= 3
    /\ (second <> [] -> length first = 3)
    /\ Forall attemptFailed (removelast (first ++ second))
    /\ last (first ++ second) = Some last_outcome
    /\ match attemptResult last_outcome with
       | Ok v => r = Ok v
       | Throw e => r = Throw e /\ length first = 3 /\ length second = 3
       end.
Proof.
  intros Hhosts. unfold fetchJson, mbindM, log. rewrite Hhosts.
  cbn [tryHosts]. unfold tryCatch, fetchAbsoluteJson.
  destruct (fetchAttempts fetch 3 1 None (host1 +:+ path) _) as [[v|e] st1] eqn:E1;
    apply fetchAttempts_log in E1 as (first & Hlen1 & Htrace1 & Hfailed1 & Hlast1);
    simpl in Htrace1;
    (destruct (last first) as [o1|] eqn:El1; [|destruct Hlast1; discriminate]);
    assert (Hpos1 : 1 <= length first)
      by (destruct first; [discriminate | simpl; lia]).
  - intros [= <- <-]. exists first, [], o1. rewrite !app_nil_r.
    split; [now rewrite Htrace1, <- app_assoc |].
    split; [lia |]. split; [simpl; lia |]. split; [congruence |].
    split; [exact Hfailed1 |]. split; [exact El1 |].
    destruct (attemptResult o1); [exact Hlast1 | destruct Hlast1; discriminate].
  - destruct (attemptResult o1) as [v1|e1] eqn:Eo1; [discriminate |].
    destruct Hlast1 as [Hthree1 _].
    pose proof (attemptFailed_all _ _ _ Hfailed1 El1 Eo1) as Hall1.
    destruct (fetchAttempts fetch 3 1 None (host2 +:+ path) st1) as [[v|e2] st2] eqn:E2;
      apply fetchAttempts_log in E2 as (second & Hlen2 & Htrace2 & Hfailed2 & Hlast2);
      (destruct (last second) as [o2|] eqn:El2; [|destruct Hlast2; discriminate]);
      assert (Hne2 : second <> []) by (intros ->; discriminate);
      unfold throw; intros [= <- <-]; exists first, second, o2;
      (split; [rewrite Htrace2, Htrace1, <- !app_assoc; reflexivity |]);
      (split; [lia |]); (split; [exact Hlen2 |]); (split; [intros _; exact Hthree1 |]);
      (split; [rewrite removelast_app by exact Hne2; apply Forall_app; now split |]);
      (split; [now rewrite last_app, El2 |]).
    + destruct (attemptResult o2); [exact Hlast2 | destruct Hlast2; discriminate].
    + destruct (attemptResult o2) as [v2|e']; [discriminate |].
      destruct Hlast2 as [Hthree2 [= ->]]. auto.
Qed.

End FallbackFacts.

Lemma fetchJson_falls_back_witness :
  exists first second last_outcome,
    trace (fetchJson (H := Reference.host) replay "groups" "/v1/x"
             (fresh sample_failover)).2
    = [] ++ Request "groups" "/v1/x"
        :: (attemptsLog (H := Reference.host) (waitAfter (H := Reference.host))
              ("https://groups.roproxy.com" +:+ "/v1/x") 1 first
            ++ attemptsLog (H := Reference.host) (waitAfter (H := Reference.host))
                 ("https://groups.roblox.com" +:+ "/v1/x") 1 second)
    /\ 1 <= length first <= 3 /\ length second <= 3
    /\ (second <> [] -> length first = 3)
    /\ Forall (attemptFailed (H := Reference.host)) (removelast (first ++ second))
    /\ last (first ++ second) = Some last_outcome
    /\ match attemptResult (H := Reference.host) last_outcome with
       | Ok v => Ok (VObj [("data", VArr [])]) = Ok v
       | Throw e => Ok (VObj [("data", VArr [])]) = Throw e
                    /\ length first = 3 /\ length second = 3
       end.
Proof.
  apply (fetchJson_falls_back (H := Reference.host) replay "groups"
           "https://groups.roproxy.com" "https://groups.roblox.com" "/v1/x"
           (fresh sample_failover)).
  - reflexivity.
  - vm_compute. reflexivity.
Defined.

(** ** The earlier fetchJson *)

Section EarlierFetchFacts.
Context {World : Type} (fetch : World -> string -> fetchOutcome * World).

Lemma earlier_attempt_run url st :
  earlier_attempt fetch url st =
    (earlier_attemptResult (fetch (world st) url).1,
     {| world := (fetch (world st) url).2;
        trace := trace st ++ [Fetched url (fetch (world st) url).1] |}).
Proof.
  unfold earlier_attempt, mbindM, callFetch.
  destruct (fetch (world st) url) as [o w]. simpl.
  destruct o as [message|status statusText retryAfter body]; simpl; [reflexivity |].
  destruct (responseOk status); [destruct body |]; reflexivity.
Qed.

(** X13: the earlier fetchJson, on a service with its one host, calls
    [fetch] once or twice.  It returns the body of the first attempt that
    succeeds; after a failed first attempt it waits 225 ms, after a
    failed second one 450 ms, whatever the response says, and then throws
    the error of the second attempt. *)
Theorem earlier_fetchJson_two_attempts (service host path : string) (st st' : state)
    (r : result value) :
  earlier_API_HOSTS service = Some [host] ->
  earlier_fetchJson fetch service path st = (r, st') ->
  (exists o v,
     earlier_attemptResult o = Ok v /\ r = Ok v
     /\ trace st' = trace st ++ [Request service path; Fetched (host +:+ path) o])
  \/ (exists o1 e1 o2 v,
        earlier_attemptResult o1 = Throw e1 /\ earlier_attemptResult o2 = Ok v
        /\ r = Ok v
        /\ trace st' = trace st ++ [Request service path;
                                     Fetched (host +:+ path) o1; Delayed (Int 225);
                                     Fetched (host +:+ path) o2])
  \/ (exists o1 e1 o2 e2,
        earlier_attemptResult o1 = Throw e1 /\ earlier_attemptResult o2 = Throw e2
        /\ r = Throw e2
        /\ trace st' = trace st ++ [Request service path;
                                     Fetched (host +:+ path) o1; Delayed (Int 225);
                                     Fetched (host +:+ path) o2; Delayed (Int 450)]).
Proof.
  intros Hhosts. unfold earlier_fetchJson, mbindM at 1, log. rewrite Hhosts.
  cbn [earlier_tryHosts earlier_attempts]. unfold tryCatch.
  rewrite earlier_attempt_run. cbn [world trace].
  set (o1 := (fetch (world st) (host +:+ path)).1).
  set (w1 := (fetch (world st) (host +:+ path)).2).
  destruct (earlier_attemptResult o1) as [v1|e1] eqn:E1.
  - intros [= <- <-]. left. exists o1, v1. cbn [trace].
    rewrite <- app_assoc. auto.
  - unfold mbindM, delay, log. cbn [world trace].
    rewrite earlier_attempt_run. cbn [world trace].
    set (o2 := (fetch w1 (host +:+ path)).1).
    destruct (earlier_attemptResult o2) as [v2|e2] eqn:E2.
    + intros [= <- <-]. right. left. exists o1, e1, o2, v2. cbn [trace].
      rewrite <- !app_assoc. auto.
    + unfold throw. cbn [world trace]. intros [= <- <-]. right. right.
      exists o1, e1, o2, e2. cbn [trace]. rewrite <- !app_assoc. auto.
Qed.

End EarlierFetchFacts.

Lemma earlier_fetchJson_two_attempts_witness :
  exists o1 e1 o2 v,
    earlier_attemptResult o1 = Throw e1 /\ earlier_attemptResult o2 = Ok v
    /\ trace (earlier_fetchJson replay "games" "/v1/x"
                (fresh sample_throttled)).2
       = [Request "games" "/v1/x";
          Fetched ("https://games.roproxy.com" +:+ "/v1/x") o1; Delayed (Int 225);
          Fetched ("https://games.roproxy.com" +:+ "/v1/x") o2].
Proof.
  destruct (earlier_fetchJson_two_attempts replay "games"
              "https://games.roproxy.com" "/v1/x" (fresh sample_throttled)
              (earlier_fetchJson replay "games" "/v1/x"
                 (fresh sample_throttled)).2
              (Ok (VObj [("data", VArr [])])) eq_refl)
    as [(o & v & _ & _ & Ht)|[(o1 & e1 & o2 & v & H1 & H2 & _ & Ht)
                             |(o1 & e1 & o2 & e2 & _ & _ & Hr & _)]].
  - vm_compute. reflexivity.
  - exfalso. revert Ht. vm_compute. intros Ht.
    apply (f_equal (@length event)) in Ht. discriminate.
  - exists o1, e1, o2, v. auto.
  - discriminate.
Defined.

(** ** getPagedGames: what a call can come to *)

Section PagedMore.
Context `{Host}.
Context {World : Type} (fetch : World -> string -> fetchOutcome * World).

Lemma pagedLoop_inv path fuel cursor games st r st' :
  pagedLoop fetch fuel path cursor games st = Some (r, st') ->
  (exists payloads,
     r = Ok (games ++ concat (map pageItems payloads))
     /\ pagesFrom fetch path cursor st payloads st'
     /\ length payloads <= fuel)
  \/ (exists e payloads cursor1 st1,
        r = Throw e
        /\ pagesBefore fetch path cursor st payloads cursor1 st1
        /\ length payloads < fuel
        /\ pageFails fetch path cursor1 st1 e st').
Proof.
  revert cursor games st. induction fuel as [|fuel IH]; intros cursor games st;
    simpl; [discriminate |].
  destruct (fetchJson fetch "games" (pagePathOf path cursor) st)
    as [[payload|e] st1] eqn:Efetch.
  - destruct (getProp payload "data") as [data|e] eqn:Edata.
    + fold (nextPageCursor payload).
      destruct (truthy (nextPageCursor payload)) eqn:Ecursor.
      * intros Hrest. apply IH in Hrest
          as [(payloads & -> & Hrun & Hlen)
             |(e & payloads & cursor1 & st2 & -> & Hrun & Hlen & Hfail)].
        -- left. exists (payload :: payloads). split.
           { simpl. unfold pageItems at 2. rewrite (getProp_optProp _ _ _ Edata).
             now rewrite <- app_assoc. }
           split; [|simpl; lia]. eapply pages_more; eauto.
        -- right. exists e, (payload :: payloads), cursor1, st2.
           split; [reflexivity |]. split; [|split; [simpl; lia | exact Hfail]].
           eapply before_more; eauto.
      * intros [= <- <-]. left. exists [payload]. split.
        { simpl. unfold pageItems. rewrite (getProp_optProp _ _ _ Edata).
          now rewrite app_nil_r. }
        split; [|simpl; lia]. eapply pages_last; eauto.
    + intros [= <- <-]. right. exists e, [], cursor, st.
      split; [reflexivity |]. split; [constructor |]. split; [simpl; lia |].
      right. exists payload. auto.
  - intros [= <- <-]. right. exists e, [], cursor, st.
    split; [reflexivity |]. split; [constructor |]. split; [simpl; lia |].
    now left.
Qed.


Lemma pagedLoop_endless path :
  (forall pagePath st, exists payload st',
      fetchJson fetch "games" pagePath st = (Ok payload, st')
      /\ truthy (nextPageCursor payload) = true) ->
  forall fuel cursor games st, pagedLoop fetch fuel path cursor games st = None.
Proof.
  intros Hserver. induction fuel as [|fuel IH]; intros cursor games st; simpl;
    [reflexivity |].
  destruct (Hserver (pagePathOf path cursor) st) as (payload & st1 & -> & Hgo).
  assert (Hdata : exists data, getProp payload "data" = Ok data).
  { unfold nextPageCursor in Hgo.
    destruct payload; simpl in *; try discriminate; eauto. }
  destruct Hdata as [data ->]. fold (nextPageCursor payload). rewrite Hgo.
  apply IH.
Qed.

(** X14: a list that getPagedGames returns is always the whole of a run:
    the server answered page after page until a page without a cursor,
    and the list holds the items of all these pages in order. *)
Theorem getPagedGames_returns_whole_runs (fuel : nat) (path : string)
    (st st' : state) (games : list value) :
  getPagedGames fetch fuel path st = Some (Ok games, st') ->
  exists payloads,
    pagesFrom fetch path VNull st payloads st'
    /\ games = concat (map pageItems payloads)
    /\ 1 <= length payloads <= fuel.
Proof.
  unfold getPagedGames. intros Hrun.
  apply pagedLoop_inv in Hrun
    as [(payloads & [= ->] & Hrun & Hlen)|(e & ? & ? & ? & [=] & _)].
  exists payloads. split; [exact Hrun |]. split; [reflexivity |].
  split; [|exact Hlen].
  pose proof (pagesFrom_nonempty _ _ _ _ _ _ Hrun).
  destruct payloads; [contradiction | simpl; lia].
Qed.


(** X16: getPagedGames has no bound on the number of pages: against a
    server whose every answer carries a cursor the loop never ends,
    whatever number of turns it is given. *)
Theorem getPagedGames_endless (path : string) :
  (forall pagePath st, exists payload st',
      fetchJson fetch "games" pagePath st = (Ok payload, st')
      /\ truthy (nextPageCursor payload) = true) ->
  forall fuel st, getPagedGames fetch fuel path st = None.
Proof.
  intros Hserver fuel st. unfold getPagedGames. now apply pagedLoop_endless.
Qed.

(** X17: getGroupGamesSafe never throws.  When a page request of
    getGroupGames fails, it returns the empty list, also when earlier
    pages had come in; otherwise it returns what getGroupGames returns. *)
Theorem getGroupGamesSafe_never_throws (fuel : nat) (groupId : number)
    (st st' : state) (r : result (list value)) :
  getGroupGamesSafe fetch fuel groupId st = Some (r, st') ->
  (exists payloads,
     r = Ok (concat (map pageItems payloads))
     /\ pagesFrom fetch (groupGamesPath groupId) VNull st payloads st')
  \/ (exists payloads cursor st1 e,
        r = Ok []
        /\ pagesBefore fetch (groupGamesPath groupId) VNull st payloads cursor st1
        /\ pageFails fetch (groupGamesPath groupId) cursor st1 e st').
Proof.
  intros Hsafe. unfold getGroupGamesSafe, getGroupGames, getPagedGames in Hsafe.
  fold (groupGamesPath groupId) in Hsafe. set (path := groupGamesPath groupId) in *.
  destruct (pagedLoop fetch fuel path VNull [] st) as [[[games|e] st1]|] eqn:Erun;
    [| |discriminate]; injection Hsafe as <- <-;
    apply pagedLoop_inv in Erun
      as [(payloads & Hr & Hrun & _)|(e' & payloads & cursor & st2 & Hr & Hrun & _ & Hfail)];
    try discriminate.
  - left. exists payloads. injection Hr as ->. auto.
  - right. exists payloads, cursor, st2, e'. auto.
Qed.

End PagedMore.

Lemma getPagedGames_returns_whole_runs_witness :
  exists payloads,
    pagesFrom (H := Reference.host) sample_pages_net sample_path VNull (fresh tt) payloads
      (fetchJson (H := Reference.host) sample_pages_net "games"
         (sample_path +:+ "&cursor=page%202")
         (fetchJson (H := Reference.host) sample_pages_net "games" sample_path
            (fresh tt)).2).2
    /\ [sample_game 1 11 100; sample_game 2 22 200; sample_game 3 33 300]
       = concat (map pageItems payloads)
    /\ 1 <= length payloads <= 5.
Proof.
  apply (getPagedGames_returns_whole_runs (H := Reference.host) sample_pages_net 5
           sample_path (fresh tt)).
  vm_compute. reflexivity.
Defined.

Lemma getGroupGamesSafe_never_throws_witness :
  (exists payloads,
     Ok [] = Ok (concat (map pageItems payloads))
     /\ pagesFrom (H := Reference.host) sample_broken_net (groupGamesPath (Int 7)) VNull
          (fresh tt) payloads
          (fetchJson (H := Reference.host) sample_broken_net "games"
             (groupGamesPath (Int 7) +:+ "&cursor=page%202")
             (fetchJson (H := Reference.host) sample_broken_net "games"
                (groupGamesPath (Int 7)) (fresh tt)).2).2)
  \/ (exists payloads cursor st1 e,
        Ok ([] : list value) = Ok []
        /\ pagesBefore (H := Reference.host) sample_broken_net (groupGamesPath (Int 7))
             VNull (fresh tt) payloads cursor st1
        /\ pageFails (H := Reference.host) sample_broken_net (groupGamesPath (Int 7))
             cursor st1 e
             (fetchJson (H := Reference.host) sample_broken_net "games"
                (groupGamesPath (Int 7) +:+ "&cursor=page%202")
                (fetchJson (H := Reference.host) sample_broken_net "games"
                   (groupGamesPath (Int 7)) (fresh tt)).2).2).
Proof.
  apply (getGroupGamesSafe_never_throws (H := Reference.host) sample_broken_net 5
           (Int 7) (fresh tt) _ (Ok [])).
  vm_compute. reflexivity.
Defined.

Lemma getPagedGames_endless_witness :
  getPagedGames (H := Reference.host) sample_endless_net 1000 sample_path (fresh tt)
  = None.
Proof.
  apply (getPagedGames_endless (H := Reference.host) sample_endless_net sample_path).
  intros pagePath st. eexists. eexists. split; [reflexivity | reflexivity].
Defined.

(** ** mapWithConcurrency: calls, rejections and the single worker *)

Section PoolMore.
Context {A B : Type}.
Context (items : list A) (concurrency : nat) (handler : A -> nat -> result B).

Lemma resume_failure_cases (w : nat) (p p' : pool (B := B)) :
  resume items handler w p = Some p' ->
  (failure p' = failure p)
  \/ (exists i item e,
        failure p = None /\ workers p !! w = Some (Awaiting i)
        /\ items !! i = Some item /\ handler item i = Throw e
        /\ failure p' = Some e).
Proof.
  intros Hres.
  destruct (resume_cases _ _ _ _ _ Hres)
    as (i & item & Hw & Hitem & [(v & _ & ->)|(e & He & ->)]).
  - left. cbv zeta. match goal with |- context [takeIndex items ?q] => set (p1 := q) end.
    destruct (takeIndex_cases items p1) as [[_ ->]|[_ ->]]; reflexivity.
  - simpl. destruct (failure p) as [e0|] eqn:Ef; [now left |].
    right. exists i, item, e. auto.
Qed.

Lemma run_failure_kept (schedule : list nat) (p p' : pool (B := B)) (e : error) :
  failure p = Some e -> run items handler schedule p = Some p' -> failure p' = Some e.
Proof.
  revert p. induction schedule as [|w schedule IH]; intros p Hf; simpl.
  - now intros [= <-].
  - destruct (resume items handler w p) as [p1|] eqn:Hres; [|discriminate].
    apply IH.
    destruct (resume_failure_cases _ _ _ Hres) as [->|(i & item & e' & Hnone & _)];
      [exact Hf | congruence].
Qed.

Lemma run_first_failure (schedule : list nat) (p p' : pool (B := B)) (e : error) :
  run items handler schedule p = Some p' ->
  failure p = None -> failure p' = Some e ->
  exists prefix w rest p0 i item,
    schedule = prefix ++ w :: rest
    /\ run items handler prefix p = Some p0
    /\ failure p0 = None
    /\ workers p0 !! w = Some (Awaiting i)
    /\ items !! i = Some item
    /\ handler item i = Throw e.
Proof.
  revert p. induction schedule as [|w schedule IH]; intros p; simpl.
  - intros [= <-] Hnone Hsome. congruence.
  - destruct (resume items handler w p) as [p1|] eqn:Hres; [|discriminate].
    intros Hrun Hnone Hsome.
    destruct (resume_failure_cases _ _ _ Hres)
      as [Hsame|(i & item & e' & _ & Hw & Hitem & He' & Hf1)].
    + destruct (IH p1 Hrun) as (prefix & w' & rest & p0 & i & item & -> & Hpre & Hrest);
        [congruence | exact Hsome |].
      exists (w :: prefix), w', rest, p0, i, item. split; [reflexivity |].
      split; [|exact Hrest]. simpl. now rewrite Hres.
    + pose proof (run_failure_kept _ _ _ _ Hf1 Hrun) as Hkept.
      assert (e' = e) as -> by congruence.
      exists [], w, schedule, p, i, item. auto 10.
Qed.

Lemma run_settles (m : nat) (schedule : list nat) (p : pool (B := B)) :
  run items handler schedule (started (B := B) items concurrency) = Some p ->
  length items < length schedule + m ->
  exists rest r,
    mapWithConcurrency items concurrency handler (schedule ++ rest) = Some r.
Proof.
  revert schedule p. induction m as [|m IH]; intros schedule p Hrun Hm.
  - pose proof (run_bounded _ _ _ _ _ Hrun). lia.
  - destruct (settled p) as [r|] eqn:Es.
    + exists [], r. rewrite app_nil_r. unfold mapWithConcurrency. now rewrite Hrun.
    + destruct (started_reachable items concurrency handler) as [Hr Hl].
      destruct (run_reachable _ _ _ _ _ _ Hr Hl Hrun) as [Hr' _].
      apply reachable_inv in Hr'.
      destruct (unsettled_progress _ _ _ _ Hr' Es) as (w & p1 & Hres).
      destruct (IH (schedule ++ [w]) p1) as (rest & r & Hdone).
      * rewrite run_app, Hrun. simpl. now rewrite Hres.
      * rewrite length_app. simpl. lia.
      * exists (w :: rest), r. now rewrite <- app_assoc in Hdone.
Qed.

(** X18: the handler is called with the indices 0, 1, 2, ... in this
    order, never twice with the same one and never beyond the items;
    when the call resolves under a limit of at least 1, it has been
    called once with every index. *)
Theorem mapWithConcurrency_calls_in_order (schedule : list nat) (p : pool (B := B)) :
  run items handler schedule (started (B := B) items concurrency) = Some p ->
  calls p = seq 0 (length (calls p))
  /\ length (calls p) <= length items
  /\ (0 < concurrency -> forall rs, settled p = Some (Ok rs) ->
      calls p = seq 0 (length items)).
Proof.
  intros Hrun. destruct (started_reachable items concurrency handler) as [Hr Hl].
  destruct (run_reachable _ _ _ _ _ _ Hr Hl Hrun) as [Hr' Hl'].
  apply reachable_inv in Hr'. destruct Hr' as [I1 I2 I3 I4 I5 I6 I7 I8].
  assert (Hlen : length (calls p) = Nat.min (nextIndex p) (length items))
    by (now rewrite I2, length_seq).
  split; [now rewrite Hlen |]. split; [lia |].
  intros Hpos rs. unfold settled.
  destruct (failure p); [discriminate |].
  destruct (forallb isReturned (workers p)) eqn:Eall; [|discriminate]. intros _.
  destruct (decide (length items = 0)) as [Hz|Hnz].
  { rewrite I2, Hz. now rewrite Nat.min_0_r. }
  assert (Hw0 : exists x, workers p !! 0 = Some x).
  { apply lookup_lt_is_Some_2. rewrite Hl'. unfold count. lia. }
  destruct Hw0 as [x Hw0].
  assert (Hx : isReturned x = true).
  { rewrite forallb_forall in Eall. apply Eall. apply list_elem_of_In.
    apply list_elem_of_lookup. eauto. }
  destruct x; try discriminate. apply I6 in Hw0.
  rewrite I2. f_equal. lia.
Qed.

(** X19: when mapWithConcurrency rejects, it rejects with the error of a
    handler call, and of the first one to reject in the order in which
    the calls settle: up to that call no call had rejected. *)
Theorem mapWithConcurrency_rejects_with_first_error (schedule : list nat) (e : error) :
  mapWithConcurrency items concurrency handler schedule = Some (Throw e) ->
  exists prefix w rest p0 i item,
    schedule = prefix ++ w :: rest
    /\ run items handler prefix (started (B := B) items concurrency) = Some p0
    /\ failure p0 = None
    /\ workers p0 !! w = Some (Awaiting i)
    /\ items !! i = Some item
    /\ handler item i = Throw e.
Proof.
  unfold mapWithConcurrency.
  destruct (run items handler schedule (started (B := B) items concurrency))
    as [p|] eqn:Hrun; [|discriminate].
  intros Hsettled.
  assert (Hf : failure p = Some e).
  { unfold settled in Hsettled. destruct (failure p) as [e0|]; [congruence |].
    destruct (forallb isReturned (workers p)); discriminate. }
  apply (run_first_failure _ _ _ _ Hrun); [apply started_failure | exact Hf].
Qed.

(** X20: every run of mapWithConcurrency can be carried on until the
    call settles, whether the handler rejects or not, and the call
    settles after at most one resumption per item. *)
Theorem mapWithConcurrency_settles (schedule : list nat) (p : pool (B := B)) :
  run items handler schedule (started (B := B) items concurrency) = Some p ->
  exists rest r,
    mapWithConcurrency items concurrency handler (schedule ++ rest) = Some r
    /\ length (schedule ++ rest) <= length items.
Proof.
  intros Hrun.
  destruct (run_settles (S (length items)) schedule p Hrun ltac:(lia))
    as (rest & r & Hdone).
  exists rest, r. split; [exact Hdone |].
  unfold mapWithConcurrency in Hdone.
  destruct (run items handler (schedule ++ rest) (started (B := B) items concurrency))
    as [p'|] eqn:Hrun'; [|discriminate].
  apply (run_bounded _ _ _ _ _ Hrun').
Qed.

(** X21: with no items, or with a limit of 0, no worker is started: the
    call resolves at once, the handler is never called, and every slot
    of the array is empty. *)
Theorem mapWithConcurrency_no_workers (schedule : list nat) :
  items = [] \/ concurrency = 0 ->
  mapWithConcurrency items concurrency handler schedule
  = match schedule with
    | [] => Some (Ok (replicate (length items) None))
    | _ :: _ => None
    end
  /\ calls (started (B := B) items concurrency) = [].
Proof.
  intros Hnone.
  assert (Hcount : count items concurrency = 0).
  { unfold count. destruct Hnone as [->| ->]; simpl; lia. }
  unfold mapWithConcurrency, started. rewrite Hcount. simpl.
  split; [|reflexivity]. destruct schedule as [|w rest]; reflexivity.
Qed.

End PoolMore.

Section OneWorker.
Context {A B : Type}.
Context (items : list A) (handler : A -> nat -> result B).

Lemma mapResult_in_turn_Ok (l : list A) (k : nat) (rs : list (option B)) :
  length rs = length l ->
  (forall i item, l !! i = Some item ->
     exists v, handler item (k + i) = Ok v /\ rs !! i = Some (Some v)) ->
  exists vs,
    mapResult (fun x => handler x.2 x.1) (zip (seq k (length l)) l) = Ok vs
    /\ rs = map Some vs.
Proof.
  revert k rs. induction l as [|x l IH]; intros k rs Hlen Hall.
  - destruct rs; [|discriminate]. exists []. split; reflexivity.
  - destruct rs as [|r rs]; [discriminate |]. simpl in Hlen.
    destruct (Hall 0 x eq_refl) as (v & Hv & Hr). simpl in Hr. injection Hr as ->.
    rewrite Nat.add_0_r in Hv.
    destruct (IH (S k) rs) as (vs & Hvs & ->); [lia | |].
    { intros i item Hi. destruct (Hall (S i) item Hi) as (v' & Hv' & Hr').
      exists v'. split; [|exact Hr']. now replace (S k + i) with (k + S i) by lia. }
    exists (v :: vs). simpl. rewrite Hv. simpl. rewrite Hvs. split; reflexivity.
Qed.

Lemma mapResult_in_turn_Throw (l : list A) (k i : nat) (item : A) (e : error) :
  l !! i = Some item -> handler item (k + i) = Throw e ->
  (forall j x, j < i -> l !! j = Some x -> exists v, handler x (k + j) = Ok v) ->
  mapResult (fun x => handler x.2 x.1) (zip (seq k (length l)) l) = Throw e.
Proof.
  revert k i. induction l as [|x l IH]; intros k i Hi He Hbefore; [discriminate |].
  simpl. destruct i as [|i]; simpl in Hi.
  - injection Hi as ->. rewrite Nat.add_0_r in He. now rewrite He.
  - destruct (Hbefore 0 x ltac:(lia) eq_refl) as [v Hv].
    rewrite Nat.add_0_r in Hv. rewrite Hv. simpl.
    rewrite (IH (S k) i Hi).
    + reflexivity.
    + now replace (S k + i) with (k + S i) by lia.
    + intros j y Hj Hy. destruct (Hbefore (S j) y ltac:(lia) Hy) as [v' Hv'].
      exists v'. now replace (S k + j) with (k + S j) by lia.
Qed.

(** X22: with a limit of 1 the call comes to what calling the handler on
    the items in turn comes to, each call awaited before the next: the
    array of all the results, or the error of the first call that
    rejects, the items after it never being handled. *)
Theorem mapWithConcurrency_one_worker (schedule : list nat)
    (r : result (list (option B))) :
  mapWithConcurrency items 1 handler schedule = Some r ->
  r = match handleInTurn handler items with
      | Ok vs => Ok (map Some vs)
      | Throw e => Throw e
      end
  /\ schedule = replicate (length schedule) 0.
Proof.
  unfold mapWithConcurrency.
  destruct (run items handler schedule (started (B := B) items 1)) as [p|] eqn:Hrun;
    [|discriminate].
  intros Hsettled.
  destruct (started_reachable items 1 handler) as [Hr Hl].
  assert (Hone : forall prefix p0 w x,
             run items handler prefix (started (B := B) items 1) = Some p0 ->
             workers p0 !! w = Some x -> w = 0).
  { intros prefix p0 w x Hpre Hw.
    destruct (run_reachable _ _ _ _ _ _ Hr Hl Hpre) as [_ Hl0].
    apply lookup_lt_Some in Hw. rewrite Hl0 in Hw. unfold count in Hw. lia. }
  split.
  - destruct (run_reachable _ _ _ _ _ _ Hr Hl Hrun) as [Hr' Hl'].
    unfold settled in Hsettled. destruct (failure p) as [e|] eqn:Ef.
    + injection Hsettled as <-.
      destruct (run_first_failure items handler _ _ _ _ Hrun
                  (started_failure items 1) Ef)
        as (prefix & w & rest & p0 & i & item & _ & Hpre & Hnone & Hw & Hitem & He).
      destruct (run_reachable _ _ _ _ _ _ Hr Hl Hpre) as [Hr0 _].
      apply reachable_inv in Hr0. destruct Hr0 as [I1 I2 I3 I4 I5 I6 I7 I8].
      unfold handleInTurn.
      rewrite (mapResult_in_turn_Throw items 0 i item e Hitem He); [reflexivity |].
      intros j x Hj Hx. simpl.
      destruct (I5 _ _ Hw) as [Hi _].
      destruct (I4 j x Hx ltac:(lia)) as [[w' Hw']|[(v & Hv & _)|(e' & _ & Hf)]].
      * pose proof (Hone _ _ _ _ Hpre Hw) as ->.
        pose proof (Hone _ _ _ _ Hpre Hw') as ->.
        rewrite Hw in Hw'. injection Hw' as ->. lia.
      * eauto.
      * congruence.
    + apply reachable_inv in Hr'.
      assert (Hs : settled p = Some r) by (unfold settled; now rewrite Ef).
      destruct r as [rs|e].
      * destruct (settled_results items 1 handler p rs Hr' Hl' ltac:(lia) Hs)
          as [Hlen Hall].
        destruct (mapResult_in_turn_Ok items 0 rs Hlen Hall) as (vs & Hvs & ->).
        unfold handleInTurn. now rewrite Hvs.
      * destruct (forallb isReturned (workers p)); discriminate.
  - clear Hsettled. revert p Hrun.
    induction schedule as [|w schedule IH] using rev_ind; intros p Hrun;
      [reflexivity |].
    rewrite run_app in Hrun.
    destruct (run items handler schedule (started (B := B) items 1)) as [p0|] eqn:Hpre;
      [|discriminate].
    simpl in Hrun. destruct (resume items handler w p0) as [p1|] eqn:Hres;
      [|discriminate].
    destruct (resume_cases _ _ _ _ _ Hres) as (i & item & Hw & _).
    pose proof (Hone _ _ _ _ Hpre Hw) as ->.
    rewrite length_app. simpl. rewrite Nat.add_1_r.
    rewrite replicate_S_end. f_equal. now apply (IH p0).
Qed.

End OneWorker.

Lemma mapWithConcurrency_calls_in_order_witness :
  calls (default (newPool [10; 20; 30])
           (run [10; 20; 30] sample_handler [1; 0] (started [10; 20; 30] 2)))
  = seq 0 3.
Proof.
  destruct (mapWithConcurrency_calls_in_order [10; 20; 30] 2 sample_handler [1; 0]
              (default (newPool [10; 20; 30])
                 (run [10; 20; 30] sample_handler [1; 0] (started [10; 20; 30] 2)))
              eq_refl) as [Hcalls _].
  exact Hcalls.
Defined.

Lemma mapWithConcurrency_rejects_with_first_error_witness :
  exists prefix w rest p0 i item,
    [1; 0] = prefix ++ w :: rest
    /\ run [10; 20; 30] sample_rejecting prefix (started [10; 20; 30] 2) = Some p0
    /\ failure p0 = None
    /\ workers p0 !! w = Some (Awaiting i)
    /\ [10; 20; 30] !! i = Some item
    /\ sample_rejecting item i = Throw (Error "no such item").
Proof.
  apply (mapWithConcurrency_rejects_with_first_error [10; 20; 30] 2 sample_rejecting
           [1; 0] (Error "no such item")).
  reflexivity.
Defined.

Lemma mapWithConcurrency_settles_witness :
  exists rest r,
    mapWithConcurrency [10; 20; 30] 2 sample_rejecting ([0] ++ rest) = Some r
    /\ length ([0] ++ rest) <= length [10; 20; 30].
Proof.
  apply (mapWithConcurrency_settles [10; 20; 30] 2 sample_rejecting [0]
           (default (newPool [10; 20; 30])
              (run [10; 20; 30] sample_rejecting [0] (started [10; 20; 30] 2)))).
  reflexivity.
Defined.

Lemma mapWithConcurrency_no_workers_witness :
  mapWithConcurrency ([] : list nat) 2 sample_handler [] = Some (Ok []).
Proof.
  apply (proj1 (mapWithConcurrency_no_workers [] 2 sample_handler []
                  (or_introl eq_refl))).
Defined.

Lemma mapWithConcurrency_one_worker_witness :
  Throw (Error "no such item")
  = match handleInTurn sample_rejecting [10; 20; 30] with
    | Ok vs => Ok (map Some vs)
    | Throw e => Throw e
    end.
Proof.
  apply (proj1 (mapWithConcurrency_one_worker [10; 20; 30] sample_rejecting [0; 0]
                  (Throw (Error "no such item")) eq_refl)).
Defined.

(** ** The snapshot cache: what is read back *)

Section SnapshotMore.
Context `{Host}.

Lemma readSnapshot_cases (ls : storage) (now : Z) (key : string) (maxAgeMs : Z) :
  readSnapshot ls now key (Int maxAgeMs) = VNull
  \/ exists entries raw props,
       ls = Stored entries /\ entries !! key = Some raw /\ raw <> ""
       /\ JSON_parse raw = Some (VObj props)
       /\ readSnapshot ls now key (Int maxAgeMs) = VObj props
       /\ (numberOr0 (lookupProp "updatedAtMs" props) = NaN
           \/ exists t, numberOr0 (lookupProp "updatedAtMs" props) = Int t
                        /\ (0 < t)%Z /\ (now - t <= maxAgeMs)%Z).
Proof.
  unfold readSnapshot.
  destruct ls as [|entries]; [now left |].
  destruct (entries !! key) as [raw|] eqn:Eraw; [|now left].
  destruct (String.eqb raw "") eqn:Eempty; [now left |].
  apply String.eqb_neq in Eempty.
  destruct (JSON_parse raw) as [parsed|] eqn:Eparse; [|now left].
  destruct (negb (truthy parsed) || negb (typeofObject parsed)) eqn:Echeck;
    [now left |].
  apply orb_false_elim in Echeck as [Etruthy Eobject].
  apply negb_false_iff in Etruthy, Eobject.
  destruct parsed as [| | | | |elems|props]; try discriminate.
  - left. reflexivity.
  - cbn [optProp].
    destruct (numberOr0 (lookupProp "updatedAtMs" props)) as [|t] eqn:Et.
    + right. exists entries, raw, props. simpl. auto 10.
    + simpl. destruct (t <=? 0)%Z eqn:Epos; [now left |].
      apply Z.leb_gt in Epos. unfold num_gtb. simpl.
      destruct (maxAgeMs <? now - t)%Z eqn:Eage; [now left |].
      apply Z.ltb_ge in Eage.
      right. exists entries, raw, props.
      split; [reflexivity |]. split; [exact Eraw |]. split; [exact Eempty |].
      split; [exact Eparse |]. split; [reflexivity |]. right. exists t. auto.
Qed.

(** X23: what readSnapshot returns is either [null] or the stored entry
    parsed, which then is an object (not an array, not a primitive)
    whose timestamp is either positive and within the age limit at the
    time of the read, or not a number at all. *)
Theorem readSnapshot_returns_fresh_objects (ls : storage) (now : Z) (key : string)
    (maxAgeMs : Z) (v : value) :
  readSnapshot ls now key (Int maxAgeMs) = v ->
  v <> VNull ->
  exists entries raw props,
    ls = Stored entries /\ entries !! key = Some raw /\ raw <> ""
    /\ JSON_parse raw = Some v /\ v = VObj props
    /\ (numberOr0 (lookupProp "updatedAtMs" props) = NaN
        \/ exists t, numberOr0 (lookupProp "updatedAtMs" props) = Int t
                     /\ (0 < t)%Z /\ (now - t <= maxAgeMs)%Z).
Proof.
  intros Hread Hv.
  destruct (readSnapshot_cases ls now key maxAgeMs)
    as [Hnull|(entries & raw & props & -> & Hraw & Hne & Hparse & Hobj & Htime)];
    [congruence |].
  exists entries, raw, props. rewrite Hobj in Hread. subst v. auto 10.
Qed.

(** X24: a snapshot that is read under one age limit is read, and the
    same, under every longer one: what the ten-minute read accepts, the
    one-day read of the failover accepts too. *)
Theorem readSnapshot_wider_limit (ls : storage) (now : Z) (key : string)
    (maxAgeMs maxAgeMs' : Z) :
  (maxAgeMs <= maxAgeMs')%Z ->
  readSnapshot ls now key (Int maxAgeMs) <> VNull ->
  readSnapshot ls now key (Int maxAgeMs')
  = readSnapshot ls now key (Int maxAgeMs).
Proof.
  intros Hle Hread.
  destruct (readSnapshot_cases ls now key maxAgeMs)
    as [Hnull|(entries & raw & props & -> & Hraw & Hne & Hparse & Hobj & Htime)];
    [congruence |].
  rewrite Hobj. unfold readSnapshot. rewrite Hraw.
  apply String.eqb_neq in Hne. rewrite Hne, Hparse. simpl.
  destruct Htime as [->|(t & -> & Hpos & Hage)]; [reflexivity |].
  simpl. destruct (t <=? 0)%Z eqn:E; [apply Z.leb_le in E; lia |].
  unfold num_gtb. simpl.
  destruct (maxAgeMs' <? now - t)%Z eqn:E'; [apply Z.ltb_lt in E'; lia |].
  reflexivity.
Qed.

(** X25: writeSnapshot touches the entry under its own key only: what is
    read under any other key is what was read before the write. *)
Theorem writeSnapshot_other_key (ls : storage) (now : Z) (key key' : string)
    (data : value) (maxAgeMs : number) :
  key' <> key ->
  readSnapshot (writeSnapshot ls key data) now key' maxAgeMs
  = readSnapshot ls now key' maxAgeMs.
Proof.
  intros Hne. unfold writeSnapshot. destruct ls as [|entries]; [reflexivity |].
  destruct (storageAccepts key _); [|reflexivity].
  unfold readSnapshot. now rewrite lookup_insert_ne by congruence.
Qed.

(** X26: a snapshot with a positive timestamp that survives the JSON
    codec is read back as it was written, as long as the store takes it
    and the read comes within the age limit. *)
Theorem writeSnapshot_read_back (entries : gmap string string) (now : Z)
    (key text : string) (maxAgeMs updated : Z) (props : list (string * value)) :
  JSON_stringify (VObj props) = Some text ->
  text <> "" ->
  JSON_parse text = Some (VObj props) ->
  storageAccepts key text = true ->
  numberOr0 (lookupProp "updatedAtMs" props) = Int updated ->
  (0 < updated)%Z ->
  (now - updated <= maxAgeMs)%Z ->
  readSnapshot (writeSnapshot (Stored entries) key (VObj props)) now key (Int maxAgeMs)
  = VObj props.
Proof. apply readSnapshot_after_write. Qed.

End SnapshotMore.

Lemma readSnapshot_returns_fresh_objects_witness :
  exists entries raw props,
    writeSnapshot (H := Reference.host) (Stored ∅) CACHE_KEY sample_snapshot
    = Stored entries
    /\ entries !! CACHE_KEY = Some raw /\ raw <> ""
    /\ JSON_parse (Host := Reference.host) raw = Some sample_snapshot
    /\ sample_snapshot = VObj props
    /\ (numberOr0 (H := Reference.host) (lookupProp "updatedAtMs" props) = NaN
        \/ exists t, numberOr0 (H := Reference.host) (lookupProp "updatedAtMs" props)
                     = Int t
                     /\ (0 < t)%Z /\ (1790000300000 - t <= CACHE_MAX_AGE_MS)%Z).
Proof.
  apply (readSnapshot_returns_fresh_objects (H := Reference.host)
           (writeSnapshot (H := Reference.host) (Stored ∅) CACHE_KEY sample_snapshot)
           1790000300000 CACHE_KEY CACHE_MAX_AGE_MS sample_snapshot).
  - vm_compute. reflexivity.
  - discriminate.
Defined.

Lemma readSnapshot_wider_limit_witness :
  readSnapshot (H := Reference.host)
    (writeSnapshot (H := Reference.host) (Stored ∅) CACHE_KEY sample_snapshot)
    1790000300000 CACHE_KEY (Int CACHE_FAILOVER_MAX_AGE_MS)
  = readSnapshot (H := Reference.host)
      (writeSnapshot (H := Reference.host) (Stored ∅) CACHE_KEY sample_snapshot)
      1790000300000 CACHE_KEY (Int CACHE_MAX_AGE_MS).
Proof.
  apply (readSnapshot_wider_limit (H := Reference.host)).
  - vm_compute. discriminate.
  - vm_compute. discriminate.
Defined.

Lemma writeSnapshot_other_key_witness :
  readSnapshot (H := Reference.host)
    (writeSnapshot (H := Reference.host) (Stored ∅) ROLIMONS_CACHE_KEY sample_snapshot)
    1790000300000 CACHE_KEY (Int CACHE_MAX_AGE_MS)
  = readSnapshot (H := Reference.host) (Stored ∅) 1790000300000 CACHE_KEY
      (Int CACHE_MAX_AGE_MS).
Proof.
  apply (writeSnapshot_other_key (H := Reference.host)).
  vm_compute. discriminate.
Defined.

Lemma writeSnapshot_read_back_witness :
  readSnapshot (H := Reference.host)
    (writeSnapshot (H := Reference.host) (Stored ∅) CACHE_KEY sample_snapshot)
    1790000300000 CACHE_KEY (Int CACHE_MAX_AGE_MS)
  = sample_snapshot.
Proof.
  unfold sample_snapshot.
  eapply (writeSnapshot_read_back (H := Reference.host) ∅ 1790000300000 CACHE_KEY).
  - vm_compute. reflexivity.
  - discriminate.
  - vm_compute. reflexivity.
  - vm_compute. reflexivity.
  - vm_compute. reflexivity.
  - reflexivity.
  - vm_compute. discriminate.
Defined.

(** ** escapeHtml: what it keeps *)

Lemma escapeChar_plain c : c ∉ markupChars -> escapeChar c = String c EmptyString.
Proof.
  intros Hc. unfold escapeChar.
  destruct (Ascii.eqb c "&") eqn:E1;
    [apply Ascii.eqb_eq in E1; subst; exfalso; apply Hc;
     apply list_elem_of_In; simpl; tauto |].
  destruct (Ascii.eqb c "<") eqn:E2;
    [apply Ascii.eqb_eq in E2; subst; exfalso; apply Hc;
     apply list_elem_of_In; simpl; tauto |].
  destruct (Ascii.eqb c ">") eqn:E3;
    [apply Ascii.eqb_eq in E3; subst; exfalso; apply Hc;
     apply list_elem_of_In; simpl; tauto |].
  destruct (Ascii.eqb c dquote) eqn:E4;
    [apply Ascii.eqb_eq in E4; subst; exfalso; apply Hc;
     apply list_elem_of_In; simpl; tauto |].
  destruct (Ascii.eqb c "'") eqn:E5;
    [apply Ascii.eqb_eq in E5; subst; exfalso; apply Hc;
     apply list_elem_of_In; simpl; tauto |].
  reflexivity.
Qed.

Lemma escapeChar_cases c :
  ((c ∉ markupChars) /\ escapeChar c = String c EmptyString)
  \/ (c ∈ markupChars
      /\ exists x y rest, escapeChar c = String "&" (String x (String y rest))
                          /\ (x, c) ∈ [("a", "&"); ("l", "<"); ("g", ">");
                                       ("q", dquote); ("#", "'")]%char).
Proof.
  unfold escapeChar.
  destruct (Ascii.eqb c "&") eqn:E1.
  { apply Ascii.eqb_eq in E1. subst. right.
    split; [apply list_elem_of_In; simpl; tauto |].
    do 3 eexists. split; [reflexivity |]. apply list_elem_of_In. simpl. tauto. }
  destruct (Ascii.eqb c "<") eqn:E2.
  { apply Ascii.eqb_eq in E2. subst. right.
    split; [apply list_elem_of_In; simpl; tauto |].
    do 3 eexists. split; [reflexivity |]. apply list_elem_of_In. simpl. tauto. }
  destruct (Ascii.eqb c ">") eqn:E3.
  { apply Ascii.eqb_eq in E3. subst. right.
    split; [apply list_elem_of_In; simpl; tauto |].
    do 3 eexists. split; [reflexivity |]. apply list_elem_of_In. simpl. tauto. }
  destruct (Ascii.eqb c dquote) eqn:E4.
  { apply Ascii.eqb_eq in E4. subst. right.
    split; [apply list_elem_of_In; simpl; tauto |].
    do 3 eexists. split; [reflexivity |]. apply list_elem_of_In. simpl. tauto. }
  destruct (Ascii.eqb c "'") eqn:E5.
  { apply Ascii.eqb_eq in E5. subst. right.
    split; [apply list_elem_of_In; simpl; tauto |].
    do 3 eexists. split; [reflexivity |]. apply list_elem_of_In. simpl. tauto. }
  left. split; [|reflexivity].
  apply Ascii.eqb_neq in E1, E2, E3, E4, E5.
  intros Hin. apply list_elem_of_In in Hin. simpl in Hin. intuition congruence.
Qed.

Lemma markup_tag_inj x c c' :
  (x, c) ∈ [("a", "&"); ("l", "<"); ("g", ">"); ("q", dquote); ("#", "'")]%char ->
  (x, c') ∈ [("a", "&"); ("l", "<"); ("g", ">"); ("q", dquote); ("#", "'")]%char ->
  c = c'.
Proof.
  intros H1 H2. apply list_elem_of_In in H1, H2. simpl in H1, H2.
  destruct H1 as [H1|[H1|[H1|[H1|[H1|[]]]]]]; injection H1 as <- <-;
    destruct H2 as [H2|[H2|[H2|[H2|[H2|[]]]]]]; try discriminate H2;
    now injection H2 as <-.
Qed.

Lemma string_app_inv_head (a r1 r2 : string) : a +:+ r1 = a +:+ r2 -> r1 = r2.
Proof.
  induction a as [|x a IH]; [trivial |].
  rewrite !append_cons. intros [= E]. now apply IH.
Qed.

Lemma escapeChar_app_inj c1 c2 r1 r2 :
  escapeChar c1 +:+ r1 = escapeChar c2 +:+ r2 -> c1 = c2 /\ r1 = r2.
Proof.
  destruct (escapeChar_cases c1) as [[Hp1 E1]|(Hm1 & x1 & y1 & t1 & E1 & Ht1)];
    destruct (escapeChar_cases c2) as [[Hp2 E2]|(Hm2 & x2 & y2 & t2 & E2 & Ht2)].
  - rewrite E1, E2, !append_cons. intros [= -> E]. auto.
  - rewrite E1, E2, !append_cons. intros [= -> _]. exfalso. apply Hp1.
    apply list_elem_of_In. simpl. tauto.
  - rewrite E1, E2, !append_cons. intros [= <- _]. exfalso. apply Hp2.
    apply list_elem_of_In. simpl. tauto.
  - intros E. assert (c1 = c2) as <-.
    { rewrite E1, E2, !append_cons in E. injection E as -> _.
      exact (markup_tag_inj _ _ _ Ht1 Ht2). }
    split; [reflexivity |]. exact (string_app_inv_head _ _ _ E).
Qed.

Lemma escapeChar_nonempty c r : escapeChar c +:+ r <> EmptyString.
Proof.
  destruct (escapeChar_cases c) as [[_ ->]|(_ & x & y & t & -> & _)];
    rewrite append_cons; discriminate.
Qed.

Lemma escapeString_inj s1 s2 : escapeString s1 = escapeString s2 -> s1 = s2.
Proof.
  revert s2. induction s1 as [|c1 s1 IH]; intros [|c2 s2].
  - reflexivity.
  - rewrite escapeString_cons. intros E. symmetry in E.
    now apply escapeChar_nonempty in E.
  - rewrite escapeString_cons. intros E. now apply escapeChar_nonempty in E.
  - rewrite !escapeString_cons. intros [-> E]%escapeChar_app_inj.
    f_equal. now apply IH.
Qed.

Lemma string_length_app (a b : string) :
  String.length (a +:+ b) = String.length a + String.length b.
Proof.
  induction a as [|x a IH]; [reflexivity |].
  rewrite append_cons. simpl. now rewrite IH.
Qed.

Lemma escapeString_length s :
  String.length s <= String.length (escapeString s)
  /\ ((exists c, c ∈ list_ascii_of_string s /\ c ∈ markupChars) ->
      String.length s < String.length (escapeString s)).
Proof.
  induction s as [|c s [IHle IHlt]].
  - split; [reflexivity |]. intros (c & Hc & _). now apply elem_of_nil in Hc.
  - rewrite escapeString_cons, string_length_app. cbn [String.length].
    destruct (escapeChar_cases c) as [[Hp ->]|(Hm & x & y & t & -> & _)];
      cbn [String.length].
    + split; [lia |]. intros (c' & Hc' & Hm'). cbn [list_ascii_of_string] in Hc'.
      apply elem_of_cons in Hc' as [->|Hc']; [contradiction |].
      assert (String.length s < String.length (escapeString s)); [|lia].
      apply IHlt. eauto.
    + split; [lia |]. intros _. lia.
Qed.

Section EscapeMore.
Context `{Host}.

(** X27: escapeHtml returns a text unchanged exactly when the text has
    none of the five characters [&], [<], [>], the double quote and the
    single quote; every other text gets longer. *)
Theorem escapeHtml_keeps_plain_text (s : string) :
  (escapeHtml (VStr s) = s
   <-> forall c, c ∈ list_ascii_of_string s -> c ∉ markupChars)
  /\ String.length s <= String.length (escapeHtml (VStr s)).
Proof.
  unfold escapeHtml. cbn [ToString]. split; [|apply escapeString_length].
  split.
  - intros Hsame c Hc Hm.
    destruct (escapeString_length s) as [_ Hlt].
    specialize (Hlt (ex_intro _ c (conj Hc Hm))). rewrite Hsame in Hlt. lia.
  - induction s as [|c s IH]; intros Hplain; [reflexivity |].
    rewrite escapeString_cons, escapeChar_plain, append_cons.
    + f_equal. apply IH. intros c' Hc'. apply Hplain. now right.
    + apply Hplain. left.
Qed.

(** X28: escapeHtml loses nothing: two values that are escaped to the
    same text print as the same string. *)
Theorem escapeHtml_injective (v1 v2 : value) :
  escapeHtml v1 = escapeHtml v2 -> ToString v1 = ToString v2.
Proof. unfold escapeHtml. apply escapeString_inj. Qed.

End EscapeMore.

Lemma escapeHtml_injective_witness : ToString (VNum (Int 5)) = ToString (VStr "5").
Proof.
  apply escapeHtml_injective. vm_compute. reflexivity.
Defined.

(** ** encodeURIComponent *)

Lemma hex_unreserved c :
  isUnreserved (hexDigit (nat_of_ascii c / 16)) = true
  /\ isUnreserved (hexDigit (nat_of_ascii c mod 16)) = true.
Proof.
  destruct c as [[|] [|] [|] [|] [|] [|] [|] [|]]; vm_compute; split; reflexivity.
Qed.

(** X29: what encodeURIComponent writes consists of unreserved characters
    and [%] only, so a cursor cannot bring a [&], [=], [?], [#], [/] or a
    space into the path of a page request. *)
Theorem encodeURIComponent_alphabet (s : string) :
  (forall c, c ∈ list_ascii_of_string (encodeURIComponent s) ->
     isUnreserved c = true \/ c = "%"%char)
  /\ (forall c, c ∈ ["&"; "="; "?"; "#"; "/"; " "]%char ->
        c ∉ list_ascii_of_string (encodeURIComponent s)).
Proof.
  assert (Hall : forall c, c ∈ list_ascii_of_string (encodeURIComponent s) ->
                   isUnreserved c = true \/ c = "%"%char).
  { induction s as [|x s IH]; intros c Hc.
    - now apply elem_of_nil in Hc.
    - cbn [encodeURIComponent] in Hc. destruct (isUnreserved x) eqn:Ex.
      + cbn [list_ascii_of_string] in Hc.
        apply elem_of_cons in Hc as [->|Hc]; [now left | now apply IH].
      + cbn [list_ascii_of_string] in Hc.
        destruct (hex_unreserved x) as [Hhi Hlo].
        apply elem_of_cons in Hc as [->|Hc]; [now right |].
        apply elem_of_cons in Hc as [->|Hc]; [now left |].
        apply elem_of_cons in Hc as [->|Hc]; [now left |].
        now apply IH. }
  split; [exact Hall |].
  intros c Hc Hin. apply Hall in Hin. apply list_elem_of_In in Hc. simpl in Hc.
  destruct Hc as [<-|[<-|[<-|[<-|[<-|[<-|[]]]]]]];
    (destruct Hin as [Hin|Hin]; [vm_compute in Hin; discriminate | discriminate]).
Qed.

(** ** collectUniverseIds *)

Lemma jsset_has n set : existsb (sameValueZero n) set = true <-> n ∈ set.
Proof.
  induction set as [|m set IH]; simpl.
  - split; [discriminate | intros Hin; now apply elem_of_nil in Hin].
  - rewrite orb_true_iff, IH, elem_of_cons. split.
    + intros [E|Hin]; [left; now apply sameValueZero_eq in E | now right].
    + intros [->|Hin]; [left; apply sameValueZero_refl | now right].
Qed.

Lemma jsset_add_spec n set :
  NoDup set ->
  NoDup (jsset_add n set) /\ forall m, m ∈ jsset_add n set <-> m ∈ set \/ m = n.
Proof.
  intros Hnd. unfold jsset_add.
  destruct (existsb (sameValueZero n) set) eqn:E.
  - apply jsset_has in E. split; [exact Hnd |].
    intros m. split; [auto | intros [Hm| ->]; assumption].
  - assert (Hn : n ∉ set).
    { intros Hin. apply jsset_has in Hin. congruence. }
    split.
    + apply NoDup_app. split; [exact Hnd |]. split; [|apply NoDup_singleton].
      intros x Hx Hx'. apply list_elem_of_singleton in Hx'. now subst.
    + intros m. rewrite elem_of_app, list_elem_of_singleton. tauto.
Qed.

Lemma collectId_cases set game :
  (nullish game = true /\ exists e, collectId set game = Throw e)
  \/ (nullish game = false
      /\ collectId set game
         = Ok (match optProp game "id" with
               | VNum n => jsset_add n set
               | _ => set
               end)).
Proof.
  unfold collectId.
  destruct game; cbn [getProp optProp nullish bind];
    try (left; split; [reflexivity | eauto]);
    right; (split; [reflexivity |]);
    try match goal with |- context [match ?v with VNum _ => _ | _ => _ end] =>
          destruct v end; reflexivity.
Qed.

Lemma collectIds_cases games set :
  NoDup set ->
  (Exists (fun g => nullish g = true) games
   /\ exists e, foldResult collectId games set = Throw e)
  \/ (Forall (fun g => nullish g = false) games
      /\ exists ids,
           foldResult collectId games set = Ok ids
           /\ NoDup ids
           /\ forall n, n ∈ ids <->
                n ∈ set \/ exists g, g ∈ games /\ optProp g "id" = VNum n).
Proof.
  revert set. induction games as [|g games IH]; intros set Hnd.
  - right. split; [constructor |]. exists set. split; [reflexivity |].
    split; [exact Hnd |]. intros n. split; [auto |].
    intros [Hn|(g & Hg & _)]; [exact Hn | now apply elem_of_nil in Hg].
  - cbn [foldResult].
    destruct (collectId_cases set g) as [[Hg [e ->]]|[Hg ->]].
    + left. split; [now left | now exists e].
    + cbn [bind].
      set (set' := match optProp g "id" with
                   | VNum n => jsset_add n set
                   | _ => set
                   end).
      assert (Hset' : NoDup set'
                /\ forall n, n ∈ set' <-> n ∈ set \/ optProp g "id" = VNum n).
      { subst set'. destruct (optProp g "id") as [| | |m| | |] eqn:Eid;
          try (split; [exact Hnd |]; intros n; split; [auto |];
               intros [Hn|Hn]; [exact Hn | discriminate]).
        destruct (jsset_add_spec m set Hnd) as [Hnd' Hin'].
        split; [exact Hnd' |]. intros n. rewrite Hin'.
        split; (intros [Hn|Hn]; [now left | right; congruence]). }
      destruct Hset' as [Hnd' Hin'].
      destruct (IH set' Hnd') as [[Hex [e ->]]|[Hall (ids & -> & Hids & Hmem)]].
      * left. split; [now right | now exists e].
      * right. split; [now constructor |]. exists ids. split; [reflexivity |].
        split; [exact Hids |]. intros n. rewrite Hmem, Hin'. split.
        -- intros [[Hn|Hn]|(g' & Hg' & Hn)]; [now left | |].
           ++ right. exists g. split; [left | exact Hn].
           ++ right. exists g'. split; [now right | exact Hn].
        -- intros [Hn|(g' & [->|Hg']%elem_of_cons & Hn)]; [auto | auto |].
           right. eauto.
Qed.

(** X30: collectUniverseIds, of the earlier revision, throws exactly when
    an item is [null] or [undefined].  Otherwise it returns each id that
    is a number once, whatever its sign, and nothing else; an id that is
    not a number is skipped, not coerced. *)
Theorem collectUniverseIds_distinct (userGames groupGames : list value) :
  ((exists e, collectUniverseIds userGames groupGames = Throw e)
   <-> exists g, g ∈ userGames ++ groupGames /\ nullish g = true)
  /\ (forall ids, collectUniverseIds userGames groupGames = Ok ids ->
        NoDup ids
        /\ forall n, n ∈ ids <->
             exists g, g ∈ userGames ++ groupGames /\ optProp g "id" = VNum n).
Proof.
  unfold collectUniverseIds.
  destruct (collectIds_cases userGames [] (NoDup_nil_2 (A := number)))
    as [[Hex1 [e1 ->]]|[Hall1 (set & -> & Hnd1 & Hmem1)]]; cbn [bind].
  - split.
    + split; [intros _ | intros _; eauto].
      apply Exists_exists in Hex1 as (g & Hg & Hnull). exists g.
      split; [apply elem_of_app; now left | exact Hnull].
    + intros ids [=].
  - destruct (collectIds_cases groupGames set Hnd1)
      as [[Hex2 [e2 ->]]|[Hall2 (ids & -> & Hnd2 & Hmem2)]].
    + split.
      * split; [intros _ | intros _; eauto].
        apply Exists_exists in Hex2 as (g & Hg & Hnull). exists g.
        split; [apply elem_of_app; now right | exact Hnull].
      * intros ids [=].
    + split.
      * split; [intros [e He]; discriminate |].
        intros (g & [Hg|Hg]%elem_of_app & Hnull).
        -- rewrite Forall_forall in Hall1. rewrite (Hall1 g Hg) in Hnull. discriminate.
        -- rewrite Forall_forall in Hall2. rewrite (Hall2 g Hg) in Hnull. discriminate.
      * intros ids' [= <-]. split; [exact Hnd2 |].
        intros n. rewrite Hmem2, Hmem1. split.
        -- intros [[Hn|(g & Hg & Hn)]|(g & Hg & Hn)].
           ++ now apply elem_of_nil in Hn.
           ++ exists g. split; [apply elem_of_app; now left | exact Hn].
           ++ exists g. split; [apply elem_of_app; now right | exact Hn].
        -- intros (g & [Hg|Hg]%elem_of_app & Hn); [left; right | right]; eauto.
Qed.
